(** * sankey-report: flow classification, graph building, layout overrides
      and balance checking

    A shallow embedding of the computational core of the Sankey report
    builder (src/utils/sankeyHelpers.ts, src/components/SankeyChart.tsx,
    src/components/BalanceSummary.tsx, src/components/DataTable.tsx,
    src/components/NodeEditor.tsx and src/App.tsx), followed by the
    properties its specification states about it and by further
    properties of the handlers around them: selection, images, dragging,
    storage, pasting and the automatic layout.

    Conventions of the embedding:
    - a JavaScript string is the list of its UTF-16 code units;
    - a JavaScript number is an exact rational, extended with NaN and the
      two infinities where the code tests for them; rounding, overflow and
      the sign of zero are not modelled;
    - a [Map] or [Set] whose iteration order is observable is an
      association list in insertion order; objects and maps that are only
      looked up and updated by key are finite maps ([gmap]);
    - built-ins of the host ([toLowerCase], [localeCompare], [parseFloat])
      and the d3-sankey layout generator are parameters;
    - a state setter called with an update function is applied to the
      current state. *)

From Stdlib Require Import Ascii String QArith Qabs Qround Lqa.
From stdpp Require Import base option list sorting gmap strings pretty.

Local Open Scope Z_scope.

(** ** JavaScript strings *)

Module JsString.

Definition byte_of_ascii (a : ascii) : N := N_of_ascii a.

Fixpoint bytes_of_string (s : string) : list N :=
  match s with
  | EmptyString => []
  | String a rest => byte_of_ascii a :: bytes_of_string rest
  end.

(** Low six bits of a UTF-8 continuation byte. *)
Definition cont (b : N) : N := N.land b 63.

(** Code units of one code point: itself in the BMP, a surrogate pair
    above it. *)
Definition units_of_code_point (cp : N) : list N :=
  if (cp <? 65536)%N then [cp]
  else
    let v := (cp - 65536)%N in
    [(55296 + N.shiftr v 10)%N; (56320 + N.land v 1023)%N].

(** Decoder of the UTF-8 bytes of a literal of this file into UTF-16 code
    units, so that names can be written as they are in the source. *)
Fixpoint decode_utf8 (bs : list N) : list N :=
  match bs with
  | [] => []
  | b :: rest =>
      if (b <? 128)%N then b :: decode_utf8 rest
      else if (b <? 224)%N then
        match rest with
        | b2 :: rest2 =>
            units_of_code_point (N.shiftl (N.land b 31) 6 + cont b2)%N
              ++ decode_utf8 rest2
        | _ => [65533%N]
        end
      else if (b <? 240)%N then
        match rest with
        | b2 :: b3 :: rest3 =>
            units_of_code_point
              (N.shiftl (N.land b 15) 12 + N.shiftl (cont b2) 6 + cont b3)%N
              ++ decode_utf8 rest3
        | _ => [65533%N]
        end
      else
        match rest with
        | b2 :: b3 :: b4 :: rest4 =>
            units_of_code_point
              (N.shiftl (N.land b 7) 18 + N.shiftl (cont b2) 12
               + N.shiftl (cont b3) 6 + cont b4)%N
              ++ decode_utf8 rest4
        | _ => [65533%N]
        end
  end.

Definition js (s : string) : list N := decode_utf8 (bytes_of_string s).

(** [a.startsWith(b)] on code units. *)
Fixpoint startsWith (s needle : list N) : bool :=
  match needle, s with
  | [], _ => true
  | _ :: _, [] => false
  | n :: needle', c :: s' => (c =? n)%N && startsWith s' needle'
  end.

(** [String.prototype.includes]: does [needle] occur in [s] as a
    contiguous run of code units? *)
Fixpoint includes (s needle : list N) : bool :=
  startsWith s needle ||
  match s with
  | [] => false
  | _ :: s' => includes s' needle
  end.

(** The relation [includes] decides. *)
Definition Contains (s needle : list N) : Prop :=
  ∃ pre post, s = pre ++ needle ++ post.

(** WhiteSpace and LineTerminator code units, the ones
    [String.prototype.trim] strips. *)
Definition isWhiteSpace (c : N) : bool :=
  ((9 <=? c) && (c <=? 13) || (c =? 32) || (c =? 160) || (c =? 5760)
   || (8192 <=? c) && (c <=? 8202) || (c =? 8232) || (c =? 8233)
   || (c =? 8239) || (c =? 8287) || (c =? 12288) || (c =? 65279))%N.

Fixpoint trimStart (s : list N) : list N :=
  match s with
  | [] => []
  | c :: s' => if isWhiteSpace c then trimStart s' else s
  end.

Definition trimEnd (s : list N) : list N := reverse (trimStart (reverse s)).

(** [String.prototype.trim]. *)
Definition trim (s : list N) : list N := trimEnd (trimStart s).

(** Truthiness of a string: it is not empty. *)
Definition truthy (s : list N) : bool :=
  match s with [] => false | _ :: _ => true end.

(** Lower-casing of one code unit for the Basic Latin, Latin-1 and basic
    Cyrillic blocks, where [String.prototype.toLowerCase] maps unit by
    unit; other units are left as they are. *)
Definition lowerUnit (c : N) : N :=
  if ((65 <=? c) && (c <=? 90))%N then (c + 32)%N
  else if ((192 <=? c) && (c <=? 222) && negb (c =? 215))%N then (c + 32)%N
  else if ((1040 <=? c) && (c <=? 1071))%N then (c + 32)%N
  else if ((1024 <=? c) && (c <=? 1039))%N then (c + 80)%N
  else c.

Definition toLowerCaseUnits (s : list N) : list N := map lowerUnit s.

(** Code-unit order, the comparison of [<] on strings. *)
Fixpoint compareUnits (a b : list N) : Z :=
  match a, b with
  | [], [] => 0
  | [], _ :: _ => -1
  | _ :: _, [] => 1
  | x :: a', y :: b' =>
      if (x <? y)%N then -1 else if (y <? x)%N then 1 else compareUnits a' b'
  end.

End JsString.

Import JsString.
Arguments js _%_string.

(** ** JavaScript numbers *)

Inductive number : Type :=
  | Num (q : Q)
  | PosInfinity
  | NegInfinity
  | NaN.

Module Number.

(** [Number.isFinite]. *)
Definition isFinite (x : number) : bool :=
  match x with Num _ => true | _ => false end.

Definition Qlt_bool (a b : Q) : bool := negb (Qle_bool b a).

(** [x > y]; false as soon as one side is NaN. *)
Definition gt (x y : number) : bool :=
  match x, y with
  | NaN, _ | _, NaN => false
  | Num a, Num b => Qlt_bool b a
  | PosInfinity, PosInfinity | NegInfinity, _ | Num _, PosInfinity => false
  | PosInfinity, _ | Num _, NegInfinity => true
  end.

Definition lt (x y : number) : bool := gt y x.


Definition neg (x : number) : number :=
  match x with
  | Num a => Num (- a)
  | PosInfinity => NegInfinity
  | NegInfinity => PosInfinity
  | NaN => NaN
  end.

Definition add (x y : number) : number :=
  match x, y with
  | NaN, _ | _, NaN => NaN
  | Num a, Num b => Num (a + b)
  | PosInfinity, NegInfinity | NegInfinity, PosInfinity => NaN
  | PosInfinity, _ | _, PosInfinity => PosInfinity
  | NegInfinity, _ | _, NegInfinity => NegInfinity
  end.

Definition sub (x y : number) : number := add x (neg y).

(** [Math.abs]. *)
Definition abs (x : number) : number :=
  match x with
  | Num a => Num (Qabs a)
  | PosInfinity | NegInfinity => PosInfinity
  | NaN => NaN
  end.





End Number.

(** ** types.ts *)

Inductive FlowType : Type := revenue | adjacentRevenue | profit | expense.

Module Row.
Record t : Type := mk {
  id : list N;
  source : list N;
  target : list N;
  currentPeriod : number;
  previousPeriod : number;
}.
End Row.

(** ** sankeyHelpers.ts *)

Section determineFlowType.

(** [String.prototype.toLowerCase], a built-in of the host. *)
Variable toLowerCase : list N → list N.

Definition determineFlowType (source target : list N) : FlowType :=
  let sourceLower := toLowerCase source in
  let targetLower := toLowerCase target in
  if includes sourceLower (js "прочи")
     && (includes sourceLower (js "доход") || includes sourceLower (js "выручка"))
  then adjacentRevenue
  else if includes sourceLower (js "выручка") || includes sourceLower (js "доход")
  then revenue
  else if includes targetLower (js "прибыль") || includes targetLower (js "ebitda")
          || includes targetLower (js "чистая")
  then profit
  else expense.

End determineFlowType.

(** A row is drawn when both trimmed names are non-empty and
    [currentPeriod > 0]; this is the filter of [prepareNodesAndLinks] and
    of each of its callers. *)
Definition isValidRow (row : Row.t) : bool :=
  truthy (trim (Row.source row)) && truthy (trim (Row.target row))
  && Number.gt (Row.currentPeriod row) (Num 0).

Module Node.
(** [id] is the text [node-] followed by this index. *)
Record t : Type := mk { name : list N; id : nat }.
End Node.

Module Link.
(** [source] and [target] are positions in the node list; [None] stands
    for the [undefined] that [nodeIndex.get] returns for an unknown name. *)
Record t : Type := mk {
  source : option nat;
  target : option nat;
  value : number;
  flowType : FlowType;
  currentValue : number;
  previousValue : number;
}.
End Link.

(** [Set.prototype.add] on a set kept in insertion order. *)
Definition setAdd (x : list N) (s : list (list N)) : list (list N) :=
  if decide (x ∈ s) then s else s ++ [x].

(** [new Map(entries)] and a [forEach] of [Map.prototype.set]: later entries
    replace earlier ones. *)
Definition mapOfEntries {V : Type} (entries : list (list N * V)) : gmap (list N) V :=
  foldl (λ m kv, <[kv.1 := kv.2]> m) ∅ entries.

Module Graph.
Record t : Type := mk { nodes : list Node.t; links : list Link.t }.
End Graph.

Section prepareNodesAndLinks.

Variable toLowerCase : list N → list N.

Definition collectNames (nodeNames : list (list N)) (row : Row.t) : list (list N) :=
  let nodeNames1 :=
    if truthy (trim (Row.source row)) then setAdd (trim (Row.source row)) nodeNames
    else nodeNames in
  if truthy (trim (Row.target row)) then setAdd (trim (Row.target row)) nodeNames1
  else nodeNames1.

Definition nodeNamesOf (rows : list Row.t) : list (list N) :=
  foldl collectNames [] rows.

Definition nodesOf (rows : list Row.t) : list Node.t :=
  imap (λ index name, Node.mk name index) (nodeNamesOf rows).

Definition nodeIndexOf (nodes : list Node.t) : gmap (list N) nat :=
  mapOfEntries (imap (λ index node, (Node.name node, index)) nodes).

Definition linkOfRow (nodeIndex : gmap (list N) nat) (row : Row.t) : Link.t :=
  {| Link.source := nodeIndex !! trim (Row.source row);
     Link.target := nodeIndex !! trim (Row.target row);
     Link.value := Row.currentPeriod row;
     Link.flowType := determineFlowType toLowerCase (Row.source row) (Row.target row);
     Link.currentValue := Row.currentPeriod row;
     Link.previousValue := Row.previousPeriod row |}.

Definition prepareNodesAndLinks (rows : list Row.t) : Graph.t :=
  let nodes := nodesOf rows in
  let nodeIndex := nodeIndexOf nodes in
  {| Graph.nodes := nodes;
     Graph.links := map (linkOfRow nodeIndex) (filter (λ row, isValidRow row = true) rows) |}.

(** The call pattern of SankeyChart.tsx and App.tsx: rows are filtered to
    the valid ones before the graph is built. *)
Definition validRowsOf (rows : list Row.t) : list Row.t :=
  filter (λ r, isValidRow r = true) rows.

Definition buildGraph (rows : list Row.t) : Graph.t :=
  prepareNodesAndLinks (validRowsOf rows).

End prepareNodesAndLinks.

Module Change.
Record t : Type := mk { value : number; percent : number }.
End Change.


(** ** BalanceSummary.tsx *)

Module NodeBalance.
Record t : Type := mk {
  name : list N;
  currentIn : number;
  currentOut : number;
  previousIn : number;
  previousOut : number;
  hasIn : bool;
  hasOut : bool;
}.

Definition empty (name : list N) : t :=
  mk name (Num 0) (Num 0) (Num 0) (Num 0) false false.

(** The three statements that book a row on its source. *)
Definition addOut (current previous : number) (b : t) : t :=
  mk (name b) (currentIn b) (Number.add (currentOut b) current)
     (previousIn b) (Number.add (previousOut b) previous) (hasIn b) true.

(** The three statements that book a row on its target. *)
Definition addIn (current previous : number) (b : t) : t :=
  mk (name b) (Number.add (currentIn b) current) (currentOut b)
     (Number.add (previousIn b) previous) (previousOut b) true (hasOut b).
End NodeBalance.

(** A [Map] in insertion order, as [Array.from(map.values())] reads it. *)
Module OMap.
Section omap.
Context {V : Type}.

Fixpoint get (k : list N) (m : list (list N * V)) : option V :=
  match m with
  | [] => None
  | (k', v) :: m' => if decide (k = k') then Some v else get k m'
  end.

Definition has (k : list N) (m : list (list N * V)) : bool :=
  bool_decide (is_Some (get k m)).

(** [set] keeps the position of a key that is present and appends a
    new one. *)
Fixpoint set (k : list N) (v : V) (m : list (list N * V)) : list (list N * V) :=
  match m with
  | [] => [(k, v)]
  | (k', v') :: m' =>
      if decide (k = k') then (k, v) :: m' else (k', v') :: set k v m'
  end.

(** In-place update of the object stored under [k]. *)
Fixpoint update (k : list N) (f : V → V) (m : list (list N * V)) : list (list N * V) :=
  match m with
  | [] => []
  | (k', v') :: m' =>
      if decide (k = k') then (k', f v') :: m' else (k', v') :: update k f m'
  end.

Definition values (m : list (list N * V)) : list V := map snd m.
End omap.
End OMap.

(** The row problems the summary lists, each with its 1-based row number. *)
Inductive Issue : Type :=
  | MissingEndpoint (line : nat)
  | InvalidNumbers (line : nat)
  | NegativeValues (line : nat).

Module Totals.
Record t : Type := mk { current : number; previous : number }.
End Totals.

Module Balance.

Definition epsilon : number := Num (1 # 1000).

Definition ensure (k : list N) (balances : list (list N * NodeBalance.t))
  : list (list N * NodeBalance.t) :=
  if OMap.has k balances then balances
  else OMap.set k (NodeBalance.empty k) balances.

(** Body of the [rows.forEach] callback. *)
Definition step (st : list (list N * NodeBalance.t) * list Issue)
    (indexed : nat * Row.t) : list (list N * NodeBalance.t) * list Issue :=
  let '(balances, problems) := st in
  let '(index, row) := indexed in
  let source := trim (Row.source row) in
  let target := trim (Row.target row) in
  let current :=
    if Number.isFinite (Row.currentPeriod row) then Row.currentPeriod row else NaN in
  let previous :=
    if Number.isFinite (Row.previousPeriod row) then Row.previousPeriod row else NaN in
  if negb (truthy source) || negb (truthy target)
  then (balances, problems ++ [MissingEndpoint (index + 1)])
  else if negb (Number.isFinite current) || negb (Number.isFinite previous)
  then (balances, problems ++ [InvalidNumbers (index + 1)])
  else
    let problems1 :=
      if Number.lt current (Num 0) || Number.lt previous (Num 0)
      then problems ++ [NegativeValues (index + 1)] else problems in
    let balances1 := ensure target (ensure source balances) in
    let balances2 := OMap.update source (NodeBalance.addOut current previous) balances1 in
    let balances3 := OMap.update target (NodeBalance.addIn current previous) balances2 in
    (balances3, problems1).

Definition aggregate (rows : list Row.t) : list (list N * NodeBalance.t) * list Issue :=
  foldl step ([], []) (imap (λ index row, (index, row)) rows).

(** [nodes.reduce((sum, node) => sum + f(node), 0)]. *)
Definition total (f : NodeBalance.t → number) (nodes : list NodeBalance.t) : number :=
  foldl (λ sum node, Number.add sum (f node)) (Num 0) nodes.

Definition isSource (node : NodeBalance.t) : bool :=
  NodeBalance.hasOut node && negb (NodeBalance.hasIn node).
Definition isSink (node : NodeBalance.t) : bool :=
  NodeBalance.hasIn node && negb (NodeBalance.hasOut node).
Definition isIntermediate (node : NodeBalance.t) : bool :=
  NodeBalance.hasIn node && NodeBalance.hasOut node.

Definition isImbalanced (node : NodeBalance.t) : bool :=
  let currentDiff :=
    Number.abs (Number.sub (NodeBalance.currentIn node) (NodeBalance.currentOut node)) in
  let previousDiff :=
    Number.abs (Number.sub (NodeBalance.previousIn node) (NodeBalance.previousOut node)) in
  Number.gt currentDiff epsilon || Number.gt previousDiff epsilon.

Definition nodeBalances (rows : list Row.t) : list NodeBalance.t :=
  OMap.values (aggregate rows).1.

Definition issues (rows : list Row.t) : list Issue := (aggregate rows).2.

Definition sourceNodes (rows : list Row.t) : list NodeBalance.t :=
  filter (λ node, isSource node = true) (nodeBalances rows).
Definition sinkNodes (rows : list Row.t) : list NodeBalance.t :=
  filter (λ node, isSink node = true) (nodeBalances rows).

Definition sourceTotals (rows : list Row.t) : Totals.t :=
  {| Totals.current := total NodeBalance.currentOut (sourceNodes rows);
     Totals.previous := total NodeBalance.previousOut (sourceNodes rows) |}.

Definition sinkTotals (rows : list Row.t) : Totals.t :=
  {| Totals.current := total NodeBalance.currentIn (sinkNodes rows);
     Totals.previous := total NodeBalance.previousIn (sinkNodes rows) |}.

Definition intermediateNodes (rows : list Row.t) : list NodeBalance.t :=
  filter (λ node, isIntermediate node = true) (nodeBalances rows).

Definition imbalancedNodes (rows : list Row.t) : list NodeBalance.t :=
  filter (λ node, isImbalanced node = true) (intermediateNodes rows).

Definition edgeCurrentDiff (rows : list Row.t) : number :=
  Number.abs (Number.sub (Totals.current (sourceTotals rows)) (Totals.current (sinkTotals rows))).
Definition edgePreviousDiff (rows : list Row.t) : number :=
  Number.abs (Number.sub (Totals.previous (sourceTotals rows)) (Totals.previous (sinkTotals rows))).

Definition edgeMismatch (rows : list Row.t) : bool :=
  Number.gt (edgeCurrentDiff rows) epsilon || Number.gt (edgePreviousDiff rows) epsilon.

Definition isOk (rows : list Row.t) : bool :=
  bool_decide (length (imbalancedNodes rows) = 0%nat)
  && bool_decide (length (issues rows) = 0%nat)
  && negb (edgeMismatch rows).

End Balance.

(** ** Arrays and numbers shared by App.tsx and SankeyChart.tsx *)

Local Open Scope Q_scope.

(** [x || d] on a number: [d] replaces zero. *)
Definition orDefault (x d : Q) : Q := if Qeq_bool x 0 then d else x.

(** [Math.max] on finite numbers. *)
Definition qmax (a b : Q) : Q := if Qle_bool a b then b else a.

(** [Math.round]: the nearest integer, halves upwards. *)
Definition round (x : Q) : Z := Qfloor (x + (1 # 2)).

Definition ofNat (n : nat) : Q := inject_Z (Z.of_nat n).

(** [Array.prototype.indexOf]; [None] stands for -1. *)
Definition indexOf (x : list N) (l : list (list N)) : option nat :=
  fst <$> list_find (λ y, y = x) l.

Section sort.
Context {A : Type}.

(** A comparator returns a number: negative when its first argument
    goes first, positive when its second does. *)
Variable compareFn : A → A → Q.

Fixpoint insertSorted (x : A) (sorted : list A) : list A :=
  match sorted with
  | [] => [x]
  | y :: rest =>
      if Qle_bool (compareFn x y) 0 then x :: y :: rest
      else y :: insertSorted x rest
  end.

(** [Array.prototype.sort], which is stable: elements that compare equal
    keep their order. Modelled by insertion from the right. *)
Definition sortBy (l : list A) : list A := foldr insertSorted [] l.
End sort.

Module NodeSettings.
Record t : Type := mk {
  color : option (list N);
  labelSize : option Q;
  valueSize : option Q;
  offsetX : option Q;
  offsetY : option Q;
  linkColorPriority : option bool;
  orderY : option Q;
  childrenOrder : option (gmap (list N) Q);
}.

Definition empty : t := mk None None None None None None None None.

(** [{ ...settings, childrenOrder }]. *)
Definition withChildrenOrder (order : gmap (list N) Q) (ns : t) : t :=
  mk (color ns) (labelSize ns) (valueSize ns) (offsetX ns) (offsetY ns)
     (linkColorPriority ns) (orderY ns) (Some order).

(** [{ ...settings, offsetX, offsetY }]. *)
Definition withOffset (x y : option Q) (ns : t) : t :=
  mk (color ns) (labelSize ns) (valueSize ns) x y
     (linkColorPriority ns) (orderY ns) (childrenOrder ns).
End NodeSettings.

(** The fields of [ReportSettings] that layout and overrides read; logo,
    colours, labels and images play no part in them. *)
Module Settings.
Record t : Type := mk {
  nodeLabelSize : Q;
  nodeValueSize : Q;
  nodeWidth : Q;
  linkWidthScale : Q;
  chartWidth : Q;
  chartHeight : Q;
  nodeSettings : gmap (list N) NodeSettings.t;
}.

(** [{ ...prev, nodeSettings }]. *)
Definition withNodeSettings (next : gmap (list N) NodeSettings.t) (s : t) : t :=
  mk (nodeLabelSize s) (nodeValueSize s) (nodeWidth s) (linkWidthScale s)
     (chartWidth s) (chartHeight s) next.
End Settings.

(** [settings.nodeSettings[name] || {}]. *)
Definition getNodeSettings (settings : Settings.t) (nodeName : list N) : NodeSettings.t :=
  default NodeSettings.empty (Settings.nodeSettings settings !! nodeName).

Module Margin.
Definition top : Q := 80.
Definition right : Q := 250.
Definition bottom : Q := 40.
Definition left : Q := 250.
End Margin.

(** A node as the d3-sankey layout returns it. *)
Module GraphNode.
Record t : Type := mk {
  name : list N;
  x0 : option Q;
  x1 : option Q;
  y0 : option Q;
  y1 : option Q;
  layer : option Z;
}.
End GraphNode.

(** What the layout generator is configured with. *)
Module Sankey.
Record config : Type := mkConfig {
  nodeWidth : Q;
  nodePadding : Q;
  extent : (Q * Q) * (Q * Q);
}.
End Sankey.

Definition canvasWidth (settings : Settings.t) : Q := orDefault (Settings.chartWidth settings) 1200.
Definition canvasHeight (settings : Settings.t) : Q := orDefault (Settings.chartHeight settings) 700.

Definition nodePaddingOf (settings : Settings.t) : Q :=
  let scale := qmax 1 (orDefault (Settings.linkWidthScale settings) 1) in
  let textPad :=
    orDefault (Settings.nodeLabelSize settings) 12
    + orDefault (Settings.nodeValueSize settings) 11 * 2 + 10 in
  qmax (25 * scale) textPad.

Definition sankeyConfig (settings : Settings.t) : Sankey.config :=
  {| Sankey.nodeWidth := orDefault (Settings.nodeWidth settings) 20;
     Sankey.nodePadding := nodePaddingOf settings;
     Sankey.extent :=
       ((Margin.left, Margin.top),
        (canvasWidth settings - Margin.right, canvasHeight settings - Margin.bottom)) |}.

Section nodeSort.

(** [String.prototype.localeCompare], a built-in of the host. *)
Variable localeCompare : list N → list N → Q.

Definition nodeOrderIndexOf (nodes : list Node.t) : gmap (list N) nat :=
  mapOfEntries (imap (λ index node, (Node.name node, index)) nodes).

Definition getNodeSortOrder (nodes : list Node.t) (nodeName : list N) : nat :=
  default 0%nat (nodeOrderIndexOf nodes !! nodeName).

(** The comparator handed to [.nodeSort(...)], the same in
    SankeyChart.tsx and in [layoutColumns] of App.tsx. *)
Definition nodeSort (nodes : list Node.t) (a b : list N) : Q :=
  let diff := ofNat (getNodeSortOrder nodes a) - ofNat (getNodeSortOrder nodes b) in
  if negb (Qeq_bool diff 0) then diff else localeCompare a b.

End nodeSort.

(** ** App.tsx *)

Module ParentGroups.
Record t : Type := mk {
  parentByNode : gmap (list N) (list N);
  parentChildren : gmap (list N) (list (list N));
}.
End ParentGroups.

Module ParentScan.
(** The three maps the [parentGroups] memo fills while it walks the rows. *)
Record t : Type := mk {
  parentByNode : gmap (list N) (list N);
  parentChildren : gmap (list N) (list (list N));
  bestValue : gmap (list N) number;
}.

Definition empty : t := mk ∅ ∅ ∅.
End ParentScan.

(** A non-finite [currentPeriod] counts as 0 when parents are chosen. *)
Definition parentValue (row : Row.t) : number :=
  if Number.isFinite (Row.currentPeriod row) then Row.currentPeriod row else Num 0.

(** Body of the [rows.forEach] callback of [parentGroups]. *)
Definition parentStep (st : ParentScan.t) (row : Row.t) : ParentScan.t :=
  let source := trim (Row.source row) in
  let target := trim (Row.target row) in
  if negb (truthy source) || negb (truthy target) then st
  else
    let list := default [] (ParentScan.parentChildren st !! source) in
    let parentChildren :=
      if decide (target ∈ list) then ParentScan.parentChildren st
      else <[source := list ++ [target]]> (ParentScan.parentChildren st) in
    let currentValue := parentValue row in
    let replace :=
      match ParentScan.bestValue st !! target with
      | None => true
      | Some best => Number.gt currentValue best
      end in
    if replace
    then ParentScan.mk (<[target := source]> (ParentScan.parentByNode st)) parentChildren
           (<[target := currentValue]> (ParentScan.bestValue st))
    else ParentScan.mk (ParentScan.parentByNode st) parentChildren (ParentScan.bestValue st).

Definition parentScan (rows : list Row.t) : ParentScan.t :=
  foldl parentStep ParentScan.empty rows.

Definition parentGroups (rows : list Row.t) : ParentGroups.t :=
  let st := parentScan rows in
  ParentGroups.mk (ParentScan.parentByNode st) (ParentScan.parentChildren st).

Module ColumnItem.
Record t : Type := mk { name : list N; visualY : Q }.
End ColumnItem.

Module LayoutColumns.
Record t : Type := mk {
  columnByName : gmap (list N) Z;
  columns : gmap Z (list ColumnItem.t);
}.

Definition empty : t := mk ∅ ∅.
End LayoutColumns.

Inductive Direction : Type := up | down.

Section App.

Variable toLowerCase : list N → list N.
Variable localeCompare : list N → list N → Q.

(** The d3-sankey generator: configuration, node comparator, nodes and
    links in, laid-out nodes out. *)
Variable sankey :
  Sankey.config → (list N → list N → Q) → list Node.t → list Link.t → list GraphNode.t.

Definition columnKeyOf (node : GraphNode.t) : Z :=
  match GraphNode.layer node with
  | Some layer => layer
  | None => round (default 0 (GraphNode.x0 node) / 10)
  end.

(** Body of the [graph.nodes.forEach] callback of [layoutColumns]. *)
Definition placeNode (settings : Settings.t) (acc : LayoutColumns.t) (node : GraphNode.t)
  : LayoutColumns.t :=
  let columnKey := columnKeyOf node in
  let list := default [] (LayoutColumns.columns acc !! columnKey) in
  let offsetY :=
    default 0 (Settings.nodeSettings settings !! GraphNode.name node ≫= NodeSettings.offsetY) in
  let visualY := default 0 (GraphNode.y0 node) + offsetY in
  LayoutColumns.mk
    (<[GraphNode.name node := columnKey]> (LayoutColumns.columnByName acc))
    (<[columnKey := list ++ [ColumnItem.mk (GraphNode.name node) visualY]]>
       (LayoutColumns.columns acc)).

Definition compareVisual (a b : ColumnItem.t) : Q :=
  if negb (Qeq_bool (ColumnItem.visualY a) (ColumnItem.visualY b))
  then ColumnItem.visualY a - ColumnItem.visualY b
  else localeCompare (ColumnItem.name a) (ColumnItem.name b).

Definition layoutColumns (settings : Settings.t) (validRows : list Row.t) : LayoutColumns.t :=
  match validRows with
  | [] => LayoutColumns.empty
  | _ :: _ =>
      let g := prepareNodesAndLinks toLowerCase validRows in
      let graph :=
        sankey (sankeyConfig settings) (nodeSort localeCompare (Graph.nodes g))
          (Graph.nodes g) (Graph.links g) in
      let placed := foldl (placeNode settings) LayoutColumns.empty graph in
      LayoutColumns.mk (LayoutColumns.columnByName placed)
        (sortBy compareVisual <$> LayoutColumns.columns placed)
  end.

(** Rank of a sibling: its [childrenOrder] entry when there is one, its
    position in the column otherwise. *)
Definition siblingValue (childrenOrder : gmap (list N) Q)
    (fallbackIndex : gmap (list N) nat) (a : list N) : Q :=
  match childrenOrder !! a with
  | Some order => order
  | None => ofNat (default 0%nat (fallbackIndex !! a))
  end.

Definition compareSiblings (childrenOrder : gmap (list N) Q)
    (fallbackIndex : gmap (list N) nat) (a b : list N) : Q :=
  let aValue := siblingValue childrenOrder fallbackIndex a in
  let bValue := siblingValue childrenOrder fallbackIndex b in
  if negb (Qeq_bool aValue bValue) then aValue - bValue else localeCompare a b.

(** [parentGroups] is the value of [buildParentGroups(validRows)]. *)
Definition getSiblingOrder (settings : Settings.t) (validRows : list Row.t)
    (parentGroups : ParentGroups.t) (nodeName : list N)
  : option (list N * list (list N)) :=
  parent ← ParentGroups.parentByNode parentGroups !! nodeName;
  guard (truthy parent = true);;
  siblings ← ParentGroups.parentChildren parentGroups !! parent;
  guard (1 < length siblings)%nat;;
  let columns := layoutColumns settings validRows in
  columnKey ← LayoutColumns.columnByName columns !! nodeName;
  columnList ← LayoutColumns.columns columns !! columnKey;
  guard (1 < length columnList)%nat;;
  let siblingsInColumn :=
    filter (λ name, name ∈ siblings) (map ColumnItem.name columnList) in
  guard (1 < length siblingsInColumn)%nat;;
  let childrenOrder :=
    default ∅ (Settings.nodeSettings settings !! parent ≫= NodeSettings.childrenOrder) in
  let fallbackIndex := mapOfEntries (imap (λ index name, (name, index)) siblingsInColumn) in
  Some (parent, sortBy (compareSiblings childrenOrder fallbackIndex) siblingsInColumn).

(** [updatedOrder.forEach((name, index) => childrenOrder[name] = index)]. *)
Definition renumber (order : list (list N)) (childrenOrder : gmap (list N) Q)
  : gmap (list N) Q :=
  foldl (λ m entry, <[entry.2 := ofNat entry.1]> m) childrenOrder
    (imap (λ index name, (index, name)) order).

(** The update handed to [setSettings]: the ranks of [updatedOrder] are
    written into the [childrenOrder] of [parent]. *)
Definition persistOrder (parent : list N) (updatedOrder : list (list N))
    (prev : Settings.t) : Settings.t :=
  let next := Settings.nodeSettings prev in
  let parentSettings := default NodeSettings.empty (next !! parent) in
  let childrenOrder :=
    renumber updatedOrder (default ∅ (NodeSettings.childrenOrder parentSettings)) in
  Settings.withNodeSettings
    (<[parent := NodeSettings.withChildrenOrder childrenOrder parentSettings]> next) prev.

(** The new settings, or the old ones where the source returns without
    calling [setSettings]. *)
Definition moveNodeByDirection (settings : Settings.t) (validRows : list Row.t)
    (parentGroups : ParentGroups.t) (nodeName : list N) (direction : Direction)
  : Settings.t :=
  match getSiblingOrder settings validRows parentGroups nodeName with
  | None => settings
  | Some (parent, siblingOrder) =>
      match indexOf nodeName siblingOrder with
      | None => settings
      | Some idx =>
          let targetIdx : Z :=
            match direction with
            | up => (Z.of_nat idx - 1)%Z
            | down => (Z.of_nat idx + 1)%Z
            end in
          if (targetIdx <? 0)%Z || (Z.of_nat (length siblingOrder) <=? targetIdx)%Z
          then settings
          else
            match siblingOrder !! Z.to_nat targetIdx with
            | None => settings
            | Some swapWith =>
                let updatedOrder :=
                  <[idx := swapWith]> (<[Z.to_nat targetIdx := nodeName]> siblingOrder) in
                persistOrder parent updatedOrder settings
            end
      end
  end.

(** [getMoveAvailability]. *)
Definition getMoveAvailability (settings : Settings.t) (validRows : list Row.t)
    (parentGroups : ParentGroups.t) (nodeName : option (list N)) : bool * bool :=
  match nodeName with
  | None => (false, false)
  | Some nodeName =>
      if negb (truthy nodeName) then (false, false)
      else
        match getSiblingOrder settings validRows parentGroups nodeName with
        | None => (false, false)
        | Some (_, order) =>
            match indexOf nodeName order with
            | None => (false, false)
            | Some idx => (bool_decide (0 < idx)%nat, bool_decide (idx < length order - 1)%nat)
            end
        end
  end.

End App.

(** The migration of [loadSettingsFromStorage], from the point where the
    stored settings have been parsed and merged over the defaults
    ([mergedSettings]); [parentByNode] is the map that
    [buildParentGroups(rowsForMigration)] returns. *)
Section loadSettingsFromStorage.

Variable parentByNode : gmap (list N) (list N).

(** Body of the first [forEach]: file a legacy [orderY] under the parent. *)
Definition collectOrder (parentOrders : gmap (list N) (gmap (list N) Q))
    (entry : list N * NodeSettings.t) : gmap (list N) (gmap (list N) Q) :=
  let '(nodeName, nodeSettings) := entry in
  match NodeSettings.orderY nodeSettings with
  | None => parentOrders
  | Some orderY =>
      match parentByNode !! nodeName with
      | None => parentOrders
      | Some parent =>
          if truthy parent
          then <[parent := <[nodeName := orderY]> (default ∅ (parentOrders !! parent))]>
                 parentOrders
          else parentOrders
      end
  end.

(** Body of the inner [forEach]: fill an entry that is not a number yet. *)
Definition fillGap (mergedOrder : gmap (list N) Q) (entry : list N * Q) : gmap (list N) Q :=
  let '(childName, order) := entry in
  match mergedOrder !! childName with
  | Some _ => mergedOrder
  | None => <[childName := order]> mergedOrder
  end.

(** Body of [parentOrders.forEach]. *)
Definition mergeParent (nextNodeSettings : gmap (list N) NodeSettings.t)
    (entry : list N * gmap (list N) Q) : gmap (list N) NodeSettings.t :=
  let '(parentName, orderMap) := entry in
  let parentSettings := default NodeSettings.empty (nextNodeSettings !! parentName) in
  let mergedOrder :=
    foldl fillGap (default ∅ (NodeSettings.childrenOrder parentSettings))
      (map_to_list orderMap) in
  <[parentName := NodeSettings.withChildrenOrder mergedOrder parentSettings]> nextNodeSettings.

Definition parentOrdersOf (nodeSettings : gmap (list N) NodeSettings.t)
  : gmap (list N) (gmap (list N) Q) :=
  foldl collectOrder ∅ (map_to_list nodeSettings).

Definition loadSettingsFromStorage (mergedSettings : Settings.t) : Settings.t :=
  let parentOrders := parentOrdersOf (Settings.nodeSettings mergedSettings) in
  let nextNodeSettings :=
    foldl mergeParent (Settings.nodeSettings mergedSettings) (map_to_list parentOrders) in
  Settings.withNodeSettings nextNodeSettings mergedSettings.

End loadSettingsFromStorage.

(** ** SankeyChart.tsx *)

Module Offset.
Record t : Type := mk { x : Q; y : Q }.

End Offset.

Module DragOverride.
Record t : Type := mk { nodeName : list N; deltaX : Q; deltaY : Q }.
End DragOverride.

Module Box.
Record t : Type := mk { x0 : Q; x1 : Q; y0 : Q; y1 : Q; height : Q; centerY : Q }.
End Box.

Definition minNodeHeight : Q := 8.

Definition nodeScale (settings : Settings.t) : Q :=
  orDefault (Settings.linkWidthScale settings) 1.

Definition getRawOffset (settings : Settings.t) (nodeName : list N)
    (dragOverride : option DragOverride.t) : Offset.t :=
  let nodeSettings := getNodeSettings settings nodeName in
  let baseX := default 0 (NodeSettings.offsetX nodeSettings) in
  let baseY := default 0 (NodeSettings.offsetY nodeSettings) in
  match dragOverride with
  | Some drag =>
      if decide (DragOverride.nodeName drag = nodeName)
      then Offset.mk (baseX + DragOverride.deltaX drag) (baseY + DragOverride.deltaY drag)
      else Offset.mk baseX baseY
  | None => Offset.mk baseX baseY
  end.

Definition getScaledNodeBoxWithOffset (settings : Settings.t) (node : GraphNode.t)
    (offset : Offset.t) : Box.t :=
  let baseX0 := default 0 (GraphNode.x0 node) in
  let baseX1 := default 0 (GraphNode.x1 node) in
  let baseY0 := default 0 (GraphNode.y0 node) in
  let baseY1 := default 0 (GraphNode.y1 node) in
  let center := (baseY0 + baseY1) / 2 in
  let baseHeight := (baseY1 - baseY0) * nodeScale settings in
  let height := qmax minNodeHeight baseHeight in
  let y0 := center - height / 2 + Offset.y offset in
  let y1 := center + height / 2 + Offset.y offset in
  {| Box.x0 := baseX0 + Offset.x offset;
     Box.x1 := baseX1 + Offset.x offset;
     Box.y0 := y0;
     Box.y1 := y1;
     Box.height := height;
     Box.centerY := center + Offset.y offset |}.

(** [getClampedOffset] from the raw offset on. *)
Definition clampOffset (settings : Settings.t) (node : GraphNode.t) (raw : Offset.t) : Offset.t :=
  let width := canvasWidth settings in
  let height := canvasHeight settings in
  let box := getScaledNodeBoxWithOffset settings node raw in
  let clampedX := Offset.x raw in
  let clampedY := Offset.y raw in
  let clampedX :=
    if Number.Qlt_bool (Box.x0 box) Margin.left
    then clampedX + (Margin.left - Box.x0 box) else clampedX in
  let clampedX :=
    if Number.Qlt_bool (width - Margin.right) (Box.x1 box)
    then clampedX - (Box.x1 box - (width - Margin.right)) else clampedX in
  let clampedY :=
    if Number.Qlt_bool (Box.y0 box) Margin.top
    then clampedY + (Margin.top - Box.y0 box) else clampedY in
  let clampedY :=
    if Number.Qlt_bool (height - Margin.bottom) (Box.y1 box)
    then clampedY - (Box.y1 box - (height - Margin.bottom)) else clampedY in
  Offset.mk clampedX clampedY.

Definition getClampedOffset (settings : Settings.t) (node : GraphNode.t)
    (dragOverride : option DragOverride.t) : Offset.t :=
  clampOffset settings node (getRawOffset settings (GraphNode.name node) dragOverride).

(** [getScaledNodeBox]: the box a node is drawn with. *)
Definition getScaledNodeBox (settings : Settings.t) (node : GraphNode.t)
    (dragOverride : option DragOverride.t) : Box.t :=
  getScaledNodeBoxWithOffset settings node (getClampedOffset settings node dragOverride).

(** [handleNodeMove] of App.tsx: the offset a drag ends with is stored as
    it is. *)
Definition handleNodeMove (settings : Settings.t) (nodeName : list N) (offsetX offsetY : Q)
  : Settings.t :=
  Settings.withNodeSettings
    (<[nodeName := NodeSettings.withOffset (Some offsetX) (Some offsetY)
                     (getNodeSettings settings nodeName)]> (Settings.nodeSettings settings))
    settings.

(** [getFlowColor] of sankeyHelpers.ts and the colours it reads. *)
Module ColorSettings.
Record t : Type := mk {
  headerText : list N;
  revenueFlow : list N;
  adjacentRevenueFlow : list N;
  profitFlow : list N;
  expenseFlow : list N;
}.
End ColorSettings.

Definition getFlowColor (flowType : FlowType) (colors : ColorSettings.t) : list N :=
  match flowType with
  | revenue => ColorSettings.revenueFlow colors
  | adjacentRevenue => ColorSettings.adjacentRevenueFlow colors
  | profit => ColorSettings.profitFlow colors
  | expense => ColorSettings.expenseFlow colors
  end.

(** Truthiness of an optional string: it is there and not empty. *)
Definition truthyString (s : option (list N)) : bool :=
  match s with Some s => truthy s | None => false end.

(** The [stroke] of a link: [colors] is [settings.colors]. *)
Definition linkStroke (settings : Settings.t) (colors : ColorSettings.t)
    (sourceName targetName : list N) (flowType : FlowType) : list N :=
  let sourceSettings := getNodeSettings settings sourceName in
  let targetSettings := getNodeSettings settings targetName in
  let sourceColor := NodeSettings.color sourceSettings in
  let targetColor := NodeSettings.color targetSettings in
  if truthyString targetColor && default false (NodeSettings.linkColorPriority targetSettings)
  then default [] targetColor
  else if truthyString sourceColor
          && default false (NodeSettings.linkColorPriority sourceSettings)
  then default [] sourceColor
  else if truthyString sourceColor then default [] sourceColor
  else if truthyString targetColor then default [] targetColor
  else getFlowColor flowType colors.

(** [scaleLinkY]: where a link meets its node once the node is scaled
    and moved. *)
Definition scaleLinkY (settings : Settings.t) (node : GraphNode.t) (linkY : option Q)
    (dragOverride : option DragOverride.t) : Q :=
  let offset := getClampedOffset settings node dragOverride in
  let baseY0 := default 0 (GraphNode.y0 node) in
  let baseY1 := default 0 (GraphNode.y1 node) in
  let baseCenter := (baseY0 + baseY1) / 2 in
  let value := default baseCenter linkY in
  let scaled := baseCenter + (value - baseCenter) * nodeScale settings in
  scaled + Offset.y offset.

Module Point.
Record t : Type := mk { x : Q; y : Q }.
End Point.

(** A link as the layout returns it: its ends are the laid-out nodes. *)
Module GraphLink.
Record t : Type := mk {
  source : GraphNode.t;
  target : GraphNode.t;
  y0 : option Q;
  y1 : option Q;
}.
End GraphLink.

(** The cubic curve [M start C control1 control2 end] of a link. *)
Module Curve.
Record t : Type := mk {
  start : Point.t;
  control1 : Point.t;
  control2 : Point.t;
  finish : Point.t;
}.
End Curve.

Definition linkCurvature : Q := 45 # 100.

(** [d3.interpolateNumber(a, b)(t)]. *)
Definition interpolateNumber (a b t : Q) : Q := a * (1 - t) + b * t.

Definition linkPath (source target : Point.t) : Curve.t :=
  let x0 := Point.x source in
  let x1 := Point.x target in
  let y0 := Point.y source in
  let y1 := Point.y target in
  let x2 := interpolateNumber x0 x1 linkCurvature in
  let x3 := interpolateNumber x0 x1 (1 - linkCurvature) in
  {| Curve.start := Point.mk x0 y0;
     Curve.control1 := Point.mk x2 y0;
     Curve.control2 := Point.mk x3 y1;
     Curve.finish := Point.mk x1 y1 |}.

Definition buildLinkPath (settings : Settings.t) (link : GraphLink.t)
    (dragOverride : option DragOverride.t) : Curve.t :=
  let sourceNode := GraphLink.source link in
  let targetNode := GraphLink.target link in
  let sourceOffset := getClampedOffset settings sourceNode dragOverride in
  let targetOffset := getClampedOffset settings targetNode dragOverride in
  let sourcePoint :=
    Point.mk (default 0 (GraphNode.x1 sourceNode) + Offset.x sourceOffset)
      (scaleLinkY settings sourceNode (GraphLink.y0 link) dragOverride) in
  let targetPoint :=
    Point.mk (default 0 (GraphNode.x0 targetNode) + Offset.x targetOffset)
      (scaleLinkY settings targetNode (GraphLink.y1 link) dragOverride) in
  linkPath sourcePoint targetPoint.

(** The key of [linkOrderIndex]: the two names around [->]. *)
Definition linkKey (sourceName targetName : list N) : list N :=
  sourceName ++ js "->" ++ targetName.

Definition linkOrderIndexOf (validRows : list Row.t) : gmap (list N) nat :=
  mapOfEntries
    (imap (λ index row, (linkKey (trim (Row.source row)) (trim (Row.target row)), index))
       validRows).

(** [getLinkOrder]: the row position filed under the key, [Infinity]
    when there is none. *)
Definition getLinkOrder (validRows : list Row.t) (sourceName targetName : list N) : number :=
  match linkOrderIndexOf validRows !! linkKey sourceName targetName with
  | Some index => Num (ofNat index)
  | None => PosInfinity
  end.

(** ** App.tsx and NodeEditor.tsx: selection, node settings, images *)

Module Selection.
Record t : Type := mk {
  selectedNode : option (list N);
  selectedImageId : option (list N);
}.
End Selection.

Definition handleNodeSelect (nodeName : option (list N)) (sel : Selection.t) : Selection.t :=
  Selection.mk nodeName
    (if truthyString nodeName then None else Selection.selectedImageId sel).

Definition handleImageSelect (id : option (list N)) (sel : Selection.t) : Selection.t :=
  Selection.mk (if truthyString id then None else Selection.selectedNode sel) id.

Definition handleCloseNodeEditor (sel : Selection.t) : Selection.t :=
  Selection.mk None (Selection.selectedImageId sel).

(** [handleNodeSettingsChange]: the settings of one node are replaced. *)
Definition handleNodeSettingsChange (settings : Settings.t) (nodeName : list N)
    (nodeSettings : NodeSettings.t) : Settings.t :=
  Settings.withNodeSettings
    (<[nodeName := nodeSettings]> (Settings.nodeSettings settings)) settings.

(** [handleResetNodePosition]: both offsets become [undefined]. *)
Definition handleResetNodePosition (settings : Settings.t) (nodeName : list N) : Settings.t :=
  Settings.withNodeSettings
    (<[nodeName := NodeSettings.withOffset None None (getNodeSettings settings nodeName)]>
       (Settings.nodeSettings settings))
    settings.

(** The handlers of NodeEditor.tsx, each the object it hands to
    [onChange]. *)
Module NodeEditor.
Definition handleColorChange (settings : NodeSettings.t) (color : list N) : NodeSettings.t :=
  NodeSettings.mk (Some color) (NodeSettings.labelSize settings)
    (NodeSettings.valueSize settings) (NodeSettings.offsetX settings)
    (NodeSettings.offsetY settings) (NodeSettings.linkColorPriority settings)
    (NodeSettings.orderY settings) (NodeSettings.childrenOrder settings).

Definition handleClearColor (settings : NodeSettings.t) : NodeSettings.t :=
  NodeSettings.mk None (NodeSettings.labelSize settings)
    (NodeSettings.valueSize settings) (NodeSettings.offsetX settings)
    (NodeSettings.offsetY settings) (NodeSettings.linkColorPriority settings)
    (NodeSettings.orderY settings) (NodeSettings.childrenOrder settings).

Definition handleLinkPriorityChange (settings : NodeSettings.t) (checked : bool)
  : NodeSettings.t :=
  NodeSettings.mk (NodeSettings.color settings) (NodeSettings.labelSize settings)
    (NodeSettings.valueSize settings) (NodeSettings.offsetX settings)
    (NodeSettings.offsetY settings) (Some checked)
    (NodeSettings.orderY settings) (NodeSettings.childrenOrder settings).
End NodeEditor.

(** [Math.hypot(deltaX, deltaY) < 2], decided on the squares. *)
Definition isClick (deltaX deltaY : Q) : bool :=
  Number.Qlt_bool (deltaX * deltaX + deltaY * deltaY) 4.

(** The [end] handler of the node drag: a click toggles the selection,
    a drag stores the offset. *)
Definition nodeDragEnd (settings : Settings.t) (sel : Selection.t) (nodeName : list N)
    (deltaX deltaY : Q) : Settings.t * Selection.t :=
  let nodeSettings := getNodeSettings settings nodeName in
  let currentOffsetX := default 0 (NodeSettings.offsetX nodeSettings) in
  let currentOffsetY := default 0 (NodeSettings.offsetY nodeSettings) in
  if isClick deltaX deltaY
  then (settings,
        handleNodeSelect
          (if decide (Some nodeName = Selection.selectedNode sel) then None
           else Some nodeName) sel)
  else (handleNodeMove settings nodeName (currentOffsetX + deltaX) (currentOffsetY + deltaY),
        sel).

Module PlacedImage.
Record t : Type := mk {
  id : list N;
  src : list N;
  x : Q;
  y : Q;
  width : Q;
  height : Q;
}.
End PlacedImage.

(** The updates the chart sends to [onImageUpdate]. *)
Module ImageUpdate.
Record t : Type := mk {
  x : option Q;
  y : option Q;
  width : option Q;
  height : option Q;
}.

(** [{ ...image, ...updates }]. *)
Definition apply (updates : t) (image : PlacedImage.t) : PlacedImage.t :=
  PlacedImage.mk (PlacedImage.id image) (PlacedImage.src image)
    (default (PlacedImage.x image) (x updates))
    (default (PlacedImage.y image) (y updates))
    (default (PlacedImage.width image) (width updates))
    (default (PlacedImage.height image) (height updates)).
End ImageUpdate.

(** The image handlers, on [settings.images] and the selection. *)
Definition handleImageAdd (images : list PlacedImage.t) (sel : Selection.t)
    (image : PlacedImage.t) : list PlacedImage.t * Selection.t :=
  (images ++ [image], Selection.mk (Selection.selectedNode sel) (Some (PlacedImage.id image))).

Definition handleImageUpdate (images : list PlacedImage.t) (id : list N)
    (updates : ImageUpdate.t) : list PlacedImage.t :=
  map (λ image, if decide (PlacedImage.id image = id) then ImageUpdate.apply updates image
                else image) images.

Definition handleImageRemove (images : list PlacedImage.t) (sel : Selection.t) (id : list N)
  : list PlacedImage.t * Selection.t :=
  (filter (λ image, PlacedImage.id image ≠ id) images,
   if decide (Selection.selectedImageId sel = Some id)
   then Selection.mk (Selection.selectedNode sel) None else sel).

(** What an image drag remembers from its start. *)
Module ImageDrag.
Record t : Type := mk { id : list N; x : Q; y : Q }.
End ImageDrag.

Definition imageDragEnd (images : list PlacedImage.t) (sel : Selection.t)
    (drag : ImageDrag.t) (deltaX deltaY : Q) : list PlacedImage.t * Selection.t :=
  let nextX := ImageDrag.x drag + deltaX in
  let nextY := ImageDrag.y drag + deltaY in
  if isClick deltaX deltaY
  then (images, handleImageSelect (Some (ImageDrag.id drag)) sel)
  else (handleImageUpdate images (ImageDrag.id drag)
          (ImageUpdate.mk (Some nextX) (Some nextY) None None), sel).

(** What a resize remembers from its start. *)
Module ImageResize.
Record t : Type := mk { id : list N; width : Q; height : Q }.
End ImageResize.

Definition imageResizeEnd (images : list PlacedImage.t) (resize : ImageResize.t)
    (deltaX deltaY : Q) : list PlacedImage.t :=
  let nextWidth := qmax 30 (ImageResize.width resize + deltaX) in
  let nextHeight := qmax 30 (ImageResize.height resize + deltaY) in
  handleImageUpdate images (ImageResize.id resize)
    (ImageUpdate.mk None None (Some nextWidth) (Some nextHeight)).

(** The clicks of the chart: on a node, on an image, on the canvas. *)
Definition nodeClick (name : list N) (sel : Selection.t) : Selection.t :=
  handleNodeSelect
    (if decide (Some name = Selection.selectedNode sel) then None else Some name) sel.

Definition imageClick (id : list N) (sel : Selection.t) : Selection.t :=
  handleImageSelect (Some id) sel.

Definition canvasClick (sel : Selection.t) : Selection.t :=
  handleNodeSelect None (handleImageSelect None sel).

(** ** App.tsx: rows in local storage *)

(** A value as [JSON.parse] returns it. *)
#[warnings="-register-all"] Inductive json : Type :=
  | JNull
  | JBool (b : bool)
  | JNumber (x : number)
  | JString (s : list N)
  | JArray (items : list json)
  | JObject (fields : list (list N * json)).

(** [value.key]: a member of an object, the last one of that name, and
    [undefined] on anything else. *)
Definition member (key : list N) (value : json) : option json :=
  match value with
  | JObject fields => mapOfEntries fields !! key
  | _ => None
  end.

Definition jsonTruthy (value : json) : bool :=
  match value with
  | JNull => false
  | JBool b => b
  | JNumber (Num q) => negb (Qeq_bool q 0)
  | JNumber NaN => false
  | JNumber _ => true
  | JString s => truthy s
  | JArray _ | JObject _ => true
  end.

(** [typeof value.key === 'string']. *)
Definition stringMember (key : list N) (value : json) : option (list N) :=
  match member key value with
  | Some (JString s) => Some s
  | _ => None
  end.

(** [typeof value.key === 'number']. *)
Definition numberMember (key : list N) (value : json) : option number :=
  match member key value with
  | Some (JNumber x) => Some x
  | _ => None
  end.

(** The test of the [filter] in [loadRowsFromStorage]. *)
Definition isStoredRow (row : json) : bool :=
  jsonTruthy row
  && bool_decide (is_Some (stringMember (js "id") row))
  && bool_decide (is_Some (stringMember (js "source") row))
  && bool_decide (is_Some (stringMember (js "target") row))
  && bool_decide (is_Some (numberMember (js "currentPeriod") row))
  && bool_decide (is_Some (numberMember (js "previousPeriod") row)).

(** The five fields of a stored row, read as a [FlowRow]. *)
Definition rowOfJson (row : json) : option Row.t :=
  id ← stringMember (js "id") row;
  source ← stringMember (js "source") row;
  target ← stringMember (js "target") row;
  currentPeriod ← numberMember (js "currentPeriod") row;
  previousPeriod ← numberMember (js "previousPeriod") row;
  Some (Row.mk id source target currentPeriod previousPeriod).

Definition sampleRow (id source target : list N) (current previous : Q) : Row.t :=
  Row.mk id source target (Num current) (Num previous).

Definition sampleData : list Row.t :=
  [sampleRow (js "row-1") (js "Выручка от реализации") (js "Себестоимость")
     (1505 # 10) (1402 # 10);
   sampleRow (js "row-2") (js "Выручка от реализации") (js "Валовая прибыль")
     (893 # 10) (821 # 10);
   sampleRow (js "row-3") (js "Прочие доходы") (js "Валовая прибыль")
     (124 # 10) (108 # 10);
   sampleRow (js "row-4") (js "Валовая прибыль") (js "Коммерческие расходы")
     (256 # 10) (234 # 10);
   sampleRow (js "row-5") (js "Валовая прибыль") (js "Управленческие расходы")
     (182 # 10) (171 # 10);
   sampleRow (js "row-6") (js "Валовая прибыль") (js "EBITDA") (579 # 10) (524 # 10);
   sampleRow (js "row-7") (js "EBITDA") (js "Амортизация") (153 # 10) (142 # 10);
   sampleRow (js "row-8") (js "EBITDA") (js "Чистая прибыль") (426 # 10) (382 # 10)].

(** [loadRowsFromStorage], from the parsed text on: [None] when nothing
    is stored under the key or [JSON.parse] throws. *)
Definition loadRowsFromStorage (parsedRows : option json) : list Row.t :=
  match parsedRows with
  | Some (JArray items) =>
      let validRows := filter (λ row, isStoredRow row = true) items in
      if bool_decide (0 < length validRows)%nat then omap rowOfJson validRows
      else sampleData
  | _ => sampleData
  end.

(** What [JSON.parse] reads back from the [JSON.stringify(rows)] that the
    persistence effect writes: a number that is not finite is written as
    [null]. *)
Definition jsonOfNumber (x : number) : json :=
  if Number.isFinite x then JNumber x else JNull.

Definition jsonOfRow (row : Row.t) : json :=
  JObject
    [(js "id", JString (Row.id row));
     (js "source", JString (Row.source row));
     (js "target", JString (Row.target row));
     (js "currentPeriod", jsonOfNumber (Row.currentPeriod row));
     (js "previousPeriod", jsonOfNumber (Row.previousPeriod row))].

Definition savedRows (rows : list Row.t) : json := JArray (map jsonOfRow rows).

(** ** DataTable.tsx *)

Module DataTable.

(** [addRow]; [now] is the text of [Date.now()]. *)
Definition addRow (now : list N) (rows : list Row.t) : list Row.t :=
  rows ++ [Row.mk (js "row-" ++ now) [] [] (Num 0) (Num 0)].

Definition removeRow (id : list N) (rows : list Row.t) : list Row.t :=
  filter (λ row, Row.id row ≠ id) rows.

End DataTable.

(** [String.prototype.split] with a separator of one code unit. *)
Fixpoint splitOn (separator : N) (s : list N) : list (list N) :=
  match s with
  | [] => [[]]
  | c :: s' =>
      if (c =? separator)%N then [] :: splitOn separator s'
      else
        match splitOn separator s' with
        | [] => [[c]]
        | first :: rest => (c :: first) :: rest
        end
  end.

(** [s.replace(from, to)] for single code units: the first occurrence
    is replaced. *)
Fixpoint replaceFirst (from to : N) (s : list N) : list N :=
  match s with
  | [] => []
  | c :: s' => if (c =? from)%N then to :: s' else c :: replaceFirst from to s'
  end.

(** [x || 0] on a number: zero and NaN give 0. *)
Definition orZero (x : number) : number :=
  match x with
  | NaN => Num 0
  | Num q => if Qeq_bool q 0 then Num 0 else Num q
  | _ => x
  end.

Section handlePaste.

(** [parseFloat], a built-in of the host. *)
Variable parseFloat : list N → number.

(** [parseFloat(cell?.replace(',', '.') || '0') || 0]. *)
Definition pastedNumber (cell : option (list N)) : number :=
  let text :=
    match cell with
    | Some cell => if truthy (replaceFirst 44 46 cell) then replaceFirst 44 46 cell else js "0"
    | None => js "0"
    end in
  orZero (parseFloat text).

(** The row made from one pasted line; [now] is the text of
    [Date.now()]. *)
Definition pastedRow (now : list N) (index : nat) (line : list N) : Row.t :=
  let cells := splitOn 9 line in
  {| Row.id := js "row-" ++ now ++ js "-" ++ js (pretty index);
     Row.source := default [] (trim <$> cells !! 0%nat);
     Row.target := default [] (trim <$> cells !! 1%nat);
     Row.currentPeriod := pastedNumber (cells !! 2%nat);
     Row.previousPeriod := pastedNumber (cells !! 3%nat) |}.

(** [handlePaste]: the new table, or [None] when the paste is left to
    the browser. *)
Definition handlePaste (now pastedData : list N) (rows : list Row.t) : option (list Row.t) :=
  let lines := splitOn 10 (trim pastedData) in
  if bool_decide (1 < length lines)%nat || includes (default [] (head lines)) [9%N]
  then Some (filter (λ r, truthy (Row.source r) || truthy (Row.target r) = true) rows
             ++ imap (pastedRow now) lines)
  else None.

End handlePaste.

(** ** App.tsx: automatic layout *)

Section handleAutoLayout.

Variable toLowerCase : list N → list N.
Variable localeCompare : list N → list N → Q.

(** The d3-sankey generator as [handleAutoLayout] configures it, without
    a node comparator. *)
Variable sankeyUnsorted : Sankey.config → list Node.t → list Link.t → list GraphNode.t.

Definition centerOf (node : GraphNode.t) : Q :=
  (default 0 (GraphNode.y0 node) + default 0 (GraphNode.y1 node)) / 2.

Definition compareCenters (a b : GraphNode.t) : Q :=
  if negb (Qeq_bool (centerOf a) (centerOf b)) then centerOf a - centerOf b
  else localeCompare (GraphNode.name a) (GraphNode.name b).

(** Body of [graph.nodes.forEach]: both offsets of the node become 0. *)
Definition resetOffsets (settings : Settings.t) (updates : gmap (list N) NodeSettings.t)
    (node : GraphNode.t) : gmap (list N) NodeSettings.t :=
  <[GraphNode.name node :=
      NodeSettings.withOffset (Some 0) (Some 0)
        (getNodeSettings settings (GraphNode.name node))]> updates.

(** The ranks [handleAutoLayout] gives the children of one parent: their
    positions when the laid-out ones are sorted by vertical centre. *)
Definition centerOrder (nodeByName : gmap (list N) GraphNode.t) (children : list (list N))
  : gmap (list N) Q :=
  let ordered := sortBy compareCenters (omap (λ name, nodeByName !! name) children) in
  renumber (map GraphNode.name ordered) ∅.

(** Body of [parentGroups.parentChildren.forEach]. *)
Definition orderChildren (settings : Settings.t) (nodeByName : gmap (list N) GraphNode.t)
    (updates : gmap (list N) NodeSettings.t) (entry : list N * list (list N))
  : gmap (list N) NodeSettings.t :=
  let '(parent, children) := entry in
  <[parent :=
      NodeSettings.withChildrenOrder (centerOrder nodeByName children)
        (default (getNodeSettings settings parent) (updates !! parent))]> updates.

(** The graph [handleAutoLayout] lays out. *)
Definition autoLayoutGraph (settings : Settings.t) (validRows : list Row.t)
  : list GraphNode.t :=
  let g := prepareNodesAndLinks toLowerCase validRows in
  sankeyUnsorted (sankeyConfig settings) (Graph.nodes g) (Graph.links g).

(** The new settings, or the old ones where the source returns at once;
    [parentGroups] is the value of [buildParentGroups(validRows)]. Each
    parent is updated once, so the order in which the parents are
    visited plays no part. *)
Definition handleAutoLayout (settings : Settings.t) (validRows : list Row.t)
    (parentGroups : ParentGroups.t) : Settings.t :=
  match validRows with
  | [] => settings
  | _ :: _ =>
      let graph := autoLayoutGraph settings validRows in
      let nodeByName := mapOfEntries (map (λ node, (GraphNode.name node, node)) graph) in
      let updates := foldl (resetOffsets settings) ∅ graph in
      let updates :=
        foldl (orderChildren settings nodeByName) updates
          (map_to_list (ParentGroups.parentChildren parentGroups)) in
      Settings.withNodeSettings (updates ∪ Settings.nodeSettings settings) settings
  end.

End handleAutoLayout.

(** ** App.tsx, first revision: the order of a column is kept in [orderY] *)

Module V1.

(** [{ ...settings, orderY }]. *)
Definition withOrderY (orderY : Q) (ns : NodeSettings.t) : NodeSettings.t :=
  NodeSettings.mk (NodeSettings.color ns) (NodeSettings.labelSize ns)
    (NodeSettings.valueSize ns) (NodeSettings.offsetX ns) (NodeSettings.offsetY ns)
    (NodeSettings.linkColorPriority ns) (Some orderY) (NodeSettings.childrenOrder ns).

(** [updatedColumnOrder.forEach((name, index) => next[name] =
    { ...next[name], orderY: index })]. *)
Definition renumberColumn (order : list (list N)) (next : gmap (list N) NodeSettings.t)
  : gmap (list N) NodeSettings.t :=
  foldl (λ m entry,
           <[entry.2 := withOrderY (ofNat entry.1) (default NodeSettings.empty (m !! entry.2))]>
             m)
    next (imap (λ index name, (index, name)) order).

Section App.

Variable toLowerCase : list N → list N.
Variable localeCompare : list N → list N → Q.
Variable sankey :
  Sankey.config → (list N → list N → Q) → list Node.t → list Link.t → list GraphNode.t.

(** [getOrder]: the stored [orderY] when it is a number, the first-seen
    position otherwise. *)
Definition getOrder (settings : Settings.t) (nodes : list Node.t) (nodeName : list N) : Q :=
  match Settings.nodeSettings settings !! nodeName ≫= NodeSettings.orderY with
  | Some stored => stored
  | None => ofNat (getNodeSortOrder nodes nodeName)
  end.

(** The comparator handed to [.nodeSort(...)]. *)
Definition nodeSort (settings : Settings.t) (nodes : list Node.t) (a b : list N) : Q :=
  let diff := getOrder settings nodes a - getOrder settings nodes b in
  if negb (Qeq_bool diff 0) then diff else localeCompare a b.

Definition layoutColumns (settings : Settings.t) (rows : list Row.t) : LayoutColumns.t :=
  match validRowsOf rows with
  | [] => LayoutColumns.empty
  | validRows =>
      let g := prepareNodesAndLinks toLowerCase validRows in
      let graph :=
        sankey (sankeyConfig settings) (nodeSort settings (Graph.nodes g))
          (Graph.nodes g) (Graph.links g) in
      let placed := foldl (placeNode settings) LayoutColumns.empty graph in
      LayoutColumns.mk (LayoutColumns.columnByName placed)
        (sortBy (compareVisual localeCompare) <$> LayoutColumns.columns placed)
  end.

(** The new settings, or the old ones where the source returns without
    calling [setSettings]. *)
Definition moveNodeByDirection (settings : Settings.t) (rows : list Row.t)
    (parentGroups : ParentGroups.t) (nodeName : list N) (direction : Direction)
  : Settings.t :=
  let moved :=
    parent ← ParentGroups.parentByNode parentGroups !! nodeName;
    guard (truthy parent = true);;
    siblings ← ParentGroups.parentChildren parentGroups !! parent;
    guard (1 < length siblings)%nat;;
    columnKey ← LayoutColumns.columnByName (layoutColumns settings rows) !! nodeName;
    columnList ← LayoutColumns.columns (layoutColumns settings rows) !! columnKey;
    guard (1 < length columnList)%nat;;
    let columnOrder := map ColumnItem.name columnList in
    let siblingOrder := filter (λ name, name ∈ siblings) columnOrder in
    idx ← indexOf nodeName siblingOrder;
    let targetIdx : Z :=
      match direction with
      | up => (Z.of_nat idx - 1)%Z
      | down => (Z.of_nat idx + 1)%Z
      end in
    guard (¬ (targetIdx < 0 ∨ Z.of_nat (length siblingOrder) ≤ targetIdx)%Z);;
    swapWith ← siblingOrder !! Z.to_nat targetIdx;
    indexA ← indexOf nodeName columnOrder;
    indexB ← indexOf swapWith columnOrder;
    let updatedColumnOrder := <[indexB := nodeName]> (<[indexA := swapWith]> columnOrder) in
    Some (Settings.withNodeSettings
            (renumberColumn updatedColumnOrder (Settings.nodeSettings settings)) settings) in
  default settings moved.

End App.

End V1.

(** ** Vocabulary of the statements and sample data *)

Definition flow (source target : list N) (current previous : Q) : Row.t :=
  Row.mk [] source target (Num current) (Num previous).


(** [(A→B, 10, 8), (A→C, 5, 5)]. *)
Definition fanOutRows : list Row.t :=
  [flow (js "A") (js "B") 10 8; flow (js "A") (js "C") 5 5].






(** The non-empty trimmed names of the rows, source before target, row
    after row: the order in which names are seen. *)
Definition endpointsOf (rows : list Row.t) : list (list N) :=
  rows ≫= λ row,
    filter (λ name, truthy name = true) [trim (Row.source row); trim (Row.target row)].

(** [a] is first met before [b] in [l]. *)
Definition firstSeenBefore (l : list (list N)) (a b : list N) : Prop :=
  ∃ i j, indexOf a l = Some i ∧ indexOf b l = Some j ∧ (i < j)%nat.


(** Two rows for the same pair of nodes, then a third. *)
Definition parallelRows : list Row.t :=
  [flow (js "A") (js "B") 10 8; flow (js "A") (js "B") 3 2; flow (js "B") (js "C") 4 1].


(** One valid row among rows with a zero amount, a blank source, a NaN
    and a negative amount. *)
Definition mixedRows : list Row.t :=
  [flow (js "A") (js "B") 10 8;
   flow (js "C") (js "D") 0 0;
   flow (js "  ") (js "E") 5 5;
   Row.mk [] (js "F") (js "G") NaN (Num 1);
   flow (js "H") (js "I") (-2) 1].

(** [row] is an incoming row of [node] for the parent scan: both trimmed
    names are non-empty and the target is [node]. *)
Definition feeds (row : Row.t) (node : list N) : Prop :=
  truthy (trim (Row.source row)) = true ∧ truthy (trim (Row.target row)) = true
  ∧ trim (Row.target row) = node.

(** [parent] is the source of the first incoming row of [node] that no
    incoming row exceeds in [value]: every incoming row is at most as
    large and every earlier one is strictly smaller. *)
Definition dominantBy (value : Row.t → number) (rows : list Row.t)
    (node parent : list N) : Prop :=
  ∃ i row,
    rows !! i = Some row ∧ feeds row node ∧ trim (Row.source row) = parent
    ∧ ∀ j other, rows !! j = Some other → feeds other node →
        Number.gt (value other) (value row) = false
        ∧ ((j < i)%nat → Number.gt (value row) (value other) = true).

(** What the parent scan holds for each node after [rows]. *)
Definition parentScanFor (rows : list Row.t) (st : ParentScan.t) : Prop :=
  ∀ node,
    match ParentScan.bestValue st !! node with
    | None =>
        ParentScan.parentByNode st !! node = None ∧ ∀ row, row ∈ rows → ¬ feeds row node
    | Some best =>
        ∃ i row,
          rows !! i = Some row ∧ feeds row node ∧ parentValue row = best
          ∧ ParentScan.parentByNode st !! node = Some (trim (Row.source row))
          ∧ ∀ j other, rows !! j = Some other → feeds other node →
              Number.gt (parentValue other) best = false
              ∧ ((j < i)%nat → Number.gt best (parentValue other) = true)
    end.

(** An infinite amount into X from A, a finite one from B. *)
Definition infiniteRows : list Row.t :=
  [Row.mk [] (js "A") (js "X") PosInfinity (Num 0); flow (js "B") (js "X") 5 0].

(** Two rows tie on the amount into X, a smaller one comes first. *)
Definition tiedRows : list Row.t :=
  [flow (js "A") (js "X") 3 0; flow (js "B") (js "X") 7 0; flow (js "C") (js "X") 7 0].

(** Does [row] take over as the best incoming row of its target? *)
Definition takesOver (st : ParentScan.t) (row : Row.t) : bool :=
  match ParentScan.bestValue st !! trim (Row.target row) with
  | None => true
  | Some best => Number.gt (parentValue row) best
  end.


(** The sibling rank a parent's [childrenOrder] gives a node. *)
Definition rankUnder (settings : Settings.t) (parent name : list N) : option Q :=
  parentSettings ← Settings.nodeSettings settings !! parent;
  childrenOrder ← NodeSettings.childrenOrder parentSettings;
  childrenOrder !! name.

(** Comparison by code units, standing in for [localeCompare] where a
    concrete comparison is needed. *)
Definition compareByUnits (a b : list N) : Q := inject_Z (compareUnits a b).

(** P feeds A and B. *)
Definition siblingRows : list Row.t :=
  [flow (js "P") (js "A") 10 8; flow (js "P") (js "B") 5 4].

Definition defaultSettings : Settings.t :=
  Settings.mk 12 11 20 1 1200 700 ∅.






(** A node 100 high. *)
Definition shortNode : GraphNode.t :=
  GraphNode.mk (js "A") (Some 250) (Some 270) (Some 80) (Some 180) (Some 0%Z).

(** The rank a legacy [orderY] gives [child] under [parent]: the node has
    a numeric [orderY] and [parent] is its dominant parent. *)
Definition legacyRank (parentByNode : gmap (list N) (list N))
    (nodeSettings : gmap (list N) NodeSettings.t) (parent child : list N) : option Q :=
  childSettings ← nodeSettings !! child;
  orderY ← NodeSettings.orderY childSettings;
  dominant ← parentByNode !! child;
  if decide (dominant = parent ∧ truthy dominant = true) then Some orderY else None.

(** Stored settings from before [childrenOrder]: A and B carry [orderY],
    P already ranks A. *)
Definition legacySettings : Settings.t :=
  Settings.withNodeSettings
    (<[js "A" := NodeSettings.mk None None None None None None (Some 1) None]>
       (<[js "B" := NodeSettings.mk None None None None None None (Some 0) None]>
          (<[js "P" := NodeSettings.withChildrenOrder (<[js "A" := 5]> ∅) NodeSettings.empty]>
             ∅)))
    defaultSettings.

(** The siblings of a node that stand in its column, in column order:
    the list [getSiblingOrder] sorts. *)
Definition siblingsInColumn (siblings : list (list N)) (columnList : list ColumnItem.t)
  : list (list N) :=
  filter (λ name, name ∈ siblings) (map ColumnItem.name columnList).

(** [updated] is [order] with the entries at [i] and [j] exchanged. *)
Definition swapped (order updated : list (list N)) (i j : nat) : Prop :=
  length updated = length order
  ∧ updated !! i = order !! j ∧ updated !! j = order !! i
  ∧ ∀ k, k ≠ i → k ≠ j → updated !! k = order !! k.

(** A stand-in for the layout generator: sources in layer 0, every other
    node in layer 1, nodes 100 apart from top to bottom in the order
    given. *)
Definition twoLayerLayout (config : Sankey.config) (compare : list N → list N → Q)
    (nodes : list Node.t) (links : list Link.t) : list GraphNode.t :=
  imap (λ index node,
          let isTarget := bool_decide (Some index ∈ map Link.target links) in
          let x := if isTarget then 930 else 250 in
          let y := 80 + 100 * ofNat index in
          GraphNode.mk (Node.name node) (Some x) (Some (x + Sankey.nodeWidth config))
            (Some y) (Some (y + 50)) (Some (if isTarget then 1%Z else 0%Z)))
       nodes.

(** P feeds A, B and C. *)
Definition threeSiblings : list Row.t :=
  [flow (js "P") (js "A") 10 8; flow (js "P") (js "B") 5 4; flow (js "P") (js "C") 3 3].

(** A red node A and a blue node B, each with the link-colour switch
    on. *)
Definition colouredSettings : Settings.t :=
  handleNodeSettingsChange
    (handleNodeSettingsChange defaultSettings (js "A")
       (NodeSettings.mk (Some (js "#ff0000")) None None None None (Some true) None None))
    (js "B")
    (NodeSettings.mk (Some (js "#0000ff")) None None None None (Some true) None None).

Definition defaultColors : ColorSettings.t :=
  ColorSettings.mk (js "#1a237e") (js "#4caf50") (js "#8bc34a") (js "#2196f3") (js "#ff9800").




(** The state the selection and image handlers of App.tsx work on. *)
Definition UiState : Type := list PlacedImage.t * Selection.t.

(** The calls that reach those handlers: from the chart (clicks, the end
    of an image drag or resize), from the node editor and from the image
    manager. *)
Inductive UiEvent : Type :=
  | NodeSelect (nodeName : option (list N))
  | ImageSelect (id : option (list N))
  | CloseNodeEditor
  | ImageAdd (image : PlacedImage.t)
  | ImageChange (id : list N) (updates : ImageUpdate.t)
  | ImageRemove (id : list N)
  | NodeClick (name : list N)
  | ImageClick (id : list N)
  | CanvasClick
  | ImageDragEnd (drag : ImageDrag.t) (deltaX deltaY : Q)
  | ImageResizeEnd (resize : ImageResize.t) (deltaX deltaY : Q).

Definition uiStep (st : UiState) (event : UiEvent) : UiState :=
  let '(images, sel) := st in
  match event with
  | NodeSelect nodeName => (images, handleNodeSelect nodeName sel)
  | ImageSelect id => (images, handleImageSelect id sel)
  | CloseNodeEditor => (images, handleCloseNodeEditor sel)
  | ImageAdd image => handleImageAdd images sel image
  | ImageChange id updates => (handleImageUpdate images id updates, sel)
  | ImageRemove id => handleImageRemove images sel id
  | NodeClick name => (images, nodeClick name sel)
  | ImageClick id => (images, imageClick id sel)
  | CanvasClick => (images, canvasClick sel)
  | ImageDragEnd drag deltaX deltaY => imageDragEnd images sel drag deltaX deltaY
  | ImageResizeEnd resize deltaX deltaY => (imageResizeEnd images resize deltaX deltaY, sel)
  end.

Definition isImageAdd (event : UiEvent) : bool :=
  match event with ImageAdd _ => true | _ => false end.

(** Not both a node and an image are selected; an empty name or id
    selects nothing. *)
Definition exclusive (sel : Selection.t) : Prop :=
  truthyString (Selection.selectedNode sel)
  && truthyString (Selection.selectedImageId sel) = false.

Definition sampleImage : PlacedImage.t :=
  PlacedImage.mk (js "image-1") (js "data:image/png;base64,AAAA") 100 120 200 80.

(** The name does not contain the arrow [->] that [linkOrderIndex] puts
    between the two names of a key. *)
Definition arrowFree (name : list N) : Prop := ¬ Contains name (js "->").

(** Both rows join the same pair of nodes. *)
Definition samePair (a b : Row.t) : Prop :=
  trim (Row.source a) = trim (Row.source b) ∧ trim (Row.target a) = trim (Row.target b).

(** Two different pairs of names with the same key. *)
Definition arrowRows : list Row.t :=
  [flow (js "A->B") (js "C") 10 8; flow (js "A") (js "B->C") 5 4].

(** A row survives a save and a load when both its amounts are finite:
    the others are written with [null] for a number. *)
Definition survivesReload (row : Row.t) : bool :=
  Number.isFinite (Row.currentPeriod row) && Number.isFinite (Row.previousPeriod row).

(** Rows of which one has an infinite amount. *)
Definition pastedRows : list Row.t :=
  [Row.mk (js "row-1") (js "A") (js "B") (Num 10) (Num 8);
   Row.mk (js "row-2") (js "B") (js "C") PosInfinity (Num 1)].


(** The amount a finite number stands for. *)
Definition amount (x : number) : Q :=
  match x with Num q => q | _ => 0 end.


(** What the nodes take in beyond what they give out, summed. *)
Definition surplus (incoming outgoing : NodeBalance.t → number)
    (nodes : list NodeBalance.t) : Q :=
  foldr (λ node acc, amount (incoming node) - amount (outgoing node) + acc) 0 nodes.



(** A passes ten to B, B passes on nine and a half. *)
Definition shortRows : list Row.t :=
  [flow (js "A") (js "B") 10 8; flow (js "B") (js "C") (19 # 2) 8].


(** A stand-in for the generator without comparator: [twoLayerLayout]. *)
Definition twoLayerUnsorted (config : Sankey.config) (nodes : list Node.t)
    (links : list Link.t) : list GraphNode.t :=
  twoLayerLayout config (λ _ _, 0) nodes links.

(** Settings in which B was dragged and P is red. *)
Definition draggedSettings : Settings.t :=
  handleNodeSettingsChange (handleNodeMove defaultSettings (js "B") 40 (-25)) (js "P")
    (NodeEditor.handleColorChange NodeSettings.empty (js "#ff0000")).

(** The string does not start with white space. *)
Definition noLeadingSpace (s : list N) : Prop :=
  match s with
  | [] => True
  | c :: _ => isWhiteSpace c = false
  end.

(** A stand-in for [parseFloat] that knows two texts. *)
Definition parseTwoTexts (text : list N) : number :=
  if decide (text = js "1.5") then Num (3 # 2)
  else if decide (text = js "Infinity") then PosInfinity
  else NaN.

(** The trimmed targets of the rows that leave [parent] with both names
    given, row after row. *)
Definition targetsOf (parent : list N) (rows : list Row.t) : list (list N) :=
  map (λ row, trim (Row.target row))
    (filter (λ row, feeds row (trim (Row.target row)) ∧ trim (Row.source row) = parent) rows).

(** P feeds C little, Q feeds C much. *)
Definition sharedChildRows : list Row.t :=
  [flow (js "P") (js "A") 10 8; flow (js "P") (js "C") 1 1; flow (js "Q") (js "C") 9 9].



(** A row from A to itself between two rows of a chain, and a row the
    check skips. *)
Definition loopRows : list Row.t :=
  [flow (js "A") (js "B") 10 8; flow (js "A") (js "A") 2 1;
   Row.mk (js "3") (js "B") (js "C") NaN (Num 1); flow (js "B") (js "A") 4 3].

(** * Properties *)

(** ** Strings *)

Lemma startsWith_spec (s needle : list N) :
  startsWith s needle = true ↔ ∃ post, s = needle ++ post.
Proof.
  revert s. induction needle as [|n needle IH]; intros s.
  - split; [intros _; by exists s | by destruct s].
  - destruct s as [|c s]; simpl.
    + split; [done | intros [post Hpost]; discriminate].
    + rewrite andb_true_iff, N.eqb_eq, IH. split.
      * intros [-> [post ->]]. by exists post.
      * intros [post Hpost]. injection Hpost as -> ->. eauto.
Qed.

Lemma includes_spec (s needle : list N) :
  includes s needle = true ↔ Contains s needle.
Proof.
  unfold Contains. induction s as [|c s IH].
  - cbn [includes]. rewrite orb_false_r, startsWith_spec. split.
    + intros [post Hpost]. by exists [], post.
    + intros (pre & post & Heq). symmetry in Heq.
      apply app_eq_nil in Heq as [-> Heq]. apply app_eq_nil in Heq as [-> ->].
      by exists [].
  - cbn [includes]. rewrite orb_true_iff, startsWith_spec, IH. split.
    + intros [[post Hpost] | (pre & post & Hs)].
      * by exists [], post.
      * exists (c :: pre), post. by rewrite Hs.
    + intros ([|c' pre] & post & Heq).
      * left. by exists post.
      * right. injection Heq as -> ->. by exists pre, post.
Qed.

Lemma includes_false (s needle : list N) :
  includes s needle = false ↔ ¬ Contains s needle.
Proof. rewrite <- includes_spec. by destruct (includes s needle). Qed.

Example js_ascii : js "ebitda" = [101; 98; 105; 116; 100; 97]%N.
Proof. reflexivity. Qed.

Example js_cyrillic : js "Выручка" = [1042; 1099; 1088; 1091; 1095; 1082; 1072]%N.
Proof. reflexivity. Qed.

Example lower_cyrillic : toLowerCaseUnits (js "Прочие ДОХОДЫ") = js "прочие доходы".
Proof. reflexivity. Qed.

Example trim_spaces : trim (js "  Валовая прибыль ") = js "Валовая прибыль".
Proof. reflexivity. Qed.

(** ** Flow classification *)

Section classify.

Variable lower : list N → list N.

Lemma determineFlowType_adjacent source target :
  Contains (lower source) (js "прочи") →
  Contains (lower source) (js "доход") ∨ Contains (lower source) (js "выручка") →
  determineFlowType lower source target = adjacentRevenue.
Proof.
  rewrite <- !includes_spec. intros Hmisc Hterm. unfold determineFlowType.
  rewrite Hmisc. by destruct Hterm as [-> | ->]; rewrite ?orb_true_r.
Qed.

Lemma determineFlowType_revenue source target :
  ¬ Contains (lower source) (js "прочи") →
  Contains (lower source) (js "доход") ∨ Contains (lower source) (js "выручка") →
  determineFlowType lower source target = revenue.
Proof.
  rewrite <- includes_false, <- !includes_spec. intros Hmisc Hterm.
  unfold determineFlowType. rewrite Hmisc. simpl.
  by destruct Hterm as [-> | ->]; rewrite ?orb_true_r.
Qed.

Lemma determineFlowType_no_income source target :
  ¬ (Contains (lower source) (js "доход") ∨ Contains (lower source) (js "выручка")) →
  determineFlowType lower source target =
    if includes (lower target) (js "прибыль") || includes (lower target) (js "ebitda")
       || includes (lower target) (js "чистая")
    then profit else expense.
Proof.
  rewrite <- !includes_spec. intros Hterm. unfold determineFlowType.
  destruct (includes (lower source) (js "доход")); [tauto|].
  destruct (includes (lower source) (js "выручка")); [tauto|].
  by rewrite andb_false_r.
Qed.

Lemma determineFlowType_profit source target :
  ¬ (Contains (lower source) (js "доход") ∨ Contains (lower source) (js "выручка")) →
  Contains (lower target) (js "прибыль") ∨ Contains (lower target) (js "ebitda")
    ∨ Contains (lower target) (js "чистая") →
  determineFlowType lower source target = profit.
Proof.
  intros Hterm Hgain. rewrite determineFlowType_no_income by done.
  rewrite <- !includes_spec in Hgain.
  by destruct Hgain as [-> | [-> | ->]]; rewrite ?orb_true_r.
Qed.

Lemma determineFlowType_expense source target :
  ¬ (Contains (lower source) (js "доход") ∨ Contains (lower source) (js "выручка")) →
  ¬ (Contains (lower target) (js "прибыль") ∨ Contains (lower target) (js "ebitda")
     ∨ Contains (lower target) (js "чистая")) →
  determineFlowType lower source target = expense.
Proof.
  intros Hterm Hgain. rewrite determineFlowType_no_income by done.
  rewrite <- !includes_spec in Hgain.
  destruct (includes (lower target) (js "прибыль")); [tauto|].
  destruct (includes (lower target) (js "ebitda")); [tauto|].
  destruct (includes (lower target) (js "чистая")); [tauto|done].
Qed.

Lemma determineFlowType_case_insensitive source source' target target' :
  lower source = lower source' → lower target = lower target' →
  determineFlowType lower source target = determineFlowType lower source' target'.
Proof. unfold determineFlowType. by intros -> ->. Qed.

End classify.

(** C1. Classification depends on the lower-cased source and target only
    and resolves in the order adjacentRevenue, revenue, profit, expense:
    a miscellaneous qualifier with an income or revenue term in the source
    gives adjacentRevenue; otherwise an income or revenue term in the
    source gives revenue, whatever the target says; otherwise a profit,
    EBITDA or net-result term in the target gives profit; otherwise the
    flow is an expense. The four examples of section 8.2 evaluate as the
    specification says. *)
Theorem determineFlowType_priority :
  (∀ (lower : list N → list N) (source target : list N),
     let misc := Contains (lower source) (js "прочи") in
     let income :=
       Contains (lower source) (js "доход") ∨ Contains (lower source) (js "выручка") in
     let gain :=
       Contains (lower target) (js "прибыль") ∨ Contains (lower target) (js "ebitda")
       ∨ Contains (lower target) (js "чистая") in
     (misc ∧ income → determineFlowType lower source target = adjacentRevenue)
     ∧ (¬ misc ∧ income → determineFlowType lower source target = revenue)
     ∧ (¬ income ∧ gain → determineFlowType lower source target = profit)
     ∧ (¬ income ∧ ¬ gain → determineFlowType lower source target = expense))
  ∧ (∀ (lower : list N → list N) (source source' target target' : list N),
       lower source = lower source' → lower target = lower target' →
       determineFlowType lower source target = determineFlowType lower source' target')
  ∧ determineFlowType toLowerCaseUnits (js "Прочие доходы") (js "Валовая прибыль")
      = adjacentRevenue
  ∧ determineFlowType toLowerCaseUnits (js "Выручка") (js "Себестоимость") = revenue
  ∧ determineFlowType toLowerCaseUnits (js "Валовая прибыль") (js "EBITDA") = profit
  ∧ determineFlowType toLowerCaseUnits (js "Коммерческие расходы") (js "X") = expense.
Proof.
  split; [|split; [|by vm_compute]].
  - intros lower source target misc income gain. repeat split.
    + intros [Hmisc Hinc]. by apply determineFlowType_adjacent.
    + intros [Hmisc Hinc]. by apply determineFlowType_revenue.
    + intros [Hinc Hgain]. by apply determineFlowType_profit.
    + intros [Hinc Hgain]. by apply determineFlowType_expense.
  - intros lower. apply determineFlowType_case_insensitive.
Qed.

(** A source that says revenue and a target that says profit, in upper
    case: the source side wins. *)
Lemma determineFlowType_priority_witness :
  determineFlowType toLowerCaseUnits (js "ВЫРУЧКА от реализации") (js "Чистая ПРИБЫЛЬ")
  = revenue.
Proof.
  destruct determineFlowType_priority as [Hcases _].
  destruct (Hcases toLowerCaseUnits (js "ВЫРУЧКА от реализации") (js "Чистая ПРИБЫЛЬ"))
    as (_ & Hrevenue & _).
  apply Hrevenue. split.
  - apply includes_false. vm_compute. reflexivity.
  - right. apply includes_spec. vm_compute. reflexivity.
Defined.

(** ** Period-over-period change *)






(** ** Maps in insertion order *)

Section omap_facts.
Context {V : Type}.
Implicit Types (m : list (list N * V)) (k : list N).







End omap_facts.

(** ** Balance check *)





Lemma aggregate_snoc rows row :
  Balance.aggregate (rows ++ [row]) = Balance.step (Balance.aggregate rows) (length rows, row).
Proof.
  unfold Balance.aggregate. rewrite imap_app, foldl_app. simpl.
  by rewrite Nat.add_0_r.
Qed.








(** ** Graph building *)

Lemma indexOf_None a (l : list (list N)) : indexOf a l = None ↔ a ∉ l.
Proof.
  unfold indexOf. rewrite fmap_None, list_find_None, Forall_forall. split.
  - intros Hall Hin. by apply (Hall a).
  - intros Hnot x Hx ->. done.
Qed.

Lemma indexOf_Some a (l : list (list N)) i :
  indexOf a l = Some i → l !! i = Some a.
Proof.
  unfold indexOf. destruct (list_find _ l) as [[j y]|] eqn:Hfind; [|done].
  intros [= ->]. apply list_find_Some in Hfind as (Hj & -> & _). done.
Qed.

Lemma indexOf_is_Some a (l : list (list N)) : a ∈ l → is_Some (indexOf a l).
Proof.
  intros Hin. destruct (indexOf a l) eqn:Hidx; [eauto|].
  by apply indexOf_None in Hidx.
Qed.

Lemma indexOf_snoc a x (l : list (list N)) :
  indexOf a (l ++ [x]) =
    match indexOf a l with
    | Some i => Some i
    | None => if decide (x = a) then Some (length l) else None
    end.
Proof.
  unfold indexOf. destruct (list_find _ l) as [[i y]|] eqn:Hfind.
  - by erewrite list_find_app_l.
  - rewrite list_find_app_r by done. simpl. by case_decide.
Qed.

Lemma indexOf_NoDup (l : list (list N)) i a :
  NoDup l → l !! i = Some a → indexOf a l = Some i.
Proof.
  intros Hnd Hi. destruct (indexOf_is_Some a l) as [j Hj].
  { by eapply list_elem_of_lookup_2. }
  rewrite Hj. f_equal. apply indexOf_Some in Hj.
  by eapply NoDup_lookup.
Qed.

Lemma setAdd_elem x a (s : list (list N)) : a ∈ setAdd x s ↔ a ∈ s ∨ a = x.
Proof.
  unfold setAdd. case_decide.
  - split; [by left | by intros [? | ->]].
  - by rewrite elem_of_app, list_elem_of_singleton.
Qed.

Lemma setAdd_NoDup x (s : list (list N)) : NoDup s → NoDup (setAdd x s).
Proof.
  intros Hnd. unfold setAdd. case_decide; [done|].
  apply NoDup_app. split_and!; [done | | apply NoDup_singleton].
  by intros y Hy ->%list_elem_of_singleton.
Qed.

Lemma setAdd_indexOf x a (s : list (list N)) :
  indexOf a (setAdd x s) =
    match indexOf a s with
    | Some i => Some i
    | None => if decide (x = a) then Some (length s) else None
    end.
Proof.
  unfold setAdd. case_decide as Hx; [|apply indexOf_snoc].
  destruct (indexOf a s) eqn:Ha; [done|]. case_decide; [subst|done].
  by apply indexOf_None in Ha.
Qed.

Lemma collectNames_endpoints rows (acc : list (list N)) :
  foldl collectNames acc rows = foldl (λ s x, setAdd x s) acc (endpointsOf rows).
Proof.
  unfold endpointsOf. revert acc.
  induction rows as [|row rows IH]; intros acc; [done|].
  cbn [foldl mbind list_bind]. rewrite foldl_app, IH. f_equal.
  unfold collectNames. rewrite !filter_cons, filter_nil.
  by repeat case_decide; simplify_eq/=;
    destruct (truthy (trim (Row.source row))), (truthy (trim (Row.target row))).
Qed.

(** Collecting names row by row is adding the endpoints one by one. *)
Lemma nodeNamesOf_endpoints rows :
  nodeNamesOf rows = foldl (λ s x, setAdd x s) [] (endpointsOf rows).
Proof. apply collectNames_endpoints. Qed.

Section first_seen.
Implicit Types (l s : list (list N)).

Lemma dedup_snoc l x s :
  foldl (λ s x, setAdd x s) s (l ++ [x]) = setAdd x (foldl (λ s x, setAdd x s) s l).
Proof. by rewrite foldl_app. Qed.

Lemma dedup_elem l a : a ∈ foldl (λ s x, setAdd x s) [] l ↔ a ∈ l.
Proof.
  induction l as [|x l IH] using rev_ind; [done|].
  rewrite dedup_snoc, setAdd_elem, IH, elem_of_app, list_elem_of_singleton. done.
Qed.

Lemma dedup_NoDup l : NoDup (foldl (λ s x, setAdd x s) [] l).
Proof.
  induction l as [|x l IH] using rev_ind; [constructor|].
  rewrite dedup_snoc. by apply setAdd_NoDup.
Qed.

(** Two names keep, among the collected names, the order of their first
    occurrences. *)
Lemma dedup_order l a b :
  firstSeenBefore (foldl (λ s x, setAdd x s) [] l) a b ↔ firstSeenBefore l a b.
Proof.
  induction l as [|x l IH] using rev_ind; [done|].
  rewrite dedup_snoc. unfold firstSeenBefore in *.
  setoid_rewrite setAdd_indexOf. setoid_rewrite indexOf_snoc.
  set (d := foldl (λ s x, setAdd x s) [] l) in *.
  assert (∀ c, indexOf c d = None ↔ indexOf c l = None) as Hnone.
  { intros c. rewrite !indexOf_None. unfold d. by rewrite dedup_elem. }
  assert (∀ c i, indexOf c d = Some i → (i < length d)%nat) as Hd.
  { intros c i ?%indexOf_Some. by eapply lookup_lt_Some. }
  assert (∀ c i, indexOf c l = Some i → (i < length l)%nat) as Hl.
  { intros c i ?%indexOf_Some. by eapply lookup_lt_Some. }
  destruct (indexOf a d) as [ia|] eqn:Had, (indexOf a l) as [ia'|] eqn:Hal;
    try (apply Hnone in Had; congruence); try (apply Hnone in Hal; congruence).
  - destruct (indexOf b d) as [ib|] eqn:Hbd, (indexOf b l) as [ib'|] eqn:Hbl;
      try (apply Hnone in Hbd; congruence); try (apply Hnone in Hbl; congruence).
    + assert ((ia < ib)%nat ↔ (ia' < ib')%nat) as Hiff.
      { split; intros Hlt.
        - destruct (proj1 IH) as (i & j & [= <-] & [= <-] & ?); eauto 10.
        - destruct (proj2 IH) as (i & j & [= <-] & [= <-] & ?); eauto 10. }
      split; intros (i & j & [= <-] & [= <-] & Hlt);
        do 2 eexists; (split_and!; [done..|]); by apply Hiff.
    + case_decide.
      * split; intros _; do 2 eexists; (split_and!; [done..|]); eauto.
      * split; intros (i & j & _ & [=] & _).
  - split; intros (i & j & Hi & Hj & Hlt); exfalso;
      destruct (decide (x = a)) as [->|]; simplify_eq.
    + destruct (indexOf b d) as [ib|] eqn:Hbd; simplify_eq.
      * apply Hd in Hbd. lia.
      * destruct (decide (a = b)); simplify_eq. lia.
    + destruct (indexOf b l) as [ib|] eqn:Hbl; simplify_eq.
      * apply Hl in Hbl. lia.
      * destruct (decide (a = b)); simplify_eq. lia.
Qed.

End first_seen.

Lemma mapOfEntries_snoc {V} (entries : list (list N * V)) entry :
  mapOfEntries (entries ++ [entry]) = <[entry.1 := entry.2]> (mapOfEntries entries).
Proof. unfold mapOfEntries. by rewrite foldl_app. Qed.

(** With distinct keys the index map sends each key to its position. *)
Lemma mapOfEntries_index {A} (f : A → list N) (l : list A) a :
  NoDup (map f l) →
  mapOfEntries (imap (λ index x, (f x, index)) l) !! a = indexOf a (map f l).
Proof.
  induction l as [|x l IH] using rev_ind; intros Hnd; [done|].
  rewrite map_app in *. simpl in *. apply NoDup_app in Hnd as (Hnd & Hfresh & _).
  rewrite imap_app. cbn [imap]. rewrite mapOfEntries_snoc, indexOf_snoc. simpl.
  rewrite Nat.add_0_r, length_map.
  destruct (decide (f x = a)) as [<-|Hne].
  - rewrite lookup_insert_eq. destruct (indexOf (f x) (map f l)) eqn:Hidx; [|done].
    apply indexOf_Some, list_elem_of_lookup_2 in Hidx.
    destruct (Hfresh _ Hidx). by apply list_elem_of_singleton.
  - rewrite lookup_insert_ne by done. rewrite IH by done.
    by destruct (indexOf a (map f l)).
Qed.

Lemma nodesOf_names rows : map Node.name (nodesOf rows) = nodeNamesOf rows.
Proof.
  unfold nodesOf. apply list_eq. intros i.
  rewrite list_lookup_fmap, list_lookup_imap. by destruct (nodeNamesOf rows !! i).
Qed.

Lemma nodesOf_lookup rows k node :
  nodesOf rows !! k = Some node →
  Node.id node = k ∧ nodeNamesOf rows !! k = Some (Node.name node).
Proof.
  unfold nodesOf. rewrite list_lookup_imap.
  destruct (nodeNamesOf rows !! k); intros [= <-]; done.
Qed.

Lemma nodeNamesOf_NoDup rows : NoDup (nodeNamesOf rows).
Proof. rewrite nodeNamesOf_endpoints. apply dedup_NoDup. Qed.

Lemma nodeNamesOf_elem rows name : name ∈ nodeNamesOf rows ↔ name ∈ endpointsOf rows.
Proof. rewrite nodeNamesOf_endpoints. apply dedup_elem. Qed.

Lemma endpointsOf_elem rows name :
  name ∈ endpointsOf rows ↔
    truthy name = true
    ∧ ∃ row, row ∈ rows ∧ (name = trim (Row.source row) ∨ name = trim (Row.target row)).
Proof.
  unfold endpointsOf. rewrite list_elem_of_bind. split.
  - intros (row & Hname & Hrow). apply list_elem_of_filter in Hname as [Htruthy Hname].
    split; [done|]. exists row. split; [done|].
    apply elem_of_cons in Hname as [-> | Hname]; [by left|].
    apply list_elem_of_singleton in Hname as ->. by right.
  - intros (Htruthy & row & Hrow & Hname). exists row. split; [|done].
    apply list_elem_of_filter. split; [done|].
    destruct Hname as [-> | ->]; [by left | right; by left].
Qed.

Lemma nodeIndexOf_lookup rows name :
  nodeIndexOf (nodesOf rows) !! name = indexOf name (nodeNamesOf rows).
Proof.
  unfold nodeIndexOf. rewrite (mapOfEntries_index Node.name).
  - by rewrite nodesOf_names.
  - rewrite nodesOf_names. apply nodeNamesOf_NoDup.
Qed.

Lemma isValidRow_true row :
  isValidRow row = true ↔
    truthy (trim (Row.source row)) = true ∧ truthy (trim (Row.target row)) = true
    ∧ Number.gt (Row.currentPeriod row) (Num 0) = true.
Proof. unfold isValidRow. rewrite !andb_true_iff. tauto. Qed.

Lemma filter_all_valid rows :
  Forall (λ row, isValidRow row = true) rows →
  filter (λ row, isValidRow row = true) rows = rows.
Proof.
  induction 1 as [|row rows Hrow _ IH]; [done|].
  by rewrite filter_cons_True, IH.
Qed.

(** A valid row resolves both of its names to positions of the node list. *)
Lemma linkOfRow_resolved lower rows row :
  row ∈ rows → isValidRow row = true →
  ∃ s t,
    Link.source (linkOfRow lower (nodeIndexOf (nodesOf rows)) row) = Some s
    ∧ Link.target (linkOfRow lower (nodeIndexOf (nodesOf rows)) row) = Some t
    ∧ nodeNamesOf rows !! s = Some (trim (Row.source row))
    ∧ nodeNamesOf rows !! t = Some (trim (Row.target row)).
Proof.
  intros Hrow (Hs & Ht & _)%isValidRow_true. simpl. rewrite !nodeIndexOf_lookup.
  destruct (indexOf_is_Some (trim (Row.source row)) (nodeNamesOf rows)) as [s Hsi].
  { apply nodeNamesOf_elem, endpointsOf_elem. eauto. }
  destruct (indexOf_is_Some (trim (Row.target row)) (nodeNamesOf rows)) as [t Hti].
  { apply nodeNamesOf_elem, endpointsOf_elem. eauto. }
  exists s, t. rewrite Hsi, Hti. split_and!; [done..| |]; by apply indexOf_Some.
Qed.

Lemma endpointsOf_valid rows :
  Forall (λ row, isValidRow row = true) rows →
  endpointsOf rows = rows ≫= λ row, [trim (Row.source row); trim (Row.target row)].
Proof.
  unfold endpointsOf. induction 1 as [|row rows Hrow _ IH]; [done|].
  cbn [mbind list_bind]. change (list_bind ?f ?l) with (l ≫= f) in *. rewrite IH. f_equal.
  apply isValidRow_true in Hrow as (Hs & Ht & _).
  by rewrite filter_cons_True, filter_cons_True by done.
Qed.

(** C5. For valid rows the node list holds every trimmed source and target
    name exactly once, in the order in which the names are first seen
    across the rows (source before target), each node carrying its
    position as id; the link list has one link per row, in row order,
    whose ends are the positions of the row's two names, so rows with the
    same pair of names give parallel links. *)
Theorem graph_builder_first_seen (lower : list N → list N) (rows : list Row.t) :
  Forall (λ row, isValidRow row = true) rows →
  let graph := prepareNodesAndLinks lower rows in
  let names := map Node.name (Graph.nodes graph) in
  NoDup names
  ∧ (∀ name, name ∈ names ↔
       ∃ row, row ∈ rows ∧ (name = trim (Row.source row) ∨ name = trim (Row.target row)))
  ∧ (∀ a b, firstSeenBefore names a b ↔
       firstSeenBefore (rows ≫= λ row, [trim (Row.source row); trim (Row.target row)]) a b)
  ∧ (∀ k node, Graph.nodes graph !! k = Some node → Node.id node = k)
  ∧ length (Graph.links graph) = length rows
  ∧ (∀ i row, rows !! i = Some row →
       ∃ link s t,
         Graph.links graph !! i = Some link
         ∧ Link.source link = Some s ∧ Link.target link = Some t
         ∧ names !! s = Some (trim (Row.source row))
         ∧ names !! t = Some (trim (Row.target row))
         ∧ Link.value link = Row.currentPeriod row
         ∧ Link.previousValue link = Row.previousPeriod row).
Proof.
  intros Hvalid graph names.
  assert (names = nodeNamesOf rows) as -> by apply nodesOf_names.
  subst graph. unfold prepareNodesAndLinks. cbn [Graph.nodes Graph.links].
  rewrite filter_all_valid by done. split_and!.
  - apply nodeNamesOf_NoDup.
  - intros name. rewrite nodeNamesOf_elem, endpointsOf_elem. split.
    + by intros [_ Hrow].
    + intros (row & Hrow & Hname). split; [|eauto].
      rewrite Forall_forall in Hvalid.
      destruct (proj1 (isValidRow_true row) (Hvalid row Hrow)) as (Hs & Ht & _).
      by destruct Hname as [-> | ->].
  - intros a b. rewrite <- endpointsOf_valid by done.
    rewrite nodeNamesOf_endpoints. apply dedup_order.
  - intros k node Hnode. by apply nodesOf_lookup in Hnode as [? _].
  - by rewrite length_map.
  - intros i row Hrow.
    assert (row ∈ rows) as Hin by by eapply list_elem_of_lookup_2.
    rewrite Forall_forall in Hvalid.
    destruct (linkOfRow_resolved lower rows row Hin (Hvalid row Hin))
      as (s & t & Hs & Ht & Hsn & Htn).
    exists (linkOfRow lower (nodeIndexOf (nodesOf rows)) row), s, t.
    rewrite list_lookup_fmap, Hrow. done.
Qed.

(** Three valid rows, two of them for the same pair: three links. *)
Lemma graph_builder_first_seen_witness :
  map Node.name (Graph.nodes (prepareNodesAndLinks toLowerCaseUnits parallelRows))
    = [js "A"; js "B"; js "C"]
  ∧ length (Graph.links (prepareNodesAndLinks toLowerCaseUnits parallelRows)) = 3%nat.
Proof.
  assert (Forall (λ row, isValidRow row = true) parallelRows) as Hvalid
    by (repeat constructor).
  destruct (graph_builder_first_seen toLowerCaseUnits parallelRows Hvalid)
    as (_ & _ & _ & _ & Hlength & _).
  split; [by vm_compute | exact Hlength].
Defined.

Example parallel_links :
  Graph.links (prepareNodesAndLinks toLowerCaseUnits parallelRows) =
    [Link.mk (Some 0%nat) (Some 1%nat) (Num 10) expense (Num 10) (Num 8);
     Link.mk (Some 0%nat) (Some 1%nat) (Num 3) expense (Num 3) (Num 2);
     Link.mk (Some 1%nat) (Some 2%nat) (Num 4) expense (Num 4) (Num 1)].
Proof. by vm_compute. Qed.


Lemma validRowsOf_elem rows row :
  row ∈ validRowsOf rows ↔ row ∈ rows ∧ isValidRow row = true.
Proof. unfold validRowsOf. rewrite list_elem_of_filter. tauto. Qed.

Lemma validRowsOf_valid rows : Forall (λ row, isValidRow row = true) (validRowsOf rows).
Proof. apply Forall_forall. by intros row [_ ?]%validRowsOf_elem. Qed.



(** An amount of [+Infinity] is greater than zero: such a row is valid. *)
Example infinite_row_valid :
  isValidRow (Row.mk [] (js "A") (js "B") PosInfinity (Num 0)) = true.
Proof. reflexivity. Qed.

(** ** Dominant parents *)

Lemma Qlt_bool_iff (a b : Q) : Number.Qlt_bool a b = true ↔ a < b.
Proof.
  unfold Number.Qlt_bool. rewrite negb_true_iff. split.
  - intros Hle. apply Qnot_le_lt. intros Hba. apply Qle_bool_iff in Hba. congruence.
  - intros Hlt. destruct (Qle_bool b a) eqn:Hle; [|done].
    apply Qle_bool_iff in Hle. by apply Qlt_not_le in Hlt.
Qed.

Lemma Qlt_bool_false (a b : Q) : Number.Qlt_bool a b = false ↔ b <= a.
Proof.
  unfold Number.Qlt_bool. rewrite negb_false_iff. apply Qle_bool_iff.
Qed.

Lemma parentValue_finite row : ∃ q, parentValue row = Num q.
Proof. unfold parentValue. destruct (Row.currentPeriod row); simpl; eauto. Qed.

Lemma gt_irrefl_finite q : Number.gt (Num q) (Num q) = false.
Proof. simpl. apply Qlt_bool_false. apply Qle_refl. Qed.

(** A value that exceeds the best so far exceeds all it was best of. *)
Lemma gt_new_best (other best new : Q) :
  Number.gt (Num other) (Num best) = false →
  Number.gt (Num new) (Num best) = true →
  Number.gt (Num other) (Num new) = false ∧ Number.gt (Num new) (Num other) = true.
Proof.
  simpl. rewrite Qlt_bool_false, !Qlt_bool_iff, Qlt_bool_false. intros Hle Hlt. split.
  - apply Qlt_le_weak. by eapply Qle_lt_trans.
  - by eapply Qle_lt_trans.
Qed.

Lemma parentScan_snoc rows row :
  parentScan (rows ++ [row]) = parentStep (parentScan rows) row.
Proof. unfold parentScan. by rewrite foldl_app. Qed.

Lemma parentStep_skip st row :
  truthy (trim (Row.source row)) && truthy (trim (Row.target row)) = false →
  parentStep st row = st.
Proof.
  unfold parentStep.
  by destruct (truthy (trim (Row.source row))), (truthy (trim (Row.target row))).
Qed.

Lemma parentStep_bestValue st row :
  truthy (trim (Row.source row)) && truthy (trim (Row.target row)) = true →
  ParentScan.bestValue (parentStep st row) =
    if takesOver st row
    then <[trim (Row.target row) := parentValue row]> (ParentScan.bestValue st)
    else ParentScan.bestValue st.
Proof.
  intros [Hs Ht]%andb_true_iff. unfold parentStep, takesOver. rewrite Hs, Ht. simpl.
  by destruct (ParentScan.bestValue st !! trim (Row.target row)) as [best|];
    [destruct (Number.gt (parentValue row) best)|].
Qed.

Lemma parentStep_parentByNode st row :
  truthy (trim (Row.source row)) && truthy (trim (Row.target row)) = true →
  ParentScan.parentByNode (parentStep st row) =
    if takesOver st row
    then <[trim (Row.target row) := trim (Row.source row)]> (ParentScan.parentByNode st)
    else ParentScan.parentByNode st.
Proof.
  intros [Hs Ht]%andb_true_iff. unfold parentStep, takesOver. rewrite Hs, Ht. simpl.
  by destruct (ParentScan.bestValue st !! trim (Row.target row)) as [best|];
    [destruct (Number.gt (parentValue row) best)|].
Qed.

(** The invariant carries over a row that does not feed the node. *)
Lemma parentScanFor_other rows row node (st st' : ParentScan.t) :
  ¬ feeds row node →
  ParentScan.bestValue st' !! node = ParentScan.bestValue st !! node →
  ParentScan.parentByNode st' !! node = ParentScan.parentByNode st !! node →
  match ParentScan.bestValue st !! node with
  | None =>
      ParentScan.parentByNode st !! node = None ∧ ∀ r, r ∈ rows → ¬ feeds r node
  | Some best =>
      ∃ i r,
        rows !! i = Some r ∧ feeds r node ∧ parentValue r = best
        ∧ ParentScan.parentByNode st !! node = Some (trim (Row.source r))
        ∧ ∀ j other, rows !! j = Some other → feeds other node →
            Number.gt (parentValue other) best = false
            ∧ ((j < i)%nat → Number.gt best (parentValue other) = true)
  end →
  match ParentScan.bestValue st' !! node with
  | None =>
      ParentScan.parentByNode st' !! node = None ∧ ∀ r, r ∈ rows ++ [row] → ¬ feeds r node
  | Some best =>
      ∃ i r,
        (rows ++ [row]) !! i = Some r ∧ feeds r node ∧ parentValue r = best
        ∧ ParentScan.parentByNode st' !! node = Some (trim (Row.source r))
        ∧ ∀ j other, (rows ++ [row]) !! j = Some other → feeds other node →
            Number.gt (parentValue other) best = false
            ∧ ((j < i)%nat → Number.gt best (parentValue other) = true)
  end.
Proof.
  intros Hnot -> ->. destruct (ParentScan.bestValue st !! node) as [b|].
  - intros (i & r & Hi & Hfeeds & Hbest & Hparent & Hmax).
    exists i, r. split_and!; [by apply lookup_app_l_Some | done..|].
    intros j other [Hj | [_ Hj]]%lookup_app_Some Hother; [by apply Hmax|].
    apply list_lookup_singleton_Some in Hj as [_ <-]. done.
  - intros [Hnone Hfree]. split; [done|].
    intros r [Hr | ->%list_elem_of_singleton]%elem_of_app; [by apply Hfree | done].
Qed.

Lemma parentScan_invariant rows : parentScanFor rows (parentScan rows).
Proof.
  induction rows as [|row rows IH] using rev_ind.
  - intros node. simpl. rewrite !lookup_empty. split; [done|]. by intros row ?%elem_of_nil.
  - rewrite parentScan_snoc. set (st := parentScan rows) in *. intros node.
    specialize (IH node).
    destruct (truthy (trim (Row.source row)) && truthy (trim (Row.target row))) eqn:Hnames.
    2: { rewrite parentStep_skip by done.
         apply (parentScanFor_other rows row node st st); [|done..].
         intros (Hs & Ht & _). by rewrite Hs, Ht in Hnames. }
    destruct (decide (trim (Row.target row) = node)) as [Hnode | Hnode].
    2: { apply (parentScanFor_other rows row node st); [| | |done].
         - by intros (_ & _ & ?).
         - rewrite parentStep_bestValue by done.
           destruct (takesOver st row); [by rewrite lookup_insert_ne | done].
         - rewrite parentStep_parentByNode by done.
           destruct (takesOver st row); [by rewrite lookup_insert_ne | done]. }
    subst node. rewrite parentStep_bestValue, parentStep_parentByNode by done.
    assert (feeds row (trim (Row.target row))) as Hrow.
    { apply andb_true_iff in Hnames as [? ?]. by split_and!. }
    assert ((rows ++ [row]) !! length rows = Some row) as Hlast.
    { rewrite lookup_app_r by lia. by rewrite Nat.sub_diag. }
    destruct (parentValue_finite row) as [new Hnew].
    unfold takesOver.
    destruct (ParentScan.bestValue st !! trim (Row.target row)) as [best|] eqn:Hbest.
    + destruct IH as (i & r & Hi & Hfeeds & Hval & Hparent & Hmax).
      assert (i < length rows)%nat as Hlen by by eapply lookup_lt_Some.
      destruct (parentValue_finite r) as [old Hold].
      assert (best = Num old) as -> by congruence.
      rewrite Hnew. destruct (Number.gt (Num new) (Num old)) eqn:Hgt.
      * rewrite !lookup_insert_eq.
        exists (length rows), row. split_and!; [done | done | done | done |].
        intros j other [Hj | [Hge Hj]]%lookup_app_Some Hother.
        -- assert (j < length rows)%nat by by eapply lookup_lt_Some.
           destruct (parentValue_finite other) as [o Ho]. rewrite Ho.
           destruct (Hmax j other Hj Hother) as [Hle _]. rewrite Ho in Hle.
           destruct (gt_new_best o old new Hle Hgt). done.
        -- apply list_lookup_singleton_Some in Hj as [Hj <-]. rewrite Hnew.
           split; [apply gt_irrefl_finite | lia].
      * rewrite Hbest. exists i, r.
        split_and!; [by apply lookup_app_l_Some | done | done | done |].
        intros j other [Hj | [Hge Hj]]%lookup_app_Some Hother; [by apply Hmax|].
        apply list_lookup_singleton_Some in Hj as [Hj <-]. rewrite Hnew.
        split; [done | lia].
    + destruct IH as [Hnone Hfree]. rewrite !lookup_insert_eq.
      exists (length rows), row. split_and!; [done | done | done | done |].
      intros j other [Hj | [Hge Hj]]%lookup_app_Some Hother.
      * destruct (Hfree other); [by eapply list_elem_of_lookup_2 | done].
      * apply list_lookup_singleton_Some in Hj as [Hj <-]. rewrite Hnew.
        split; [apply gt_irrefl_finite | lia].
Qed.

Lemma dominantBy_unique value rows node parent parent' :
  dominantBy value rows node parent → dominantBy value rows node parent' → parent = parent'.
Proof.
  intros (i & row & Hi & Hfeeds & <- & Hmax) (i' & row' & Hi' & Hfeeds' & <- & Hmax').
  destruct (lt_eq_lt_dec i i') as [[Hlt | ->] | Hlt].
  - destruct (Hmax' i row Hi Hfeeds) as [_ Hstrict].
    destruct (Hmax i' row' Hi' Hfeeds') as [Hle _].
    rewrite Hstrict in Hle by done. done.
  - congruence.
  - destruct (Hmax i' row' Hi' Hfeeds') as [_ Hstrict].
    destruct (Hmax' i row Hi Hfeeds) as [Hle _].
    rewrite Hstrict in Hle by done. done.
Qed.

Lemma parentByNode_is_dominant rows node parent :
  ParentGroups.parentByNode (parentGroups rows) !! node = Some parent →
  dominantBy parentValue rows node parent.
Proof.
  unfold parentGroups. cbn [ParentGroups.parentByNode].
  pose proof (parentScan_invariant rows node) as Hinv.
  destruct (ParentScan.bestValue (parentScan rows) !! node) as [best|].
  - destruct Hinv as (i & row & Hi & Hfeeds & <- & -> & Hmax). intros [= <-].
    by exists i, row.
  - destruct Hinv as [-> _]. done.
Qed.

Lemma parentGroups_has_parent rows node :
  is_Some (ParentGroups.parentByNode (parentGroups rows) !! node) ↔
    ∃ row, row ∈ rows ∧ feeds row node.
Proof.
  unfold parentGroups. cbn [ParentGroups.parentByNode].
  pose proof (parentScan_invariant rows node) as Hinv.
  destruct (ParentScan.bestValue (parentScan rows) !! node) as [best|].
  - destruct Hinv as (i & row & Hi & Hfeeds & _ & -> & _). split; [|eauto].
    intros _. exists row. split; [by eapply list_elem_of_lookup_2 | done].
  - destruct Hinv as [-> Hfree]. split; [by intros [? ?]|].
    intros (row & Hrow & Hfeeds). by destruct (Hfree row).
Qed.

Lemma parentValue_of_finite rows :
  Forall (λ row, Number.isFinite (Row.currentPeriod row) = true) rows →
  ∀ node parent,
    dominantBy parentValue rows node parent ↔ dominantBy Row.currentPeriod rows node parent.
Proof.
  intros Hfinite node parent.
  assert (∀ j row, rows !! j = Some row → parentValue row = Row.currentPeriod row) as Hval.
  { intros j row Hj. unfold parentValue.
    by rewrite (proj1 (Forall_lookup _ _) Hfinite j row Hj). }
  split; intros (i & row & Hi & Hfeeds & Hparent & Hmax); exists i, row;
    (split_and!; [done..|]); intros j other Hj Hother;
    specialize (Hmax j other Hj Hother);
    rewrite (Hval i row Hi), (Hval j other Hj) in *; done.
Qed.

(** C7 as stated fails where an amount is not finite: the row from A
    carries the largest [currentPeriod] into X, yet B is the parent. *)
Lemma parentGroups_ignores_infinite :
  ParentGroups.parentByNode (parentGroups infiniteRows) !! js "X" = Some (js "B")
  ∧ ¬ dominantBy Row.currentPeriod infiniteRows (js "X") (js "B").
Proof.
  split; [by vm_compute|].
  intros (i & row & Hi & Hfeeds & Hparent & Hmax).
  destruct i as [|[|i]]; simpl in Hi; [| |done].
  - injection Hi as <-. by vm_compute in Hparent.
  - injection Hi as <-.
    destruct (Hmax 0%nat (Row.mk [] (js "A") (js "X") PosInfinity (Num 0))) as [Hle _];
      [done | by vm_compute | done].
Qed.

(** C7, amended. A node has a parent exactly when some row with both
    trimmed names non-empty enters it, and the parent is the source of the
    first incoming row that carries the largest amount into the node, the
    amount of a row being its [currentPeriod], or 0 when that is not
    finite: no incoming row carries more and every earlier one carries
    strictly less, so of two rows that tie the first is kept. When all
    amounts are finite this is the largest [currentPeriod] itself. *)
Theorem parentGroups_dominant (rows : list Row.t) (node : list N) :
  (is_Some (ParentGroups.parentByNode (parentGroups rows) !! node) ↔
     ∃ row, row ∈ rows ∧ feeds row node)
  ∧ (∀ parent,
       ParentGroups.parentByNode (parentGroups rows) !! node = Some parent ↔
         dominantBy parentValue rows node parent)
  ∧ (∀ row, parentValue row =
       if Number.isFinite (Row.currentPeriod row) then Row.currentPeriod row else Num 0)
  ∧ (Forall (λ row, Number.isFinite (Row.currentPeriod row) = true) rows →
     ∀ parent,
       ParentGroups.parentByNode (parentGroups rows) !! node = Some parent ↔
         dominantBy Row.currentPeriod rows node parent).
Proof.
  assert (∀ parent,
            ParentGroups.parentByNode (parentGroups rows) !! node = Some parent ↔
              dominantBy parentValue rows node parent) as Hiff.
  { intros parent. split; [apply parentByNode_is_dominant|].
    intros Hdom. destruct (proj2 (parentGroups_has_parent rows node)) as [parent' Hparent'].
    { destruct Hdom as (i & row & Hi & Hfeeds & _).
      exists row. split; [by eapply list_elem_of_lookup_2 | done]. }
    rewrite Hparent'. f_equal. apply parentByNode_is_dominant in Hparent'.
    by eapply dominantBy_unique. }
  split_and!.
  - apply parentGroups_has_parent.
  - done.
  - done.
  - intros Hfinite parent. by rewrite Hiff, parentValue_of_finite.
Qed.

(** Of the two rows that tie at 7 the earlier one, from B, gives the
    parent. *)
Lemma parentGroups_dominant_witness :
  dominantBy Row.currentPeriod tiedRows (js "X") (js "B").
Proof.
  destruct (parentGroups_dominant tiedRows (js "X")) as (_ & _ & _ & Hfinite).
  apply Hfinite.
  - by repeat constructor.
  - by vm_compute.
Defined.

(** ** Node order in the layout *)

Lemma ofNat_diff_neg (i j : nat) : ofNat i - ofNat j < 0 ↔ (i < j)%nat.
Proof. unfold ofNat, Qlt, Qminus, Qplus, Qopp, inject_Z. simpl. lia. Qed.

Lemma ofNat_diff_pos (i j : nat) : 0 < ofNat i - ofNat j ↔ (j < i)%nat.
Proof. unfold ofNat, Qlt, Qminus, Qplus, Qopp, inject_Z. simpl. lia. Qed.

Lemma ofNat_diff_zero (i j : nat) : Qeq_bool (ofNat i - ofNat j) 0 = true ↔ i = j.
Proof.
  rewrite Qeq_bool_iff. unfold ofNat, Qeq, Qminus, Qplus, Qopp, inject_Z. simpl. lia.
Qed.





(** ** Offset clamping *)











(** ** Migration of legacy order *)

Section migration.
Variable parentByNode : gmap (list N) (list N).

Lemma fillGap_lookup (entries : list (list N * Q)) (base : gmap (list N) Q) child :
  foldl fillGap base entries !! child =
    match base !! child with
    | Some rank => Some rank
    | None => (list_to_map entries : gmap (list N) Q) !! child
    end.
Proof.
  revert base. induction entries as [|[k order] entries IH]; intros base; simpl.
  - rewrite lookup_empty. by destruct (base !! child).
  - rewrite IH. destruct (decide (child = k)) as [->|Hne].
    + rewrite lookup_insert_eq. destruct (base !! k) eqn:Hk; [by rewrite Hk|].
      by rewrite lookup_insert_eq.
    + rewrite lookup_insert_ne by done.
      destruct (base !! k); [done|]. by rewrite lookup_insert_ne.
Qed.

Lemma mergeParent_lookup (entries : list (list N * gmap (list N) Q))
    (next : gmap (list N) NodeSettings.t) parent :
  NoDup entries.*1 →
  foldl mergeParent next entries !! parent =
    match (list_to_map entries : gmap (list N) (gmap (list N) Q)) !! parent with
    | Some orderMap =>
        let parentSettings := default NodeSettings.empty (next !! parent) in
        Some (NodeSettings.withChildrenOrder
                (foldl fillGap (default ∅ (NodeSettings.childrenOrder parentSettings))
                   (map_to_list orderMap))
                parentSettings)
    | None => next !! parent
    end.
Proof.
  revert next. induction entries as [|[k orderMap] entries IH]; intros next Hnd; simpl.
  - by rewrite lookup_empty.
  - apply NoDup_cons in Hnd as [Hk Hnd]. rewrite IH by done.
    destruct (decide (parent = k)) as [->|Hne].
    + rewrite lookup_insert_eq, (not_elem_of_list_to_map_1 _ k) by done.
      by rewrite lookup_insert_eq.
    + rewrite !lookup_insert_ne by done. done.
Qed.

Lemma collectOrder_other (acc : gmap (list N) (gmap (list N) Q)) k ns parent child :
  child ≠ k →
  (collectOrder parentByNode acc (k, ns) !! parent ≫= (.!! child)) =
    (acc !! parent ≫= (.!! child)).
Proof.
  intros Hne. unfold collectOrder.
  destruct (NodeSettings.orderY ns) as [orderY|]; [|done].
  destruct (parentByNode !! k) as [dominant|]; [|done].
  destruct (truthy dominant); [|done].
  destruct (decide (dominant = parent)) as [->|Hp].
  - rewrite lookup_insert_eq. simpl. rewrite lookup_insert_ne by done.
    by destruct (acc !! parent).
  - by rewrite lookup_insert_ne.
Qed.

Lemma collectOrder_lookup (entries : list (list N * NodeSettings.t))
    (acc : gmap (list N) (gmap (list N) Q)) parent child :
  NoDup entries.*1 →
  (foldl (collectOrder parentByNode) acc entries !! parent ≫= (.!! child)) =
    match legacyRank parentByNode (list_to_map entries) parent child with
    | Some order => Some order
    | None => acc !! parent ≫= (.!! child)
    end.
Proof.
  revert acc. induction entries as [|[k ns] entries IH]; intros acc Hnd.
  - unfold legacyRank. simpl. by rewrite lookup_empty.
  - apply NoDup_cons in Hnd as [Hk Hnd]. cbn [foldl]. rewrite IH by done.
    rewrite list_to_map_cons.
    unfold legacyRank. destruct (decide (child = k)) as [->|Hne].
    + rewrite lookup_insert_eq, (not_elem_of_list_to_map_1 _ k) by done. simpl.
      destruct (NodeSettings.orderY ns) as [orderY|]; simpl; [|done].
      destruct (parentByNode !! k) as [dominant|]; simpl; [|done].
      destruct (truthy dominant) eqn:Htruthy.
      * destruct (decide (dominant = parent)) as [->|Hp].
        -- rewrite lookup_insert_eq. simpl. rewrite lookup_insert_eq.
           by rewrite decide_True.
        -- rewrite lookup_insert_ne by done. rewrite decide_False by tauto. done.
      * rewrite decide_False; [done|]. intros [_ ?]. congruence.
    + rewrite lookup_insert_ne by done. by rewrite collectOrder_other.
Qed.

End migration.

Lemma parentOrdersOf_rank (parentByNode : gmap (list N) (list N))
    (nodeSettings : gmap (list N) NodeSettings.t) (parent child : list N) :
  (parentOrdersOf parentByNode nodeSettings !! parent ≫= (.!! child)) =
    legacyRank parentByNode nodeSettings parent child.
Proof.
  unfold parentOrdersOf.
  rewrite collectOrder_lookup by apply NoDup_fst_map_to_list.
  rewrite list_to_map_to_list, lookup_empty. simpl.
  by destruct (legacyRank parentByNode nodeSettings parent child).
Qed.

Lemma loadSettingsFromStorage_lookup (parentByNode : gmap (list N) (list N))
    (merged : Settings.t) (parent : list N) :
  Settings.nodeSettings (loadSettingsFromStorage parentByNode merged) !! parent =
    match parentOrdersOf parentByNode (Settings.nodeSettings merged) !! parent with
    | Some orderMap =>
        let parentSettings := getNodeSettings merged parent in
        Some (NodeSettings.withChildrenOrder
                (foldl fillGap (default ∅ (NodeSettings.childrenOrder parentSettings))
                   (map_to_list orderMap))
                parentSettings)
    | None => Settings.nodeSettings merged !! parent
    end.
Proof.
  unfold loadSettingsFromStorage. cbn [Settings.nodeSettings Settings.withNodeSettings].
  rewrite mergeParent_lookup by apply NoDup_fst_map_to_list.
  by rewrite list_to_map_to_list.
Qed.




(** ** Sorting *)

Section sortBy_facts.
Context {A : Type} (compareFn : A → A → Q).
Implicit Types (l : list A) (key : A → nat).

Lemma insertSorted_Permutation x l : insertSorted compareFn x l ≡ₚ x :: l.
Proof.
  induction l as [|y l IH]; simpl; [done|].
  case_match; [done|]. rewrite IH. apply Permutation_swap.
Qed.

Lemma sortBy_Permutation l : sortBy compareFn l ≡ₚ l.
Proof.
  induction l as [|x l IH]; simpl; [done|].
  by rewrite insertSorted_Permutation, IH.
Qed.

Lemma sortBy_length l : length (sortBy compareFn l) = length l.
Proof. by rewrite sortBy_Permutation. Qed.

(** Inserting into a list sorted by distinct keys, where the comparator
    agrees with the keys, keeps it sorted. *)
Lemma insertSorted_sorted key x l :
  (∀ y, y ∈ l → key x ≠ key y
               ∧ (Qle_bool (compareFn x y) 0 = true ↔ (key x < key y)%nat)) →
  StronglySorted (λ a b, (key a < key b)%nat) l →
  StronglySorted (λ a b, (key a < key b)%nat) (insertSorted compareFn x l).
Proof.
  induction l as [|y l IH]; intros Hcmp Hsorted; simpl.
  - by repeat constructor.
  - apply StronglySorted_cons in Hsorted as [Hy Hsorted].
    destruct (Hcmp y) as [Hne Hle]; [by left|].
    destruct (Qle_bool (compareFn x y) 0) eqn:Hxy.
    + assert (key x < key y)%nat as Hlt by by apply Hle.
      apply StronglySorted_cons. split; [|by apply StronglySorted_cons].
      constructor; [done|]. eapply Forall_impl; [exact Hy|]. simpl. lia.
    + assert (key y < key x)%nat as Hlt.
      { destruct (lt_eq_lt_dec (key x) (key y)) as [[Hlt | Heq] | Hlt]; [|done|done].
        apply Hle in Hlt. congruence. }
      apply StronglySorted_cons. split.
      * rewrite insertSorted_Permutation. by constructor.
      * apply IH; [|done]. intros z Hz. apply Hcmp. by right.
Qed.

Lemma sortBy_sorted key l :
  NoDup l →
  (∀ x y, x ∈ l → y ∈ l → x ≠ y →
     key x ≠ key y ∧ (Qle_bool (compareFn x y) 0 = true ↔ (key x < key y)%nat)) →
  StronglySorted (λ a b, (key a < key b)%nat) (sortBy compareFn l).
Proof.
  induction l as [|x l IH]; intros Hnd Hcmp; simpl; [constructor|].
  apply NoDup_cons in Hnd as [Hx Hnd]. apply insertSorted_sorted.
  - intros y Hy. rewrite sortBy_Permutation in Hy. apply Hcmp; [by left | by right|].
    by intros ->.
  - apply IH; [done|]. intros a b Ha Hb. apply Hcmp; by right.
Qed.

(** A list whose elements carry their own position as key is sorted. *)
Lemma positions_sorted key l :
  (∀ i x, l !! i = Some x → key x = i) →
  StronglySorted (λ a b, (key a < key b)%nat) l.
Proof.
  induction l as [|x l IH] using rev_ind; intros Hkey; [constructor|].
  apply StronglySorted_app_2.
  - intros a b [i Hi]%list_elem_of_lookup ->%list_elem_of_singleton.
    assert (i < length l)%nat by by eapply lookup_lt_Some.
    rewrite (Hkey i a) by by apply lookup_app_l_Some.
    rewrite (Hkey (length l) x); [done|].
    rewrite lookup_app_r by lia. by rewrite Nat.sub_diag.
  - apply IH. intros i a Hi. apply Hkey. by apply lookup_app_l_Some.
  - by repeat constructor.
Qed.

(** Sorting a rearrangement of [target] by a comparator that agrees with
    the positions in [target] gives [target]. *)
Lemma sortBy_ranked key l target :
  NoDup l → target ≡ₚ l →
  (∀ i x, target !! i = Some x → key x = i) →
  (∀ x y, x ∈ l → y ∈ l → key x ≠ key y →
     Qle_bool (compareFn x y) 0 = true ↔ (key x < key y)%nat) →
  sortBy compareFn l = target.
Proof.
  intros Hnd Hperm Hkey Hcmp.
  apply (StronglySorted_unique_strong (λ a b, (key a < key b)%nat)).
  - intros. lia.
  - apply sortBy_sorted; [done|]. intros x y Hx Hy Hne.
    assert (key x ≠ key y) as Hkeys.
    { rewrite <- Hperm in Hx, Hy.
      apply list_elem_of_lookup in Hx as [i Hi], Hy as [j Hj].
      rewrite (Hkey i x Hi), (Hkey j y Hj). intros ->. congruence. }
    split; [done | by apply Hcmp].
  - by apply positions_sorted.
  - by rewrite sortBy_Permutation.
Qed.

End sortBy_facts.

(** ** Sibling order *)

Lemma renumber_snoc (order : list (list N)) (x : list N) (m : gmap (list N) Q) :
  renumber (order ++ [x]) m = <[x := ofNat (length order)]> (renumber order m).
Proof.
  unfold renumber. rewrite imap_app, foldl_app. simpl. by rewrite Nat.add_0_r.
Qed.

(** A name outside the order keeps the rank it had. *)
Lemma renumber_lookup_other (order : list (list N)) (x : list N) (m : gmap (list N) Q) :
  x ∉ order → renumber order m !! x = m !! x.
Proof.
  induction order as [|y order IH] using rev_ind; intros Hx; [done|].
  rewrite renumber_snoc. apply not_elem_of_app in Hx as [Hx Hy].
  rewrite lookup_insert_ne; [by apply IH|].
  intros ->. apply Hy. by left.
Qed.





Lemma persistOrder_rank_other (parent : list N) (updated : list (list N))
    (settings : Settings.t) (name : list N) :
  name ∉ updated →
  rankUnder (persistOrder parent updated settings) parent name
  = rankUnder settings parent name.
Proof.
  intros Hout. unfold rankUnder, persistOrder.
  cbn [Settings.nodeSettings Settings.withNodeSettings].
  rewrite lookup_insert_eq. simpl. rewrite renumber_lookup_other by done.
  destruct (Settings.nodeSettings settings !! parent) as [ps|]; simpl; [|done].
  by destruct (NodeSettings.childrenOrder ps).
Qed.

(** Only the [childrenOrder] of the parent is written. *)
Lemma persistOrder_others (parent : list N) (updated : list (list N))
    (settings : Settings.t) (name : list N) :
  name ≠ parent →
  Settings.nodeSettings (persistOrder parent updated settings) !! name
  = Settings.nodeSettings settings !! name.
Proof.
  intros Hne. unfold persistOrder. cbn [Settings.nodeSettings Settings.withNodeSettings].
  by rewrite lookup_insert_ne.
Qed.

Section move.
Variable lower : list N → list N.
Variable localeCompare : list N → list N → Q.
Variable sankey :
  Sankey.config → (list N → list N → Q) → list Node.t → list Link.t → list GraphNode.t.

(** The layout returns the nodes it was given, laid out. *)
Hypothesis sankey_names : ∀ config compare nodes links,
  map GraphNode.name (sankey config compare nodes links) = map Node.name nodes.


Lemma placeNode_columns (settings : Settings.t) (graph : list GraphNode.t)
    (acc : LayoutColumns.t) (key : Z) :
  map ColumnItem.name
    (default [] (LayoutColumns.columns (foldl (placeNode settings) acc graph) !! key))
  = map ColumnItem.name (default [] (LayoutColumns.columns acc !! key))
    ++ map GraphNode.name (filter (λ node, columnKeyOf node = key) graph).
Proof.
  revert acc. induction graph as [|node graph IH]; intros acc.
  - simpl. by rewrite app_nil_r.
  - cbn [foldl]. rewrite IH. rewrite filter_cons.
    unfold placeNode. cbn [LayoutColumns.columns].
    destruct (decide (columnKeyOf node = key)) as [<-|Hne].
    + rewrite lookup_insert_eq. cbn [default from_option id].
      rewrite map_app, <- app_assoc. done.
    + by rewrite lookup_insert_ne.
Qed.

(** A column lists each of its nodes once. *)
Lemma layoutColumns_NoDup (settings : Settings.t) (validRows : list Row.t)
    (key : Z) (columnList : list ColumnItem.t) :
  LayoutColumns.columns (layoutColumns lower localeCompare sankey settings validRows) !! key
    = Some columnList →
  NoDup (map ColumnItem.name columnList).
Proof.
  unfold layoutColumns. destruct validRows as [|row rows].
  { unfold LayoutColumns.empty. cbn [LayoutColumns.columns]. by rewrite lookup_empty. }
  cbv zeta. cbn [LayoutColumns.columns]. rewrite lookup_fmap_Some.
  intros (raw & <- & Hraw). rewrite sortBy_Permutation.
  pose proof (placeNode_columns settings
    (sankey (sankeyConfig settings)
       (nodeSort localeCompare (Graph.nodes (prepareNodesAndLinks lower (row :: rows))))
       (Graph.nodes (prepareNodesAndLinks lower (row :: rows)))
       (Graph.links (prepareNodesAndLinks lower (row :: rows))))
    LayoutColumns.empty key) as Hnames.
  rewrite Hraw in Hnames. cbn [default LayoutColumns.empty LayoutColumns.columns] in Hnames.
  rewrite lookup_empty in Hnames. cbn [default map app] in Hnames.
  change (id raw) with raw in Hnames. rewrite Hnames.
  eapply sublist_NoDup; [|apply fmap_sublist, sublist_filter].
  rewrite sankey_names. unfold prepareNodesAndLinks. cbn [Graph.nodes].
  rewrite nodesOf_names. apply nodeNamesOf_NoDup.
Qed.

Lemma getSiblingOrder_Some (settings : Settings.t) (validRows : list Row.t)
    (pg : ParentGroups.t) (nodeName parent : list N) (order : list (list N)) :
  getSiblingOrder lower localeCompare sankey settings validRows pg nodeName
    = Some (parent, order) ↔
  ∃ siblings key columnList,
    ParentGroups.parentByNode pg !! nodeName = Some parent
    ∧ truthy parent = true
    ∧ ParentGroups.parentChildren pg !! parent = Some siblings
    ∧ (1 < length siblings)%nat
    ∧ LayoutColumns.columnByName
        (layoutColumns lower localeCompare sankey settings validRows) !! nodeName = Some key
    ∧ LayoutColumns.columns
        (layoutColumns lower localeCompare sankey settings validRows) !! key = Some columnList
    ∧ (1 < length columnList)%nat
    ∧ (1 < length (siblingsInColumn siblings columnList))%nat
    ∧ order =
        sortBy
          (compareSiblings localeCompare
             (default ∅ (Settings.nodeSettings settings !! parent
                         ≫= NodeSettings.childrenOrder))
             (mapOfEntries
                (imap (λ index name, (name, index)) (siblingsInColumn siblings columnList))))
          (siblingsInColumn siblings columnList).
Proof.
  unfold getSiblingOrder, siblingsInColumn. split.
  - intros Hget. simplify_option_eq. eauto 20.
  - intros (siblings & key & columnList & Hp & Ht & Hs & Hls & Hk & Hc & Hlc & Hlsic & ->).
    by simplify_option_eq.
Qed.

Lemma ofNat_eq_bool (i j : nat) : Qeq_bool (ofNat i) (ofNat j) = true ↔ i = j.
Proof.
  rewrite Qeq_bool_iff. unfold ofNat, Qeq, inject_Z. simpl. lia.
Qed.

Lemma ofNat_diff_le (i j : nat) : Qle_bool (ofNat i - ofNat j) 0 = true ↔ (i ≤ j)%nat.
Proof.
  rewrite Qle_bool_iff. unfold ofNat, Qle, Qminus, Qplus, Qopp, inject_Z. simpl. lia.
Qed.

(** Exchanging two entries rearranges the list. *)
Lemma swapped_Permutation (order updated : list (list N)) (i j : nat) :
  NoDup order → (i < length order)%nat → (j < length order)%nat →
  swapped order updated i j → NoDup updated ∧ updated ≡ₚ order.
Proof.
  intros Hnd Hi Hj (Hlen & Hui & Huj & Hother).
  set (σ := λ k : nat, if decide (k = i) then j else if decide (k = j) then i else k).
  assert (∀ k, updated !! k = order !! σ k) as Hσ.
  { intros k. unfold σ. repeat case_decide; subst; auto. }
  assert (∀ a b, σ a = σ b → a = b) as Hinj.
  { intros a b. unfold σ. repeat case_decide; lia. }
  assert (∀ k, σ (σ k) = k) as Hinv.
  { intros k. unfold σ. repeat case_decide; lia. }
  assert (NoDup updated) as Hnd'.
  { apply NoDup_alt. intros a b x Ha Hb. rewrite Hσ in Ha, Hb.
    apply Hinj. by eapply NoDup_lookup. }
  split; [done|]. apply NoDup_Permutation; [done..|].
  intros x. rewrite !list_elem_of_lookup. split; intros [k Hk].
  - exists (σ k). by rewrite <- Hσ.
  - exists (σ k). by rewrite Hσ, Hinv.
Qed.


Lemma insert_swapped (order : list (list N)) (idx t : nat) (nodeName swapWith : list N) :
  order !! idx = Some nodeName → order !! t = Some swapWith → idx ≠ t →
  swapped order (<[idx := swapWith]> (<[t := nodeName]> order)) t idx.
Proof.
  intros Hidx Ht Hne.
  assert (idx < length order)%nat by by eapply lookup_lt_Some.
  assert (t < length order)%nat by by eapply lookup_lt_Some.
  split_and!.
  - by rewrite !length_insert.
  - rewrite list_lookup_insert_ne by done.
    rewrite list_lookup_insert_eq by done. done.
  - rewrite list_lookup_insert_eq by by rewrite length_insert. done.
  - intros k Hkt Hki. by rewrite !list_lookup_insert_ne.
Qed.





End move.

Lemma twoLayerLayout_names (config : Sankey.config) (compare : list N → list N → Q)
    (nodes : list Node.t) (links : list Link.t) :
  map GraphNode.name (twoLayerLayout config compare nodes links) = map Node.name nodes.
Proof.
  unfold twoLayerLayout. apply list_eq. intros i.
  rewrite !list_lookup_fmap, list_lookup_imap. by destruct (nodes !! i).
Qed.

Example sibling_order_initial :
  getSiblingOrder toLowerCaseUnits compareByUnits twoLayerLayout defaultSettings
    threeSiblings (parentGroups threeSiblings) (js "B")
  = Some (js "P", [js "A"; js "B"; js "C"]).
Proof. by vm_compute. Qed.

Example sibling_order_after_up :
  getSiblingOrder toLowerCaseUnits compareByUnits twoLayerLayout
    (moveNodeByDirection toLowerCaseUnits compareByUnits twoLayerLayout defaultSettings
       threeSiblings (parentGroups threeSiblings) (js "B") up)
    threeSiblings (parentGroups threeSiblings) (js "B")
  = Some (js "P", [js "B"; js "A"; js "C"]).
Proof. by vm_compute. Qed.


(** ** Link colours *)

Lemma getNodeSettings_changed (settings : Settings.t) (nodeName name : list N)
    (nodeSettings : NodeSettings.t) :
  getNodeSettings (handleNodeSettingsChange settings nodeName nodeSettings) name =
    if decide (name = nodeName) then nodeSettings else getNodeSettings settings name.
Proof.
  unfold getNodeSettings, handleNodeSettingsChange.
  cbn [Settings.nodeSettings Settings.withNodeSettings].
  case_decide as Hname.
  - subst name. by rewrite lookup_insert_eq.
  - by rewrite lookup_insert_ne.
Qed.

(** X1. The colour of a link is the target's colour when the target has
    one and gives it priority, else the source's colour, else the
    target's, else the colour of the flow type; an empty colour string
    counts as none, and the priority switch of the source node never
    changes the colour of a link that leaves it. *)
Theorem linkStroke_precedence (settings : Settings.t) (colors : ColorSettings.t)
    (sourceName targetName : list N) (flowType : FlowType) :
  let source := getNodeSettings settings sourceName in
  let target := getNodeSettings settings targetName in
  let stroke := linkStroke settings colors sourceName targetName flowType in
  (truthyString (NodeSettings.color target) = true →
   NodeSettings.linkColorPriority target = Some true →
   Some stroke = NodeSettings.color target)
  ∧ (truthyString (NodeSettings.color source) = true →
     truthyString (NodeSettings.color target) = false
     ∨ default false (NodeSettings.linkColorPriority target) = false →
     Some stroke = NodeSettings.color source)
  ∧ (truthyString (NodeSettings.color source) = false →
     truthyString (NodeSettings.color target) = true →
     Some stroke = NodeSettings.color target)
  ∧ (truthyString (NodeSettings.color source) = false →
     truthyString (NodeSettings.color target) = false →
     stroke = getFlowColor flowType colors)
  ∧ (sourceName ≠ targetName → ∀ checked,
       linkStroke
         (handleNodeSettingsChange settings sourceName
            (NodeEditor.handleLinkPriorityChange source checked))
         colors sourceName targetName flowType = stroke).
Proof.
  intros source target stroke. subst stroke. unfold linkStroke.
  fold source target. split_and!.
  - intros Hcolor Hpriority. rewrite Hcolor, Hpriority. cbn.
    by destruct (NodeSettings.color target).
  - intros Hsource Htarget. rewrite Hsource.
    assert (truthyString (NodeSettings.color target)
            && default false (NodeSettings.linkColorPriority target) = false) as ->.
    { destruct Htarget as [-> | ->]; [done | by rewrite andb_false_r]. }
    destruct (NodeSettings.color source) as [c|]; [| done].
    by destruct (default false (NodeSettings.linkColorPriority source)).
  - intros Hsource Htarget. rewrite Hsource, Htarget. cbn.
    destruct (NodeSettings.color target) as [c|]; [| done].
    by destruct (default false (NodeSettings.linkColorPriority target)).
  - intros Hsource Htarget. by rewrite Hsource, Htarget.
  - intros Hne checked. rewrite !getNodeSettings_changed.
    repeat case_decide; try congruence. fold target.
    cbn [NodeEditor.handleLinkPriorityChange NodeSettings.color
      NodeSettings.linkColorPriority].
    destruct (truthyString (NodeSettings.color target)
              && default false (NodeSettings.linkColorPriority target)); [done |].
    destruct (truthyString (NodeSettings.color source)); [| done].
    cbn. by destruct checked, (default false (NodeSettings.linkColorPriority source)).
Qed.

(** A red source with the switch on, a blue target with the switch on:
    the link is blue. *)
Lemma linkStroke_precedence_witness :
  linkStroke colouredSettings defaultColors (js "A") (js "B") expense = js "#0000ff".
Proof.
  apply (inj Some).
  pose proof (linkStroke_precedence colouredSettings defaultColors (js "A") (js "B") expense)
    as (Htarget & _).
  cbv zeta in Htarget. rewrite Htarget by (by vm_compute). by vm_compute.
Defined.

(** ** Moving a node and resetting its position *)

Lemma getNodeSettings_moved (settings : Settings.t) (nodeName name : list N) (x y : Q) :
  getNodeSettings (handleNodeMove settings nodeName x y) name =
    if decide (name = nodeName)
    then NodeSettings.withOffset (Some x) (Some y) (getNodeSettings settings nodeName)
    else getNodeSettings settings name.
Proof.
  unfold getNodeSettings at 1. unfold handleNodeMove.
  cbn [Settings.nodeSettings Settings.withNodeSettings].
  case_decide as Hname.
  - subst name. by rewrite lookup_insert_eq.
  - by rewrite lookup_insert_ne.
Qed.

Lemma getNodeSettings_reset (settings : Settings.t) (nodeName name : list N) :
  getNodeSettings (handleResetNodePosition settings nodeName) name =
    if decide (name = nodeName)
    then NodeSettings.withOffset None None (getNodeSettings settings nodeName)
    else getNodeSettings settings name.
Proof.
  unfold getNodeSettings at 1. unfold handleResetNodePosition.
  cbn [Settings.nodeSettings Settings.withNodeSettings].
  case_decide as Hname.
  - subst name. by rewrite lookup_insert_eq.
  - by rewrite lookup_insert_ne.
Qed.

(** X2. A stored offset is read back as it was stored, and resetting the
    position of a node undoes any move: the raw offset is (0, 0) again
    and the settings are the ones a reset without the move gives. Both
    handlers change the two offsets of that one node and nothing else:
    its other settings, the settings of every other node and the layout
    configuration stay as they were. *)
Theorem handleResetNodePosition_undoes_move (settings : Settings.t) (nodeName : list N)
    (x y : Q) :
  getRawOffset (handleNodeMove settings nodeName x y) nodeName None = Offset.mk x y
  ∧ getRawOffset (handleResetNodePosition settings nodeName) nodeName None = Offset.mk 0 0
  ∧ handleResetNodePosition (handleNodeMove settings nodeName x y) nodeName
    = handleResetNodePosition settings nodeName
  ∧ NodeSettings.withOffset
      (NodeSettings.offsetX (getNodeSettings settings nodeName))
      (NodeSettings.offsetY (getNodeSettings settings nodeName))
      (getNodeSettings (handleNodeMove settings nodeName x y) nodeName)
    = getNodeSettings settings nodeName
  ∧ NodeSettings.withOffset
      (NodeSettings.offsetX (getNodeSettings settings nodeName))
      (NodeSettings.offsetY (getNodeSettings settings nodeName))
      (getNodeSettings (handleResetNodePosition settings nodeName) nodeName)
    = getNodeSettings settings nodeName
  ∧ (∀ other, other ≠ nodeName →
       Settings.nodeSettings (handleNodeMove settings nodeName x y) !! other
       = Settings.nodeSettings settings !! other
       ∧ Settings.nodeSettings (handleResetNodePosition settings nodeName) !! other
         = Settings.nodeSettings settings !! other)
  ∧ sankeyConfig (handleNodeMove settings nodeName x y) = sankeyConfig settings
  ∧ sankeyConfig (handleResetNodePosition settings nodeName) = sankeyConfig settings.
Proof.
  split_and!.
  - unfold getRawOffset. rewrite getNodeSettings_moved, decide_True by done. done.
  - unfold getRawOffset. rewrite getNodeSettings_reset, decide_True by done. done.
  - unfold handleResetNodePosition at 1. rewrite getNodeSettings_moved, decide_True by done.
    unfold handleResetNodePosition, handleNodeMove.
    cbn [Settings.nodeSettings Settings.withNodeSettings]. rewrite insert_insert_eq.
    by destruct settings.
  - rewrite getNodeSettings_moved, decide_True by done.
    by destruct (getNodeSettings settings nodeName).
  - rewrite getNodeSettings_reset, decide_True by done.
    by destruct (getNodeSettings settings nodeName).
  - intros other Hother. unfold handleNodeMove, handleResetNodePosition.
    cbn [Settings.nodeSettings Settings.withNodeSettings].
    by rewrite !lookup_insert_ne.
  - done.
  - done.
Qed.

(** ** The end of a node drag *)

(** The offset a drag ends with is the raw offset the drag was drawn
    with. *)
Lemma getRawOffset_committed (settings : Settings.t) (nodeName name : list N)
    (deltaX deltaY : Q) :
  getRawOffset
    (handleNodeMove settings nodeName
       (default 0 (NodeSettings.offsetX (getNodeSettings settings nodeName)) + deltaX)
       (default 0 (NodeSettings.offsetY (getNodeSettings settings nodeName)) + deltaY))
    name None
  = getRawOffset settings name (Some (DragOverride.mk nodeName deltaX deltaY)).
Proof.
  unfold getRawOffset. rewrite getNodeSettings_moved. cbn [DragOverride.nodeName
    DragOverride.deltaX DragOverride.deltaY].
  destruct (decide (name = nodeName)) as [-> | Hname].
  - by rewrite decide_True by done.
  - by rewrite decide_False by congruence.
Qed.

Lemma getClampedOffset_committed (settings : Settings.t) (nodeName : list N)
    (node : GraphNode.t) (deltaX deltaY : Q) :
  getClampedOffset
    (handleNodeMove settings nodeName
       (default 0 (NodeSettings.offsetX (getNodeSettings settings nodeName)) + deltaX)
       (default 0 (NodeSettings.offsetY (getNodeSettings settings nodeName)) + deltaY))
    node None
  = getClampedOffset settings node (Some (DragOverride.mk nodeName deltaX deltaY)).
Proof. unfold getClampedOffset. by rewrite getRawOffset_committed. Qed.

Lemma getRawOffset_other_drag (settings : Settings.t) (name : list N)
    (drag : DragOverride.t) :
  DragOverride.nodeName drag ≠ name →
  getRawOffset settings name (Some drag) = getRawOffset settings name None.
Proof. intros Hne. unfold getRawOffset. by rewrite decide_False by done. Qed.

(** X3. Releasing a node after a drag of two pixels or more stores the
    offset the drag was drawn with: every node box and every link curve
    is then drawn exactly where the drag last showed it, nodes other than
    the dragged one where they were before, and the selection is not
    touched. A shorter movement is a click: no offset is stored and the
    selection of the node is toggled, which clears a selected image when
    the node becomes selected. *)
Theorem nodeDragEnd_keeps_drawing (settings : Settings.t) (sel : Selection.t)
    (nodeName : list N) (deltaX deltaY : Q) :
  let drag := DragOverride.mk nodeName deltaX deltaY in
  let after := nodeDragEnd settings sel nodeName deltaX deltaY in
  (isClick deltaX deltaY = true ↔ deltaX * deltaX + deltaY * deltaY < 4)
  ∧ (isClick deltaX deltaY = false →
     after.2 = sel
     ∧ (∀ node,
          getScaledNodeBox after.1 node None = getScaledNodeBox settings node (Some drag))
     ∧ (∀ link, buildLinkPath after.1 link None = buildLinkPath settings link (Some drag))
     ∧ (∀ node, GraphNode.name node ≠ nodeName →
          getScaledNodeBox after.1 node None = getScaledNodeBox settings node None))
  ∧ (isClick deltaX deltaY = true →
     after.1 = settings
     ∧ Selection.selectedNode after.2
       = (if decide (Some nodeName = Selection.selectedNode sel) then None
          else Some nodeName)
     ∧ (truthy nodeName = true → Selection.selectedNode sel ≠ Some nodeName →
        Selection.selectedImageId after.2 = None)).
Proof.
  intros drag after. subst after. unfold nodeDragEnd. split_and!.
  - unfold isClick. apply Qlt_bool_iff.
  - intros ->. cbn [fst snd]. split_and!.
    + done.
    + intros node. unfold getScaledNodeBox.
      rewrite getClampedOffset_committed. done.
    + intros link. unfold buildLinkPath, scaleLinkY.
      rewrite !getClampedOffset_committed. done.
    + intros node Hne. unfold getScaledNodeBox.
      rewrite getClampedOffset_committed. unfold getClampedOffset.
      by rewrite getRawOffset_other_drag by done.
  - intros ->. cbn [fst snd]. split_and!; [done | done |].
    intros Htruthy Hsel. unfold handleNodeSelect.
    rewrite decide_False by congruence. cbn. by rewrite Htruthy.
Qed.

(** Node A, 30 to the right and 10 up: B stays, A moves, nothing is
    selected. *)
Lemma nodeDragEnd_keeps_drawing_witness :
  (nodeDragEnd defaultSettings (Selection.mk None None) (js "A") 30 (-10)).2
    = Selection.mk None None
  ∧ getScaledNodeBox (nodeDragEnd defaultSettings (Selection.mk None None) (js "A") 30 (-10)).1
      shortNode None
    = getScaledNodeBox defaultSettings shortNode (Some (DragOverride.mk (js "A") 30 (-10))).
Proof.
  pose proof (nodeDragEnd_keeps_drawing defaultSettings (Selection.mk None None) (js "A")
                30 (-10)) as (_ & Hdrag & _).
  cbv zeta in Hdrag. destruct Hdrag as (Hsel & Hbox & _); [by vm_compute |].
  split; [exact Hsel | apply Hbox].
Defined.

(** ** Links follow their nodes *)

Lemma qmax_le_l (a b : Q) : a <= qmax a b.
Proof.
  unfold qmax. destruct (Qle_bool a b) eqn:Hle; [by apply Qle_bool_iff | lra].
Qed.





(** ** Selection *)

Lemma uiStep_exclusive (st : UiState) (event : UiEvent) :
  isImageAdd event = false → exclusive st.2 → exclusive (uiStep st event).2.
Proof.
  destruct st as [images [node image]]. unfold exclusive.
  destruct event; cbn [isImageAdd uiStep snd]; try done; intros _ Hsel.
  - unfold handleNodeSelect. cbn. destruct (truthyString nodeName); [done |].
    cbn in Hsel. by destruct (truthyString image).
  - unfold handleImageSelect. cbn. destruct (truthyString id); [| by rewrite andb_false_r].
    by rewrite andb_true_r.
  - unfold handleImageRemove. cbn [snd]. case_decide; [| done].
    cbn. by rewrite andb_false_r.
  - unfold nodeClick, handleNodeSelect. cbn. case_decide; [done |].
    cbn. destruct (truthy name); [done |]. cbn in Hsel. by destruct (truthyString image).
  - unfold imageClick, handleImageSelect. cbn.
    destruct (truthy id); [| by rewrite andb_false_r]. done.
  - unfold imageDragEnd. case_match; [| done]. cbn [snd].
    unfold handleImageSelect. cbn.
    destruct (truthy (ImageDrag.id drag)); [| by rewrite andb_false_r]. done.
Qed.

(** X5. Selection is exclusive under every handler but one: whatever
    sequence of node selections, image selections, clicks on nodes,
    images or the canvas, image moves, resizes, changes and removals is
    run, a node and an image are never selected together if they were
    not at the start. Adding an image is the exception: it selects the
    new image and leaves a selected node selected. *)
Theorem selection_exclusive (st : UiState) (events : list UiEvent) :
  exclusive st.2 →
  Forall (λ event, isImageAdd event = false) events →
  exclusive (foldl uiStep st events).2
  ∧ ∀ image,
      truthyString (Selection.selectedNode (foldl uiStep st events).2) = true →
      truthy (PlacedImage.id image) = true →
      ¬ exclusive (uiStep (foldl uiStep st events) (ImageAdd image)).2.
Proof.
  intros Hstart Hevents. split.
  - revert st Hstart. induction Hevents as [| event events Hevent _ IH]; intros st Hstart.
    + done.
    + cbn [foldl]. apply IH. by apply uiStep_exclusive.
  - intros image Hnode Himage. destruct (foldl uiStep st events) as [images sel].
    unfold exclusive. cbn in *. rewrite Hnode, Himage. done.
Qed.

(** A click on a node, then on an image, then on the canvas. *)
Lemma selection_exclusive_witness :
  exclusive
    (foldl uiStep ([sampleImage], Selection.mk None None)
       [NodeClick (js "A"); ImageClick (js "image-1"); CanvasClick]).2.
Proof.
  refine (proj1 (selection_exclusive ([sampleImage], Selection.mk None None)
                   [NodeClick (js "A"); ImageClick (js "image-1"); CanvasClick] _ _)).
  - done.
  - repeat constructor.
Defined.

Example image_click_deselects_node :
  (foldl uiStep ([sampleImage], Selection.mk None None)
     [NodeClick (js "A"); ImageClick (js "image-1")]).2
  = Selection.mk None (Some (js "image-1")).
Proof. by vm_compute. Qed.

(** ** Placed images *)

Lemma handleImageUpdate_lookup (images : list PlacedImage.t) (id : list N)
    (updates : ImageUpdate.t) (i : nat) :
  handleImageUpdate images id updates !! i =
    (λ image, if decide (PlacedImage.id image = id) then ImageUpdate.apply updates image
              else image) <$> images !! i.
Proof. unfold handleImageUpdate. by rewrite list_lookup_fmap. Qed.

(** X6. Resizing never makes an image smaller than 30 by 30: at the end
    of a resize every image with the resized id is [max(30, width +
    deltaX)] wide and [max(30, height + deltaY)] high, keeps its place,
    id and source, and every other image is untouched; no image is added,
    dropped or reordered. *)
Theorem imageResizeEnd_minimum (images : list PlacedImage.t) (resize : ImageResize.t)
    (deltaX deltaY : Q) :
  let resized := imageResizeEnd images resize deltaX deltaY in
  length resized = length images
  ∧ map PlacedImage.id resized = map PlacedImage.id images
  ∧ ∀ i image, images !! i = Some image →
      ∃ image', resized !! i = Some image'
        ∧ PlacedImage.src image' = PlacedImage.src image
        ∧ PlacedImage.x image' = PlacedImage.x image
        ∧ PlacedImage.y image' = PlacedImage.y image
        ∧ (PlacedImage.id image ≠ ImageResize.id resize → image' = image)
        ∧ (PlacedImage.id image = ImageResize.id resize →
           PlacedImage.width image' = qmax 30 (ImageResize.width resize + deltaX)
           ∧ PlacedImage.height image' = qmax 30 (ImageResize.height resize + deltaY)
           ∧ 30 <= PlacedImage.width image' ∧ 30 <= PlacedImage.height image').
Proof.
  intros resized. subst resized. unfold imageResizeEnd. split_and!.
  - unfold handleImageUpdate. by rewrite length_map.
  - unfold handleImageUpdate. rewrite <- list_fmap_compose. apply list_fmap_ext.
    intros i image _. cbn. by case_decide.
  - intros i image Himage. rewrite handleImageUpdate_lookup, Himage. cbn [fmap option_fmap
      option_map].
    eexists. split; [done |]. case_decide as Hid.
    + cbn. split_and!; try done. intros _. split_and!; try done; apply qmax_le_l.
    + by split_and!.
Qed.

(** X7. Removing an image deletes every image that carries the id and
    keeps the others in order; an update or a removal for an id no image
    carries changes no image. Adding an image and removing it again
    gives back the list of images when the id was not in use, with no
    image selected and the selected node as it was. *)
Theorem handleImageRemove_undoes_add (images : list PlacedImage.t) (sel : Selection.t)
    (image : PlacedImage.t) :
  let added := handleImageAdd images sel image in
  let removed := handleImageRemove added.1 added.2 (PlacedImage.id image) in
  (∀ id sel', (handleImageRemove images sel' id).1
              = filter (λ other, PlacedImage.id other ≠ id) images)
  ∧ (∀ id updates sel', id ∉ map PlacedImage.id images →
       handleImageUpdate images id updates = images
       ∧ (handleImageRemove images sel' id).1 = images)
  ∧ removed.1 = filter (λ other, PlacedImage.id other ≠ PlacedImage.id image) images
  ∧ Selection.selectedImageId removed.2 = None
  ∧ Selection.selectedNode removed.2 = Selection.selectedNode sel
  ∧ (PlacedImage.id image ∉ map PlacedImage.id images → removed.1 = images).
Proof.
  intros added removed.
  assert (∀ id, id ∉ map PlacedImage.id images →
            filter (λ other, PlacedImage.id other ≠ id) images = images) as Hfresh.
  { intros id Hid. induction images as [| other images IH]; [done |].
    rewrite fmap_cons, not_elem_of_cons in Hid. destruct Hid as [Hne Hid].
    rewrite filter_cons_True by done. by rewrite IH. }
  assert (removed.1 = filter (λ other, PlacedImage.id other ≠ PlacedImage.id image) images)
    as Hremoved.
  { subst removed added. unfold handleImageRemove, handleImageAdd. cbn [fst snd].
    rewrite filter_app. rewrite filter_cons_False by (intros Hne; by apply Hne).
    rewrite filter_nil. by rewrite app_nil_r. }
  split_and!.
  - done.
  - intros id updates sel' Hid. split; [| by apply Hfresh].
    unfold handleImageUpdate. rewrite <- (list_fmap_id images) at 2.
    apply list_fmap_ext. intros i other Hother. rewrite decide_False; [done |].
    intros Heq. apply Hid. rewrite <- Heq. apply list_elem_of_fmap. exists other.
    split; [done |]. by eapply list_elem_of_lookup_2.
  - done.
  - subst removed added. unfold handleImageRemove, handleImageAdd. cbn [fst snd].
    cbn [Selection.selectedImageId]. by rewrite decide_True by done.
  - subst removed added. unfold handleImageRemove, handleImageAdd. cbn [fst snd].
    cbn [Selection.selectedImageId]. by rewrite decide_True by done.
  - intros Hid. rewrite Hremoved. by apply Hfresh.
Qed.

(** The sample image added to an empty report and removed again. *)
Lemma handleImageRemove_undoes_add_witness :
  (handleImageRemove (handleImageAdd [] (Selection.mk (Some (js "A")) None) sampleImage).1
     (handleImageAdd [] (Selection.mk (Some (js "A")) None) sampleImage).2
     (PlacedImage.id sampleImage)).1 = [].
Proof.
  apply (handleImageRemove_undoes_add [] (Selection.mk (Some (js "A")) None) sampleImage).
  apply not_elem_of_nil.
Defined.

(** ** The drawn graph *)

(** X8. In the graph the application draws, built from the rows its
    callers have filtered, no node is isolated and no link dangles:
    every node is the source or the target of some link, and both ends of
    every link are positions of nodes. Filtering twice changes nothing,
    and with no valid row the graph is empty. *)
Theorem buildGraph_links_cover_nodes (lower : list N → list N) (rows : list Row.t) :
  let graph := buildGraph lower rows in
  (∀ k node, Graph.nodes graph !! k = Some node →
     ∃ link, link ∈ Graph.links graph
       ∧ (Link.source link = Some k ∨ Link.target link = Some k))
  ∧ (∀ link, link ∈ Graph.links graph →
       ∃ s t, Link.source link = Some s ∧ Link.target link = Some t
         ∧ (s < length (Graph.nodes graph))%nat ∧ (t < length (Graph.nodes graph))%nat)
  ∧ buildGraph lower (validRowsOf rows) = graph
  ∧ (validRowsOf rows = [] → graph = Graph.mk [] []).
Proof.
  intros graph. subst graph. unfold buildGraph, prepareNodesAndLinks.
  cbn [Graph.nodes Graph.links].
  pose proof (validRowsOf_valid rows) as Hvalid.
  rewrite (filter_all_valid _ Hvalid).
  set (valid := validRowsOf rows) in *. split_and!.
  - intros k node [Hid Hname]%nodesOf_lookup.
    assert (Node.name node ∈ nodeNamesOf valid) as Helem
      by by eapply list_elem_of_lookup_2.
    apply nodeNamesOf_elem, endpointsOf_elem in Helem as (_ & row & Hrow & Hend).
    exists (linkOfRow lower (nodeIndexOf (nodesOf valid)) row). split.
    + apply list_elem_of_fmap. by exists row.
    + cbn [linkOfRow Link.source Link.target]. rewrite !nodeIndexOf_lookup.
      destruct Hend as [Hend | Hend]; [left | right]; rewrite <- Hend;
        by apply indexOf_NoDup; [apply nodeNamesOf_NoDup |].
  - intros link (row & -> & Hrow)%list_elem_of_fmap.
    assert (isValidRow row = true) as Hrowvalid.
    { by eapply (proj1 (Forall_forall _ _) Hvalid). }
    destruct (linkOfRow_resolved lower valid row Hrow Hrowvalid)
      as (s & t & Hs & Ht & Hsname & Htname).
    exists s, t. split_and!; [done | done | |].
    + rewrite <- (length_map Node.name), nodesOf_names. by eapply lookup_lt_Some.
    + rewrite <- (length_map Node.name), nodesOf_names. by eapply lookup_lt_Some.
  - unfold validRowsOf at 1 2 3. fold (validRowsOf rows). fold valid.
    by rewrite !(filter_all_valid _ Hvalid).
  - by intros ->.
Qed.

(** ** Link order *)

Example js_arrow : js "->" = [45; 62]%N.
Proof. by vm_compute. Qed.

Lemma arrowFree_tail (c : N) (s : list N) : arrowFree (c :: s) → arrowFree s.
Proof.
  unfold arrowFree, Contains. intros Hfree (pre & post & ->).
  apply Hfree. by exists (c :: pre), post.
Qed.

Lemma arrowFree_head (s : list N) : ¬ arrowFree (45 :: 62 :: s)%N.
Proof.
  unfold arrowFree, Contains. intros Hfree. apply Hfree. exists [], s.
  by rewrite js_arrow.
Qed.

(** Keys tell pairs apart as long as the sources contain no arrow. *)
Lemma linkKey_inj (s s' t t' : list N) :
  arrowFree s → arrowFree s' → linkKey s t = linkKey s' t' → s = s' ∧ t = t'.
Proof.
  unfold linkKey. rewrite js_arrow. revert s'.
  induction s as [| c s IH]; intros s' Hs Hs' Hkey.
  - destruct s' as [| c' [| c2 s']]; cbn in Hkey.
    + by simplify_eq.
    + by simplify_eq.
    + simplify_eq. by destruct (arrowFree_head s').
  - destruct s' as [| c' s'].
    + destruct s as [| c2 s]; cbn in Hkey.
      * by simplify_eq.
      * simplify_eq. by destruct (arrowFree_head s).
    + cbn in Hkey. injection Hkey as -> Hkey.
      destruct (IH s' (arrowFree_tail _ _ Hs) (arrowFree_tail _ _ Hs') Hkey) as [-> ->].
      done.
Qed.

(** The index map of a list keeps, for each key, the last position that
    carries it. *)
Lemma mapOfEntries_last {A} (f : A → list N) (l : list A) (k : list N) :
  match mapOfEntries (imap (λ index x, (f x, index)) l) !! k with
  | Some j =>
      (∃ x, l !! j = Some x ∧ f x = k)
      ∧ ∀ j' y, l !! j' = Some y → f y = k → (j' ≤ j)%nat
  | None => ∀ j' y, l !! j' = Some y → f y ≠ k
  end.
Proof.
  induction l as [| x l IH] using rev_ind.
  { unfold mapOfEntries. cbn [imap foldl]. rewrite lookup_empty.
    intros j' y Hy. by rewrite lookup_nil in Hy. }
  rewrite imap_app. cbn [imap]. rewrite mapOfEntries_snoc. cbn [fst snd].
  rewrite Nat.add_0_r. destruct (decide (f x = k)) as [<- | Hne].
  - rewrite lookup_insert_eq. split.
    + exists x. by rewrite lookup_app_r, Nat.sub_diag by done.
    + intros j' y Hy%lookup_lt_Some _. rewrite length_app in Hy. cbn in Hy. lia.
  - rewrite lookup_insert_ne by done.
    destruct (mapOfEntries (imap (λ index x, (f x, index)) l) !! k) as [j |].
    + destruct IH as [(y & Hy & Hk) Hlast]. split.
      * exists y. by rewrite lookup_app_l by by eapply lookup_lt_Some.
      * intros j' z Hz Hzk. apply lookup_app_Some in Hz as [Hz | [_ Hz]]; [by eapply Hlast |].
        apply list_lookup_singleton_Some in Hz as [_ <-]. done.
    + intros j' z Hz. apply lookup_app_Some in Hz as [Hz | [_ Hz]]; [by eapply IH |].
      by apply list_lookup_singleton_Some in Hz as [_ <-].
Qed.

(** X9. Links are ordered by table position: the order of a link is a
    row position, never [Infinity], for the two names of any row of the
    table, and no row with the same key stands after it. When no source
    name contains the arrow [->], the key stands for the pair of names,
    and the order is the position of the last row that joins the same two
    nodes; a pair that no row joins has order [Infinity]. *)
Theorem getLinkOrder_last_row (validRows : list Row.t) :
  (∀ i row, validRows !! i = Some row →
     ∃ j, getLinkOrder validRows (trim (Row.source row)) (trim (Row.target row))
          = Num (ofNat j)
          ∧ (i ≤ j)%nat ∧ (j < length validRows)%nat)
  ∧ (Forall (λ row, arrowFree (trim (Row.source row))) validRows →
     (∀ i row, validRows !! i = Some row →
        ∃ j last,
          getLinkOrder validRows (trim (Row.source row)) (trim (Row.target row))
          = Num (ofNat j)
          ∧ validRows !! j = Some last ∧ samePair last row ∧ (i ≤ j)%nat
          ∧ ∀ k later, validRows !! k = Some later → samePair later row → (k ≤ j)%nat)
     ∧ (∀ sourceName targetName, arrowFree sourceName →
          (∀ row, row ∈ validRows →
             ¬ (trim (Row.source row) = sourceName ∧ trim (Row.target row) = targetName)) →
          getLinkOrder validRows sourceName targetName = PosInfinity)).
Proof.
  split; [| intros Hfree; split].
  - intros i row Hrow. unfold getLinkOrder, linkOrderIndexOf.
    pose proof (mapOfEntries_last
                  (λ r, linkKey (trim (Row.source r)) (trim (Row.target r))) validRows
                  (linkKey (trim (Row.source row)) (trim (Row.target row)))) as Hlast.
    cbv beta in Hlast. case_match.
    + destruct Hlast as [(last & Hj & _) Hlast]. eexists. split; [done |]. split.
      * by eapply Hlast.
      * by eapply lookup_lt_Some.
    + by destruct (Hlast i row Hrow).
  - intros i row Hrow. unfold getLinkOrder, linkOrderIndexOf.
    pose proof (mapOfEntries_last
                  (λ r, linkKey (trim (Row.source r)) (trim (Row.target r))) validRows
                  (linkKey (trim (Row.source row)) (trim (Row.target row)))) as Hlast.
    cbv beta in Hlast. rewrite Forall_forall in Hfree.
    assert (arrowFree (trim (Row.source row))) as Hrowfree
      by by eapply Hfree, list_elem_of_lookup_2.
    case_match.
    + destruct Hlast as [(last & Hj & Hkey) Hlast]. exists n, last.
      split_and!; [done | done | | by eapply Hlast |].
      * apply linkKey_inj in Hkey; [done | | done].
        by eapply Hfree, list_elem_of_lookup_2.
      * intros k later Hlater [Hs Ht]. eapply Hlast; [done |]. by rewrite Hs, Ht.
    + by destruct (Hlast i row Hrow).
  - intros sourceName targetName Hsource Hnone. unfold getLinkOrder, linkOrderIndexOf.
    pose proof (mapOfEntries_last
                  (λ r, linkKey (trim (Row.source r)) (trim (Row.target r))) validRows
                  (linkKey sourceName targetName)) as Hlast.
    cbv beta in Hlast. rewrite Forall_forall in Hfree. case_match; [| done].
    destruct Hlast as [(last & Hj & Hkey) _].
    apply list_elem_of_lookup_2 in Hj.
    apply linkKey_inj in Hkey; [| by apply Hfree | done].
    by destruct (Hnone last Hj).
Qed.

(** Of the two rows from A to B the later one gives the order. *)
Lemma getLinkOrder_last_row_witness :
  getLinkOrder parallelRows (js "A") (js "C") = PosInfinity.
Proof.
  refine (proj2 (proj2 (getLinkOrder_last_row parallelRows) _) (js "A") (js "C") _ _).
  - repeat constructor; unfold arrowFree; by apply includes_false.
  - unfold arrowFree. by apply includes_false.
  - intros row Hrow [Hs Ht]. unfold parallelRows in Hrow.
    repeat (apply elem_of_cons in Hrow as [-> | Hrow]; [by vm_compute in Ht |]).
    by apply elem_of_nil in Hrow.
Defined.

Example parallel_link_order :
  getLinkOrder parallelRows (js "A") (js "B") = Num 1.
Proof. by vm_compute. Qed.

(** With an arrow in a name two pairs share a key: the link from [A->B]
    to [C] takes the position of the row from [A] to [B->C]. *)
Example arrow_names_collide :
  linkKey (js "A->B") (js "C") = linkKey (js "A") (js "B->C")
  ∧ getLinkOrder arrowRows (js "A->B") (js "C") = Num 1.
Proof. by vm_compute. Qed.

(** ** The move buttons *)

Section availability.

Variable lower : list N → list N.
Variable localeCompare : list N → list N → Q.
Variable sankey :
  Sankey.config → (list N → list N → Q) → list Node.t → list Link.t → list GraphNode.t.

(** The layout returns the nodes it was given, in their order. *)
Hypothesis sankey_names : ∀ config compare nodes links,
  map GraphNode.name (sankey config compare nodes links) = map Node.name nodes.




End availability.


Example move_availability :
  getMoveAvailability toLowerCaseUnits compareByUnits twoLayerLayout defaultSettings
    threeSiblings (parentGroups threeSiblings) (Some (js "A")) = (false, true)
  ∧ getMoveAvailability toLowerCaseUnits compareByUnits twoLayerLayout defaultSettings
      threeSiblings (parentGroups threeSiblings) (Some (js "B")) = (true, true)
  ∧ getMoveAvailability toLowerCaseUnits compareByUnits twoLayerLayout defaultSettings
      threeSiblings (parentGroups threeSiblings) (Some (js "C")) = (true, false)
  ∧ getMoveAvailability toLowerCaseUnits compareByUnits twoLayerLayout defaultSettings
      threeSiblings (parentGroups threeSiblings) (Some (js "P")) = (false, false).
Proof. by vm_compute. Qed.

(** ** Rows in local storage *)

Lemma member_jsonOfRow (row : Row.t) :
  stringMember (js "id") (jsonOfRow row) = Some (Row.id row)
  ∧ stringMember (js "source") (jsonOfRow row) = Some (Row.source row)
  ∧ stringMember (js "target") (jsonOfRow row) = Some (Row.target row)
  ∧ numberMember (js "currentPeriod") (jsonOfRow row)
    = (if Number.isFinite (Row.currentPeriod row) then Some (Row.currentPeriod row)
       else None)
  ∧ numberMember (js "previousPeriod") (jsonOfRow row)
    = (if Number.isFinite (Row.previousPeriod row) then Some (Row.previousPeriod row)
       else None).
Proof.
  unfold stringMember, numberMember, member, jsonOfRow, mapOfEntries, jsonOfNumber.
  cbn [foldl fst snd]. split_and!.
  - rewrite !lookup_insert_ne by (by vm_compute). by rewrite lookup_insert_eq.
  - rewrite !lookup_insert_ne by (by vm_compute). by rewrite lookup_insert_eq.
  - rewrite !lookup_insert_ne by (by vm_compute). by rewrite lookup_insert_eq.
  - rewrite !lookup_insert_ne by (by vm_compute). rewrite lookup_insert_eq.
    by destruct (Number.isFinite (Row.currentPeriod row)).
  - rewrite lookup_insert_eq. by destruct (Number.isFinite (Row.previousPeriod row)).
Qed.

Lemma isStoredRow_jsonOfRow (row : Row.t) :
  isStoredRow (jsonOfRow row) = survivesReload row.
Proof.
  unfold isStoredRow, survivesReload.
  destruct (member_jsonOfRow row) as (-> & -> & -> & -> & ->).
  cbn [jsonTruthy jsonOfRow andb].
  rewrite !bool_decide_eq_true_2 by eauto. cbn [andb].
  by destruct (Number.isFinite (Row.currentPeriod row)),
    (Number.isFinite (Row.previousPeriod row)).
Qed.

Lemma rowOfJson_jsonOfRow (row : Row.t) :
  survivesReload row = true → rowOfJson (jsonOfRow row) = Some row.
Proof.
  unfold survivesReload, rowOfJson. intros [Hcurrent Hprevious]%andb_true_iff.
  destruct (member_jsonOfRow row) as (-> & -> & -> & -> & ->).
  rewrite Hcurrent, Hprevious. cbn. by destruct row.
Qed.

Lemma rowOfJson_stored (item : json) :
  isStoredRow item = true → is_Some (rowOfJson item).
Proof.
  unfold isStoredRow, rowOfJson. rewrite !andb_true_iff, !bool_decide_eq_true.
  intros (((((_ & [id ->]) & [source ->]) & [target ->]) & [current ->]) & [previous ->]).
  by eexists.
Qed.

Lemma reload_saved (rows : list Row.t) :
  omap rowOfJson (filter (λ item, isStoredRow item = true) (map jsonOfRow rows))
  = filter (λ row, survivesReload row = true) rows.
Proof.
  induction rows as [| row rows IH]; [done |].
  cbn [map]. destruct (survivesReload row) eqn:Hrow.
  - rewrite filter_cons_True by by rewrite isStoredRow_jsonOfRow.
    rewrite (filter_cons_True _ _ rows) by done.
    cbn [omap list_omap]. by rewrite rowOfJson_jsonOfRow, IH by done.
  - rewrite filter_cons_False by by rewrite isStoredRow_jsonOfRow, Hrow.
    rewrite (filter_cons_False _ _ rows) by by rewrite Hrow. done.
Qed.

(** X11. Saving the rows and loading them again gives back the rows
    whose two amounts are finite, in their order: a row with an infinite
    or NaN amount is written with [null] and dropped by the load. When
    no row is left, in particular after all rows were deleted, the load
    returns the sample data. Whatever is stored, the load never returns
    an empty table, and every row it returns is a sample row or one of
    the stored items with its five fields. *)
Theorem loadRowsFromStorage_round_trip (rows : list Row.t) :
  loadRowsFromStorage (Some (savedRows rows))
  = (match filter (λ row, survivesReload row = true) rows with
     | [] => sampleData
     | kept => kept
     end)
  ∧ (rows ≠ [] → Forall (λ row, survivesReload row = true) rows →
     loadRowsFromStorage (Some (savedRows rows)) = rows)
  ∧ (∀ parsedRows, loadRowsFromStorage parsedRows ≠ [])
  ∧ (∀ parsedRows row, row ∈ loadRowsFromStorage parsedRows →
       row ∈ sampleData
       ∨ ∃ items item, parsedRows = Some (JArray items) ∧ item ∈ items
           ∧ rowOfJson item = Some row).
Proof.
  assert (loadRowsFromStorage (Some (savedRows rows))
          = match filter (λ row, survivesReload row = true) rows with
            | [] => sampleData
            | kept => kept
            end) as Hload.
  { unfold loadRowsFromStorage, savedRows. cbv zeta.
    pose proof (reload_saved rows) as Hkept.
    assert (length (filter (λ item, isStoredRow item = true) (map jsonOfRow rows))
            = length (filter (λ row, survivesReload row = true) rows)) as Hlen.
    { rewrite <- Hkept. clear Hkept. induction rows as [| row rows IH]; [done |].
      cbn [map]. destruct (isStoredRow (jsonOfRow row)) eqn:Hrow.
      - rewrite filter_cons_True by done. cbn [omap list_omap].
        destruct (rowOfJson_stored _ Hrow) as [r ->]. cbn. by rewrite IH.
      - by rewrite filter_cons_False by by rewrite Hrow. }
    rewrite Hkept, Hlen.
    destruct (filter (λ row, survivesReload row = true) rows) as [| kept rest]; [done |].
    by rewrite bool_decide_eq_true_2 by (cbn; lia). }
  split_and!.
  - exact Hload.
  - intros Hrows Hfinite. rewrite Hload.
    assert (filter (λ row, survivesReload row = true) rows = rows) as ->.
    { clear Hload Hrows. induction Hfinite as [| row rows Hrow _ IH]; [done |].
      by rewrite filter_cons_True, IH by done. }
    by destruct rows.
  - intros parsedRows. unfold loadRowsFromStorage.
    destruct parsedRows as [[| | | | items |] |]; try done. cbv zeta.
    case_bool_decide as Hlen; [| done].
    destruct (filter (λ row, isStoredRow row = true) items) as [| item rest] eqn:Hitems;
      [cbn in Hlen; lia |].
    assert (isStoredRow item = true) as Hitem.
    { assert (item ∈ filter (λ row, isStoredRow row = true) items) as Hin
        by (rewrite Hitems; by left).
      by apply list_elem_of_filter in Hin as [Hin _]. }
    cbn [omap list_omap]. by destruct (rowOfJson_stored _ Hitem) as [r ->].
  - intros parsedRows row. unfold loadRowsFromStorage.
    destruct parsedRows as [[| | | | items |] |]; try by left. cbv zeta.
    case_bool_decide as Hlen; [| by left].
    intros (item & [_ Hitem]%list_elem_of_filter & Hrow)%list_elem_of_omap.
    right. by exists items, item.
Qed.

(** Of the two rows the one with an infinite amount is lost. *)
Lemma loadRowsFromStorage_round_trip_witness :
  loadRowsFromStorage (Some (savedRows parallelRows)) = parallelRows
  ∧ loadRowsFromStorage (Some (savedRows pastedRows))
    = [Row.mk (js "row-1") (js "A") (js "B") (Num 10) (Num 8)].
Proof.
  split.
  - apply (loadRowsFromStorage_round_trip parallelRows); [done | by repeat constructor].
  - by vm_compute.
Defined.

(** ** Migrating twice *)

(** Every order map the first pass files has an entry. *)
Lemma collectOrder_nonempty (parentByNode : gmap (list N) (list N))
    (entries : list (list N * NodeSettings.t)) (acc : gmap (list N) (gmap (list N) Q)) :
  (∀ parent orderMap, acc !! parent = Some orderMap → orderMap ≠ ∅) →
  ∀ parent orderMap,
    foldl (collectOrder parentByNode) acc entries !! parent = Some orderMap → orderMap ≠ ∅.
Proof.
  revert acc. induction entries as [| [name nodeSettings] entries IH]; intros acc Hacc.
  - done.
  - cbn [foldl]. apply IH. unfold collectOrder.
    destruct (NodeSettings.orderY nodeSettings) as [orderY |]; [| done].
    destruct (parentByNode !! name) as [dominant |]; [| done].
    destruct (truthy dominant); [| done].
    intros parent orderMap. destruct (decide (parent = dominant)) as [-> | Hne].
    + rewrite lookup_insert_eq. intros [= <-]. apply insert_non_empty.
    + rewrite lookup_insert_ne by done. apply Hacc.
Qed.

(** The migration keeps every legacy [orderY]. *)
Lemma orderY_migrated (parentByNode : gmap (list N) (list N)) (merged : Settings.t)
    (name : list N) :
  (Settings.nodeSettings (loadSettingsFromStorage parentByNode merged) !! name
     ≫= NodeSettings.orderY)
  = (Settings.nodeSettings merged !! name ≫= NodeSettings.orderY).
Proof.
  rewrite loadSettingsFromStorage_lookup. unfold getNodeSettings.
  destruct (parentOrdersOf parentByNode (Settings.nodeSettings merged) !! name); [| done].
  by destruct (Settings.nodeSettings merged !! name).
Qed.

Lemma legacyRank_ext (parentByNode : gmap (list N) (list N))
    (nodeSettings nodeSettings' : gmap (list N) NodeSettings.t) (parent child : list N) :
  (nodeSettings' !! child ≫= NodeSettings.orderY)
  = (nodeSettings !! child ≫= NodeSettings.orderY) →
  legacyRank parentByNode nodeSettings' parent child
  = legacyRank parentByNode nodeSettings parent child.
Proof.
  unfold legacyRank. intros Horder.
  destruct (nodeSettings' !! child) as [settings' |],
    (nodeSettings !! child) as [settings |]; cbn in *.
  - by rewrite Horder.
  - by rewrite Horder.
  - by rewrite <- Horder.
  - done.
Qed.

Lemma parentOrdersOf_none (parentByNode : gmap (list N) (list N))
    (nodeSettings : gmap (list N) NodeSettings.t) :
  (∀ name settings, nodeSettings !! name = Some settings →
     NodeSettings.orderY settings = None) →
  parentOrdersOf parentByNode nodeSettings = ∅.
Proof.
  intros Hnone. unfold parentOrdersOf.
  assert (Forall (λ entry, NodeSettings.orderY entry.2 = None) (map_to_list nodeSettings))
    as Hentries.
  { apply Forall_forall. intros [name settings] Hentry%elem_of_map_to_list.
    by eapply Hnone. }
  generalize (∅ : gmap (list N) (gmap (list N) Q)).
  induction Hentries as [| [name settings] entries Hentry _ IH]; intros acc; [done |].
  cbn [foldl]. rewrite IH. unfold collectOrder. cbn in Hentry. by rewrite Hentry.
Qed.

(** X12. The migration of legacy order is idempotent: migrating settings
    that were already migrated, with the same dominant parents, returns
    them unchanged, so a reload changes nothing further. Settings in
    which no node carries a legacy [orderY] are returned as they are,
    and the migration keeps every legacy [orderY] where it was. *)
Theorem migration_idempotent (parentByNode : gmap (list N) (list N))
    (merged : Settings.t) :
  let migrated := loadSettingsFromStorage parentByNode merged in
  loadSettingsFromStorage parentByNode migrated = migrated
  ∧ ((∀ name settings, Settings.nodeSettings merged !! name = Some settings →
        NodeSettings.orderY settings = None) →
     migrated = merged)
  ∧ (∀ name,
       (Settings.nodeSettings migrated !! name ≫= NodeSettings.orderY)
       = (Settings.nodeSettings merged !! name ≫= NodeSettings.orderY)).
Proof.
  intros migrated. split_and!.
  - assert (Settings.nodeSettings (loadSettingsFromStorage parentByNode migrated)
            = Settings.nodeSettings migrated) as Hsame.
    { apply map_eq. intros parent. rewrite loadSettingsFromStorage_lookup.
      destruct (parentOrdersOf parentByNode (Settings.nodeSettings migrated) !! parent)
        as [orderMap' |] eqn:Horders'; [| done].
      assert (orderMap' ≠ ∅) as Hnonempty.
      { eapply (collectOrder_nonempty parentByNode); [| exact Horders'].
        intros p m. by rewrite lookup_empty. }
      assert (∀ child,
                orderMap' !! child
                = legacyRank parentByNode (Settings.nodeSettings merged) parent child)
        as Hrank'.
      { intros child.
        rewrite <- (legacyRank_ext parentByNode (Settings.nodeSettings merged)
                      (Settings.nodeSettings migrated)) by apply orderY_migrated.
        rewrite <- parentOrdersOf_rank. by rewrite Horders'. }
      apply map_choose in Hnonempty as (child & order & Hchild).
      rewrite Hrank', <- parentOrdersOf_rank in Hchild.
      destruct (parentOrdersOf parentByNode (Settings.nodeSettings merged) !! parent)
        as [orderMap |] eqn:Horders; [| done].
      assert (∀ child', orderMap' !! child' = orderMap !! child') as Hmaps.
      { intros child'. rewrite Hrank', <- parentOrdersOf_rank. by rewrite Horders. }
      pose proof (loadSettingsFromStorage_lookup parentByNode merged parent) as Hfirst.
      rewrite Horders in Hfirst. cbv zeta in Hfirst. fold migrated in Hfirst.
      cbv zeta. unfold getNodeSettings at 1 2. rewrite Hfirst.
      set (base := default ∅ (NodeSettings.childrenOrder (getNodeSettings merged parent))).
      cbn [default from_option id NodeSettings.childrenOrder NodeSettings.withChildrenOrder].
      f_equal.
      assert (foldl fillGap (foldl fillGap base (map_to_list orderMap))
                (map_to_list orderMap')
              = foldl fillGap base (map_to_list orderMap)) as ->.
      { apply map_eq. intros child'. rewrite fillGap_lookup.
        destruct (foldl fillGap base (map_to_list orderMap) !! child') eqn:Hmerged;
          [done |].
        rewrite list_to_map_to_list, Hmaps.
        rewrite fillGap_lookup, list_to_map_to_list in Hmerged.
        by destruct (base !! child'). }
      done. }
    clearbody migrated.
    transitivity
      (Settings.withNodeSettings
         (Settings.nodeSettings (loadSettingsFromStorage parentByNode migrated)) migrated);
      [done |].
    rewrite Hsame. by destruct migrated.
  - intros Hnone. subst migrated. unfold loadSettingsFromStorage.
    rewrite parentOrdersOf_none by done. rewrite map_to_list_empty. cbn [foldl].
    by destruct merged.
  - intros name. apply orderY_migrated.
Qed.

(** The legacy settings, migrated twice. *)
Lemma migration_idempotent_witness :
  rankUnder
    (loadSettingsFromStorage (ParentGroups.parentByNode (parentGroups siblingRows))
       (loadSettingsFromStorage (ParentGroups.parentByNode (parentGroups siblingRows))
          legacySettings)) (js "P") (js "B") = Some 0.
Proof.
  destruct (migration_idempotent (ParentGroups.parentByNode (parentGroups siblingRows))
              legacySettings) as (-> & _).
  by vm_compute.
Defined.

(** ** A new table row *)

Example trim_empty : trim [] = [].
Proof. done. Qed.

(** X13. A row added with the table's button is invisible to the chart
    and flagged by the balance summary: the valid rows, the drawn graph,
    the parent groups and the node balances stay as they were, the
    summary lists one more issue, a missing name in the new last line,
    and so reports an error. Removing the row by its id gives back the
    table when no other row has that id. *)
Theorem addRow_flagged_not_drawn (lower : list N → list N) (now : list N)
    (rows : list Row.t) :
  let added := DataTable.addRow now rows in
  validRowsOf added = validRowsOf rows
  ∧ buildGraph lower added = buildGraph lower rows
  ∧ parentGroups added = parentGroups rows
  ∧ Balance.nodeBalances added = Balance.nodeBalances rows
  ∧ Balance.issues added = Balance.issues rows ++ [MissingEndpoint (length rows + 1)]
  ∧ Balance.isOk added = false
  ∧ (Forall (λ row, Row.id row ≠ js "row-" ++ now) rows →
     DataTable.removeRow (js "row-" ++ now) added = rows).
Proof.
  intros added. subst added. unfold DataTable.addRow.
  set (blank := Row.mk (js "row-" ++ now) [] [] (Num 0) (Num 0)).
  assert (validRowsOf (rows ++ [blank]) = validRowsOf rows) as Hvalid.
  { unfold validRowsOf. rewrite filter_app, filter_cons_False by done.
    by rewrite filter_nil, app_nil_r. }
  assert (Balance.aggregate (rows ++ [blank])
          = ((Balance.aggregate rows).1,
             (Balance.aggregate rows).2 ++ [MissingEndpoint (length rows + 1)]))
    as Haggregate.
  { rewrite aggregate_snoc. by destruct (Balance.aggregate rows). }
  assert (Balance.issues (rows ++ [blank])
          = Balance.issues rows ++ [MissingEndpoint (length rows + 1)]) as Hissues.
  { unfold Balance.issues. by rewrite Haggregate. }
  split_and!.
  - done.
  - unfold buildGraph. by rewrite Hvalid.
  - unfold parentGroups. by rewrite parentScan_snoc, parentStep_skip.
  - unfold Balance.nodeBalances. by rewrite Haggregate.
  - done.
  - unfold Balance.isOk. rewrite Hissues, length_app. cbn [length].
    rewrite (bool_decide_eq_false_2 (_ + 1 = 0)%nat) by lia.
    by rewrite andb_false_r.
  - intros Hfresh. unfold DataTable.removeRow.
    rewrite filter_app, filter_cons_False by (intros Hne; by apply Hne).
    rewrite filter_nil, app_nil_r. clear -Hfresh.
    induction Hfresh as [| row rows Hrow _ IH]; [done |].
    by rewrite filter_cons_True, IH by done.
Qed.

(** A row added to the two balanced rows and removed again. *)
Lemma addRow_flagged_not_drawn_witness :
  DataTable.removeRow (js "row-" ++ js "1700000000000")
    (DataTable.addRow (js "1700000000000") fanOutRows) = fanOutRows.
Proof.
  apply (addRow_flagged_not_drawn toLowerCaseUnits (js "1700000000000") fanOutRows).
  repeat constructor; by vm_compute.
Defined.

(** ** Row problems *)






Example issues_of_mixed_rows :
  Balance.issues mixedRows
  = [MissingEndpoint 3; InvalidNumbers 4; NegativeValues 5].
Proof. by vm_compute. Qed.

(** ** Conservation of flow *)
























Example leak_shows_at_the_edges :
  Balance.sourceTotals shortRows = Totals.mk (Num (0 + 10)) (Num (0 + 8))
  ∧ Balance.sinkTotals shortRows = Totals.mk (Num (0 + (19 # 2))) (Num (0 + 8))
  ∧ surplus NodeBalance.currentIn NodeBalance.currentOut (Balance.intermediateNodes shortRows)
    == 1 # 2
  ∧ Balance.edgeMismatch shortRows = true.
Proof. by vm_compute. Qed.

(** ** Automatic layout *)

Section autoLayout.

Variable lower : list N → list N.
Variable localeCompare : list N → list N → Q.
Variable sankeyUnsorted : Sankey.config → list Node.t → list Link.t → list GraphNode.t.







End autoLayout.


Example auto_layout_ranks :
  getRawOffset draggedSettings (js "B") None = Offset.mk 40 (-25)
  ∧ rankUnder
      (handleAutoLayout toLowerCaseUnits compareByUnits twoLayerUnsorted draggedSettings
         threeSiblings (parentGroups threeSiblings)) (js "P") (js "C") = Some 2
  ∧ NodeSettings.color
      (getNodeSettings
         (handleAutoLayout toLowerCaseUnits compareByUnits twoLayerUnsorted draggedSettings
            threeSiblings (parentGroups threeSiblings)) (js "P")) = Some (js "#ff0000").
Proof. by vm_compute. Qed.

(** ** Pasting into the table *)

Lemma trimStart_noLeading (s : list N) : noLeadingSpace (trimStart s).
Proof.
  induction s as [| c s IH]; [done |]. cbn [trimStart].
  by destruct (isWhiteSpace c) eqn:Hc.
Qed.

Lemma trimStart_id (s : list N) : noLeadingSpace s → trimStart s = s.
Proof. destruct s as [| c s]; [done |]. cbn. by intros ->. Qed.

Lemma trimStart_suffix (s : list N) : ∃ spaces, s = spaces ++ trimStart s.
Proof.
  induction s as [| c s [spaces IH]]; [by exists [] |]. cbn [trimStart].
  destruct (isWhiteSpace c); [| by exists []].
  exists (c :: spaces). cbn. by rewrite <- IH.
Qed.

Lemma trimEnd_prefix (s : list N) : ∃ spaces, s = trimEnd s ++ spaces.
Proof.
  unfold trimEnd. destruct (trimStart_suffix (reverse s)) as [spaces Hs].
  exists (reverse spaces). rewrite <- reverse_app, <- Hs. by rewrite reverse_involutive.
Qed.

Lemma trimEnd_noLeading (s : list N) : noLeadingSpace s → noLeadingSpace (trimEnd s).
Proof.
  destruct (trimEnd_prefix s) as [spaces Hs]. intros Hleading.
  destruct (trimEnd s) as [| c rest]; [done |]. by rewrite Hs in Hleading.
Qed.

(** Trimming twice is trimming once. *)
Lemma trim_idempotent (s : list N) : trim (trim s) = trim s.
Proof.
  assert (noLeadingSpace (trim s)) as Hleading
    by apply trimEnd_noLeading, trimStart_noLeading.
  assert (noLeadingSpace (reverse (trim s))) as Htrailing.
  { unfold trim, trimEnd. rewrite reverse_involutive. apply trimStart_noLeading. }
  unfold trim at 1. rewrite (trimStart_id _ Hleading). unfold trimEnd.
  by rewrite (trimStart_id _ Htrailing), reverse_involutive.
Qed.

Lemma splitOn_length (separator : N) (s : list N) :
  length (splitOn separator s) = S (length (filter (λ c, c = separator) s)).
Proof.
  induction s as [| c s IH]; [done |]. cbn [splitOn].
  destruct (N.eqb_spec c separator) as [-> | Hne].
  - rewrite filter_cons_True by done. cbn [length]. by rewrite IH.
  - rewrite filter_cons_False by done.
    destruct (splitOn separator s) as [| first rest]; [done |]. by rewrite <- IH.
Qed.

Lemma splitOn_single (separator : N) (s : list N) :
  separator ∉ s → splitOn separator s = [s].
Proof.
  induction s as [| c s IH]; [done |]. intros [Hc Hs]%not_elem_of_cons.
  cbn [splitOn]. destruct (N.eqb_spec c separator) as [-> | Hne]; [done |].
  by rewrite IH.
Qed.

Lemma filter_nil_not_elem (separator : N) (s : list N) :
  length (filter (λ c, c = separator) s) = 0%nat ↔ separator ∉ s.
Proof.
  rewrite length_zero_iff_nil. split.
  - intros Hnil Hin.
    assert (separator ∈ filter (λ c, c = separator) s) as Hfilter
      by by apply list_elem_of_filter.
    rewrite Hnil in Hfilter. by apply elem_of_nil in Hfilter.
  - intros Hout. destruct (filter (λ c, c = separator) s) as [| c rest] eqn:Hfilter;
      [done |].
    assert (c ∈ filter (λ c, c = separator) s) as Hin by (rewrite Hfilter; by left).
    apply list_elem_of_filter in Hin as [-> Hin]. done.
Qed.

Lemma includes_unit (s : list N) (c : N) : includes s [c] = true ↔ c ∈ s.
Proof.
  rewrite includes_spec. unfold Contains. split.
  - intros (pre & post & ->). apply elem_of_app. right. by left.
  - intros (pre & post & ->)%list_elem_of_split. by exists pre, post.
Qed.

Lemma orZero_not_NaN (x : number) : orZero x ≠ NaN.
Proof. destruct x as [q | | |]; cbn; try done. by destruct (Qeq_bool q 0). Qed.

(** X17. A paste is taken over by the table exactly when the trimmed
    text has a line break or a tab. The new table is then the old rows
    that have a source or a target, followed by one new row for each
    line of the trimmed text; the names of every new row are stored
    trimmed and its amounts are never NaN, whatever [parseFloat]
    returns. *)
Theorem handlePaste_rows (parseFloat : list N → number) (now pastedData : list N)
    (rows : list Row.t) :
  let lines := splitOn 10 (trim pastedData) in
  (handlePaste parseFloat now pastedData rows = None ↔
   (10%N ∉ trim pastedData) ∧ (9%N ∉ trim pastedData))
  ∧ length lines = S (length (filter (λ c, c = 10%N) (trim pastedData)))
  ∧ ∀ table, handlePaste parseFloat now pastedData rows = Some table →
      ∃ pasted,
        table
        = filter (λ r, truthy (Row.source r) || truthy (Row.target r) = true) rows ++ pasted
        ∧ length pasted = length lines
        ∧ ∀ row, row ∈ pasted →
            trim (Row.source row) = Row.source row
            ∧ trim (Row.target row) = Row.target row
            ∧ Row.currentPeriod row ≠ NaN
            ∧ Row.previousPeriod row ≠ NaN.
Proof.
  intros lines. split_and!.
  - unfold handlePaste. fold lines.
    pose proof (splitOn_length 10 (trim pastedData)) as Hlength. fold lines in Hlength.
    destruct (decide (10%N ∈ trim pastedData)) as [Hbreak | Hbreak].
    + rewrite bool_decide_eq_true_2.
      * cbn [orb]. split; [done | by intros [? _]].
      * rewrite Hlength.
        assert (length (filter (λ c, c = 10%N) (trim pastedData)) ≠ 0%nat) as Hsome
          by (intros Hnone; by apply filter_nil_not_elem in Hnone).
        lia.
    + subst lines. rewrite (splitOn_single _ _ Hbreak). cbn [length head default from_option id].
      rewrite bool_decide_eq_false_2 by lia. cbn [orb].
      destruct (includes (trim pastedData) [9%N]) eqn:Htab.
      * apply includes_unit in Htab. split; [done | by intros [_ ?]].
      * split; [| done]. intros _. split; [done |].
        intros Hin%includes_unit. congruence.
  - apply splitOn_length.
  - intros table. unfold handlePaste. fold lines. case_match; [| done].
    intros [= <-]. eexists. split; [done |]. split; [by rewrite length_imap |].
    intros row (index & Hrow)%list_elem_of_lookup. rewrite list_lookup_imap in Hrow.
    destruct (lines !! index) as [line |]; [| done]. cbn in Hrow.
    injection Hrow as <-. unfold pastedRow, pastedNumber.
    cbn [Row.source Row.target Row.currentPeriod Row.previousPeriod]. split_and!.
    + destruct (splitOn 9 line !! 0%nat); cbn; [apply trim_idempotent | done].
    + destruct (splitOn 9 line !! 1%nat); cbn; [apply trim_idempotent | done].
    + apply orZero_not_NaN.
    + apply orZero_not_NaN.
Qed.

(** Two lines from a spreadsheet pasted over the starter row; the
    second line has no amounts. *)
Example paste_two_lines :
  handlePaste parseTwoTexts (js "17")
    (js "A" ++ [9%N] ++ js " B " ++ [9%N] ++ js "1,5" ++ [9%N] ++ js "Infinity" ++ [10%N]
     ++ js "C" ++ [9%N] ++ js "D" ++ [10%N])
    [Row.mk (js "row-1") [] [] (Num 0) (Num 0)]
  = Some [Row.mk (js "row-17-0") (js "A") (js "B") (Num (3 # 2)) PosInfinity;
          Row.mk (js "row-17-1") (js "C") (js "D") (Num 0) (Num 0)].
Proof. by vm_compute. Qed.

(** ** The first revision: moving a node renumbers its column *)

Lemma renumberColumn_snoc (order : list (list N)) (x : list N)
    (m : gmap (list N) NodeSettings.t) :
  V1.renumberColumn (order ++ [x]) m
  = <[x := V1.withOrderY (ofNat (length order))
             (default NodeSettings.empty (V1.renumberColumn order m !! x))]>
      (V1.renumberColumn order m).
Proof.
  unfold V1.renumberColumn. rewrite imap_app, foldl_app. cbn [imap foldl fst snd].
  by rewrite Nat.add_0_r.
Qed.

Lemma renumberColumn_other (order : list (list N)) (x : list N)
    (m : gmap (list N) NodeSettings.t) :
  x ∉ order → V1.renumberColumn order m !! x = m !! x.
Proof.
  induction order as [| y order IH] using rev_ind; intros Hx; [done |].
  rewrite renumberColumn_snoc. apply not_elem_of_app in Hx as [Hx Hy].
  rewrite lookup_insert_ne; [by apply IH |].
  intros ->. apply Hy. by left.
Qed.

Lemma renumberColumn_lookup (order : list (list N)) (i : nat) (x : list N)
    (m : gmap (list N) NodeSettings.t) :
  NoDup order → order !! i = Some x →
  V1.renumberColumn order m !! x
  = Some (V1.withOrderY (ofNat i) (default NodeSettings.empty (m !! x))).
Proof.
  induction order as [| y order IH] using rev_ind; intros Hnd Hi; [done |].
  rewrite renumberColumn_snoc. apply NoDup_app in Hnd as (Hnd & Hfresh & _).
  apply lookup_app_Some in Hi as [Hi | [Hge Hi]].
  - rewrite lookup_insert_ne; [by apply IH |].
    intros ->. apply (Hfresh x); [by eapply list_elem_of_lookup_2 | by left].
  - apply list_lookup_singleton_Some in Hi as [Hi ->].
    rewrite lookup_insert_eq. rewrite renumberColumn_other.
    + do 3 f_equal. lia.
    + intros Hin. apply (Hfresh x); [done | by left].
Qed.

Section first_revision.

Variable lower : list N → list N.
Variable localeCompare : list N → list N → Q.
Variable sankey :
  Sankey.config → (list N → list N → Q) → list Node.t → list Link.t → list GraphNode.t.

(** The layout returns the nodes it was given, in their order. *)
Hypothesis sankey_names : ∀ config compare nodes links,
  map GraphNode.name (sankey config compare nodes links) = map Node.name nodes.

Lemma layoutColumns_v1_NoDup (settings : Settings.t) (rows : list Row.t)
    (key : Z) (columnList : list ColumnItem.t) :
  LayoutColumns.columns (V1.layoutColumns lower localeCompare sankey settings rows) !! key
    = Some columnList →
  NoDup (map ColumnItem.name columnList).
Proof.
  unfold V1.layoutColumns. destruct (validRowsOf rows) as [| row valid].
  { unfold LayoutColumns.empty. cbn [LayoutColumns.columns]. by rewrite lookup_empty. }
  cbv zeta. cbn [LayoutColumns.columns]. rewrite lookup_fmap_Some.
  intros (raw & <- & Hraw). rewrite sortBy_Permutation.
  pose proof (placeNode_columns settings
    (sankey (sankeyConfig settings)
       (V1.nodeSort localeCompare settings
          (Graph.nodes (prepareNodesAndLinks lower (row :: valid))))
       (Graph.nodes (prepareNodesAndLinks lower (row :: valid)))
       (Graph.links (prepareNodesAndLinks lower (row :: valid))))
    LayoutColumns.empty key) as Hnames.
  rewrite Hraw in Hnames. cbn [default LayoutColumns.empty LayoutColumns.columns] in Hnames.
  rewrite lookup_empty in Hnames. cbn [default map app] in Hnames.
  change (id raw) with raw in Hnames. rewrite Hnames.
  eapply sublist_NoDup; [| apply fmap_sublist, sublist_filter].
  rewrite sankey_names. unfold prepareNodesAndLinks. cbn [Graph.nodes].
  rewrite nodesOf_names. apply nodeNamesOf_NoDup.
Qed.

(** X18. In the first revision of App.tsx a move up or down exchanges
    the node with its neighbouring sibling in the order of the whole
    column and writes that order into [orderY]: every node of the column
    gets its new position as [orderY] and keeps its other settings,
    nodes outside the column keep theirs, and the comparator that this
    revision hands to the layout then puts the nodes of the column in
    the new order. Proved for any layout generator that returns the
    nodes it was given. *)
Theorem moveNodeByDirection_v1_renumbers (settings : Settings.t) (rows : list Row.t)
    (pg : ParentGroups.t) (nodeName parent swapWith : list N) (siblings : list (list N))
    (key : Z) (columnList : list ColumnItem.t) (idx t : nat) (direction : Direction) :
  ParentGroups.parentByNode pg !! nodeName = Some parent →
  truthy parent = true →
  ParentGroups.parentChildren pg !! parent = Some siblings →
  (1 < length siblings)%nat →
  LayoutColumns.columnByName (V1.layoutColumns lower localeCompare sankey settings rows)
    !! nodeName = Some key →
  LayoutColumns.columns (V1.layoutColumns lower localeCompare sankey settings rows) !! key
    = Some columnList →
  (1 < length columnList)%nat →
  indexOf nodeName (siblingsInColumn siblings columnList) = Some idx →
  match direction with up => (t + 1)%nat = idx | down => t = (idx + 1)%nat end →
  siblingsInColumn siblings columnList !! t = Some swapWith →
  let result :=
    V1.moveNodeByDirection lower localeCompare sankey settings rows pg nodeName direction in
  let columnOrder := map ColumnItem.name columnList in
  ∃ updated indexA indexB,
    columnOrder !! indexA = Some nodeName
    ∧ columnOrder !! indexB = Some swapWith
    ∧ swapped columnOrder updated indexA indexB
    ∧ (∀ i name, updated !! i = Some name →
         getNodeSettings result name
         = V1.withOrderY (ofNat i) (getNodeSettings settings name))
    ∧ (∀ name, name ∉ columnOrder →
         Settings.nodeSettings result !! name = Settings.nodeSettings settings !! name)
    ∧ (∀ nodes i j a b, updated !! i = Some a → updated !! j = Some b → (i < j)%nat →
         V1.nodeSort localeCompare result nodes a b < 0
         ∧ 0 < V1.nodeSort localeCompare result nodes b a)
    ∧ sankeyConfig result = sankeyConfig settings.
Proof.
  intros Hparent Htruthy Hsiblings Hmany Hkey Hcolumn Hwide Hidx Hdir Hswap result
    columnOrder.
  pose proof (layoutColumns_v1_NoDup _ _ _ _ Hcolumn) as Hnd. fold columnOrder in Hnd.
  unfold siblingsInColumn in Hidx, Hswap. fold columnOrder in Hidx, Hswap.
  set (siblingOrder := filter (λ name, name ∈ siblings) columnOrder) in *.
  assert (NoDup siblingOrder) as Hnds by by apply NoDup_filter.
  pose proof (indexOf_Some _ _ _ Hidx) as Hnode.
  assert (nodeName ∈ columnOrder) as HinA.
  { apply list_elem_of_lookup_2 in Hnode. by apply list_elem_of_filter in Hnode as [_ ?]. }
  assert (swapWith ∈ columnOrder) as HinB.
  { apply list_elem_of_lookup_2 in Hswap. by apply list_elem_of_filter in Hswap as [_ ?]. }
  destruct (indexOf_is_Some _ _ HinA) as [indexA HA].
  destruct (indexOf_is_Some _ _ HinB) as [indexB HB].
  pose proof (indexOf_Some _ _ _ HA) as HlookA.
  pose proof (indexOf_Some _ _ _ HB) as HlookB.
  assert (idx ≠ t) as Hne by (destruct direction; lia).
  assert (nodeName ≠ swapWith) as Hnames.
  { intros ->. apply Hne. by eapply NoDup_lookup. }
  assert (indexA ≠ indexB) as Hindices by (intros ->; congruence).
  assert (t < length siblingOrder)%nat as Ht by by eapply lookup_lt_Some.
  set (updated := <[indexB := nodeName]> (<[indexA := swapWith]> columnOrder)).
  assert (result
          = Settings.withNodeSettings
              (V1.renumberColumn updated (Settings.nodeSettings settings)) settings)
    as Hresult.
  { subst result. unfold V1.moveNodeByDirection. cbv zeta.
    rewrite Hparent. cbn [mbind option_bind]. rewrite option_guard_True by done.
    rewrite Hsiblings. cbn [mbind option_bind]. rewrite option_guard_True by done.
    rewrite Hkey. cbn [mbind option_bind]. rewrite Hcolumn. cbn [mbind option_bind].
    rewrite option_guard_True by done. fold columnOrder. fold siblingOrder.
    rewrite Hidx. cbn [mbind option_bind].
    replace (match direction with
             | up => (Z.of_nat idx - 1)%Z
             | down => (Z.of_nat idx + 1)%Z
             end) with (Z.of_nat t) by (destruct direction; lia).
    rewrite option_guard_True by lia. rewrite Nat2Z.id, Hswap. cbn [mbind option_bind].
    rewrite HA. cbn [mbind option_bind]. rewrite HB. done. }
  assert (swapped columnOrder updated indexA indexB) as Hswapped
    by by apply insert_swapped.
  assert (indexA < length columnOrder)%nat as HlenA by by eapply lookup_lt_Some.
  assert (indexB < length columnOrder)%nat as HlenB by by eapply lookup_lt_Some.
  destruct (swapped_Permutation columnOrder updated indexA indexB Hnd HlenA HlenB Hswapped)
    as [Hnd' Hperm].
  assert (∀ i name, updated !! i = Some name →
            getNodeSettings result name
            = V1.withOrderY (ofNat i) (getNodeSettings settings name)) as Hplaces.
  { intros i name Hi. rewrite Hresult. unfold getNodeSettings at 1.
    cbn [Settings.nodeSettings Settings.withNodeSettings].
    by rewrite (renumberColumn_lookup updated i name _ Hnd' Hi). }
  exists updated, indexA, indexB. split_and!; [done | done | done | done | | | ].
  - intros name Hname. rewrite Hresult.
    cbn [Settings.nodeSettings Settings.withNodeSettings].
    apply renumberColumn_other. by rewrite Hperm.
  - intros nodes i j a b Hi Hj Hlt.
    assert (∀ k name, updated !! k = Some name →
              V1.getOrder result nodes name = ofNat k) as Horder.
    { intros k name Hk. unfold V1.getOrder.
      pose proof (Hplaces k name Hk) as Hsettings. unfold getNodeSettings at 1 in Hsettings.
      destruct (Settings.nodeSettings result !! name) as [nodeSettings |] eqn:Hlookup.
      - cbn in Hsettings. subst nodeSettings. done.
      - cbn in Hsettings. by destruct (getNodeSettings settings name). }
    unfold V1.nodeSort. rewrite (Horder i a Hi), (Horder j b Hj). cbv zeta.
    assert (Qeq_bool (ofNat i - ofNat j) 0 = false) as ->.
    { apply not_true_is_false. rewrite ofNat_diff_zero. lia. }
    assert (Qeq_bool (ofNat j - ofNat i) 0 = false) as ->.
    { apply not_true_is_false. rewrite ofNat_diff_zero. lia. }
    cbn [negb]. split; [by apply ofNat_diff_neg | by apply ofNat_diff_pos].
  - by rewrite Hresult.
Qed.

End first_revision.

(** B, the second of three siblings, moves up past A. *)
Lemma moveNodeByDirection_v1_renumbers_witness :
  ∃ updated indexA indexB,
    [js "A"; js "B"; js "C"] !! indexA = Some (js "B")
    ∧ [js "A"; js "B"; js "C"] !! indexB = Some (js "A")
    ∧ swapped [js "A"; js "B"; js "C"] updated indexA indexB.
Proof.
  pose (columnList :=
          default []
            (LayoutColumns.columns
               (V1.layoutColumns toLowerCaseUnits compareByUnits twoLayerLayout
                  defaultSettings threeSiblings) !! 1%Z)).
  destruct (moveNodeByDirection_v1_renumbers toLowerCaseUnits compareByUnits twoLayerLayout
              twoLayerLayout_names defaultSettings threeSiblings
              (parentGroups threeSiblings) (js "B") (js "P") (js "A")
              [js "A"; js "B"; js "C"] 1%Z columnList 1 0 up)
    as (updated & indexA & indexB & HA & HB & Hswapped & _).
  - by vm_compute.
  - by vm_compute.
  - by vm_compute.
  - cbn. lia.
  - by vm_compute.
  - by vm_compute.
  - vm_compute. lia.
  - by vm_compute.
  - done.
  - by vm_compute.
  - assert (map ColumnItem.name columnList = [js "A"; js "B"; js "C"]) as Hcolumn
      by by vm_compute.
    rewrite Hcolumn in HA, HB, Hswapped. by exists updated, indexA, indexB.
Defined.

Example first_revision_move :
  NodeSettings.orderY
    (getNodeSettings
       (V1.moveNodeByDirection toLowerCaseUnits compareByUnits twoLayerLayout
          defaultSettings threeSiblings (parentGroups threeSiblings) (js "B") up) (js "B"))
  = Some 0
  ∧ NodeSettings.orderY
      (getNodeSettings
         (V1.moveNodeByDirection toLowerCaseUnits compareByUnits twoLayerLayout
            defaultSettings threeSiblings (parentGroups threeSiblings) (js "B") up)
         (js "A"))
    = Some 1.
Proof. by vm_compute. Qed.

(** ** Children of a parent *)

Lemma parentStep_parentChildren (st : ParentScan.t) (row : Row.t) :
  truthy (trim (Row.source row)) && truthy (trim (Row.target row)) = true →
  ParentScan.parentChildren (parentStep st row) =
    if decide (trim (Row.target row)
               ∈ default [] (ParentScan.parentChildren st !! trim (Row.source row)))
    then ParentScan.parentChildren st
    else <[trim (Row.source row) :=
             default [] (ParentScan.parentChildren st !! trim (Row.source row))
             ++ [trim (Row.target row)]]> (ParentScan.parentChildren st).
Proof.
  intros [Hs Ht]%andb_true_iff. unfold parentStep. rewrite Hs, Ht. simpl.
  by destruct (ParentScan.bestValue st !! trim (Row.target row)) as [best |];
    [destruct (Number.gt (parentValue row) best) |].
Qed.

Lemma parentStep_children (st : ParentScan.t) (row : Row.t) (parent : list N) :
  default [] (ParentScan.parentChildren (parentStep st row) !! parent) =
    if decide (feeds row (trim (Row.target row)) ∧ trim (Row.source row) = parent)
    then setAdd (trim (Row.target row)) (default [] (ParentScan.parentChildren st !! parent))
    else default [] (ParentScan.parentChildren st !! parent).
Proof.
  destruct (truthy (trim (Row.source row)) && truthy (trim (Row.target row))) eqn:Hnames.
  - rewrite parentStep_parentChildren by done.
    apply andb_true_iff in Hnames as [Hs Ht].
    destruct (decide (trim (Row.source row) = parent)) as [<- | Hne].
    + destruct (decide (feeds row (trim (Row.target row))
                        ∧ trim (Row.source row) = trim (Row.source row))) as [_ | Hno];
        [| destruct Hno; by unfold feeds].
      unfold setAdd. case_decide; [done |]. by rewrite lookup_insert_eq.
    + destruct (decide (feeds row (trim (Row.target row))
                        ∧ trim (Row.source row) = parent)) as [[_ Hyes] | _]; [done |].
      case_decide; [done |]. by rewrite lookup_insert_ne.
  - rewrite parentStep_skip by done. rewrite decide_False; [done |].
    intros [(Hs & Ht & _) _]. by rewrite Hs, Ht in Hnames.
Qed.

Lemma targetsOf_snoc (parent : list N) (rows : list Row.t) (row : Row.t) :
  targetsOf parent (rows ++ [row]) =
    targetsOf parent rows
    ++ (if decide (feeds row (trim (Row.target row)) ∧ trim (Row.source row) = parent)
        then [trim (Row.target row)] else []).
Proof.
  unfold targetsOf. rewrite filter_app, map_app. f_equal.
  case_decide; [by rewrite filter_cons_True | by rewrite filter_cons_False].
Qed.

Lemma parentScan_children (rows : list Row.t) (parent : list N) :
  default [] (ParentScan.parentChildren (parentScan rows) !! parent)
  = foldl (λ s x, setAdd x s) [] (targetsOf parent rows).
Proof.
  induction rows as [| row rows IH] using rev_ind.
  - unfold parentScan. cbn. by rewrite lookup_empty.
  - rewrite parentScan_snoc, parentStep_children, targetsOf_snoc, IH.
    case_decide; [by rewrite dedup_snoc | by rewrite app_nil_r].
Qed.

Lemma targetsOf_elem (parent child : list N) (rows : list Row.t) :
  child ∈ targetsOf parent rows ↔
    ∃ row, row ∈ rows ∧ feeds row child ∧ trim (Row.source row) = parent.
Proof.
  unfold targetsOf. rewrite list_elem_of_fmap. split.
  - intros (row & -> & [[Hfeeds Hsource] Hrow]%list_elem_of_filter). eauto.
  - intros (row & Hrow & Hfeeds & Hsource). exists row.
    pose proof Hfeeds as (_ & _ & <-). split; [done |]. by apply list_elem_of_filter.
Qed.

(** X19. The children of a parent in the parent groups are the distinct
    trimmed targets of the rows that leave the parent with both names
    given, in the order in which they are first met, whatever the
    amounts; in particular every node is among the children of its
    dominant parent, and a child fed by two parents is among the
    children of both. *)
Theorem parentGroups_children (rows : list Row.t) (parent : list N) :
  let children := default [] (ParentGroups.parentChildren (parentGroups rows) !! parent) in
  NoDup children
  ∧ (∀ child, child ∈ children ↔
       ∃ row, row ∈ rows ∧ feeds row child ∧ trim (Row.source row) = parent)
  ∧ (∀ a b, firstSeenBefore children a b ↔ firstSeenBefore (targetsOf parent rows) a b)
  ∧ (∀ child, ParentGroups.parentByNode (parentGroups rows) !! child = Some parent →
       child ∈ children).
Proof.
  intros children.
  assert (children = foldl (λ s x, setAdd x s) [] (targetsOf parent rows)) as ->.
  { subst children. unfold parentGroups. cbn [ParentGroups.parentChildren].
    apply parentScan_children. }
  assert (∀ child, child ∈ foldl (λ s x, setAdd x s) [] (targetsOf parent rows) ↔
            ∃ row, row ∈ rows ∧ feeds row child ∧ trim (Row.source row) = parent)
    as Hchildren.
  { intros child. by rewrite dedup_elem, targetsOf_elem. }
  split_and!.
  - apply dedup_NoDup.
  - done.
  - intros a b. apply dedup_order.
  - intros child (i & row & Hrow & Hfeeds & Hsource & _)%parentByNode_is_dominant.
    apply Hchildren. exists row. split; [by eapply list_elem_of_lookup_2 | done].
Qed.

Example shared_child :
  ParentGroups.parentByNode (parentGroups sharedChildRows) !! js "C" = Some (js "Q")
  ∧ ParentGroups.parentChildren (parentGroups sharedChildRows) !! js "P"
    = Some [js "A"; js "C"]
  ∧ ParentGroups.parentChildren (parentGroups sharedChildRows) !! js "Q" = Some [js "C"].
Proof. by vm_compute. Qed.

(** ** The sibling order before any move *)

Section default_order.

Variable lower : list N → list N.
Variable localeCompare : list N → list N → Q.
Variable sankey :
  Sankey.config → (list N → list N → Q) → list Node.t → list Link.t → list GraphNode.t.

(** The layout returns the nodes it was given, in their order. *)
Hypothesis sankey_names : ∀ config compare nodes links,
  map GraphNode.name (sankey config compare nodes links) = map Node.name nodes.

(** X20. While the parent stores no rank for any of the siblings — in
    particular before the first move — the sibling order of a node is the
    order in which the siblings stand in the node's column, top to bottom:
    the names of the column restricted to the children of the parent. The
    comparison of names by [localeCompare] then never decides. *)
Theorem getSiblingOrder_column_order (settings : Settings.t) (validRows : list Row.t)
    (pg : ParentGroups.t) (nodeName parent : list N) (order : list (list N)) :
  getSiblingOrder lower localeCompare sankey settings validRows pg nodeName
    = Some (parent, order) →
  (∀ name, name ∈ order → rankUnder settings parent name = None) →
  ∃ key columnList,
    LayoutColumns.columnByName
      (layoutColumns lower localeCompare sankey settings validRows) !! nodeName = Some key
    ∧ LayoutColumns.columns
        (layoutColumns lower localeCompare sankey settings validRows) !! key
      = Some columnList
    ∧ order
      = filter (λ name, name ∈ default [] (ParentGroups.parentChildren pg !! parent))
          (map ColumnItem.name columnList).
Proof.
  intros (siblings & key & columnList & Hp & Ht & Hs & Hls & Hk & Hc & Hlc & Hlsic & ->)
    %getSiblingOrder_Some Hnone.
  exists key, columnList. split_and!; [done | done |].
  rewrite Hs. cbn [default from_option id]. fold (siblingsInColumn siblings columnList).
  assert (NoDup (siblingsInColumn siblings columnList)) as Hnd.
  { apply NoDup_filter.
    by eapply (layoutColumns_NoDup lower localeCompare sankey sankey_names). }
  apply (sortBy_ranked _
           (λ x, default 0%nat (indexOf x (siblingsInColumn siblings columnList))));
    [done | done | |].
  - intros i x Hi. by rewrite (indexOf_NoDup _ i x).
  - intros x y Hx Hy Hkeys.
    assert (∀ z, z ∈ siblingsInColumn siblings columnList →
              siblingValue
                (default ∅ (Settings.nodeSettings settings !! parent
                            ≫= NodeSettings.childrenOrder))
                (mapOfEntries
                   (imap (λ index name, (name, index))
                      (siblingsInColumn siblings columnList))) z
              = ofNat (default 0%nat
                         (indexOf z (siblingsInColumn siblings columnList)))) as Hvalue.
    { intros z Hz. unfold siblingValue.
      assert (default ∅ (Settings.nodeSettings settings !! parent
                         ≫= NodeSettings.childrenOrder) !! z = None) as ->.
      { specialize (Hnone z). rewrite sortBy_Permutation in Hnone.
        specialize (Hnone Hz). unfold rankUnder in Hnone.
        destruct (Settings.nodeSettings settings !! parent) as [ps|];
          cbn [mbind option_bind default from_option id] in *; [|apply lookup_empty].
        destruct (NodeSettings.childrenOrder ps);
          cbn [mbind option_bind default from_option id] in *; [done | apply lookup_empty]. }
      rewrite (mapOfEntries_index id) by by rewrite map_id.
      by rewrite map_id. }
    unfold compareSiblings. rewrite (Hvalue x Hx), (Hvalue y Hy).
    destruct (Qeq_bool (ofNat (default 0%nat
                                 (indexOf x (siblingsInColumn siblings columnList))))
                (ofNat (default 0%nat
                          (indexOf y (siblingsInColumn siblings columnList))))) eqn:Heq.
    { by apply ofNat_eq_bool in Heq. }
    cbn [negb]. rewrite ofNat_diff_le. lia.
Qed.

End default_order.

Lemma getSiblingOrder_column_order_witness :
  ∃ key columnList,
    LayoutColumns.columnByName
      (layoutColumns toLowerCaseUnits compareByUnits twoLayerLayout defaultSettings
         threeSiblings) !! js "B" = Some key
    ∧ LayoutColumns.columns
        (layoutColumns toLowerCaseUnits compareByUnits twoLayerLayout defaultSettings
           threeSiblings) !! key = Some columnList
    ∧ [js "A"; js "B"; js "C"]
      = filter
          (λ name, name ∈ default []
                     (ParentGroups.parentChildren (parentGroups threeSiblings) !! js "P"))
          (map ColumnItem.name columnList).
Proof.
  apply (getSiblingOrder_column_order toLowerCaseUnits compareByUnits twoLayerLayout
           twoLayerLayout_names defaultSettings threeSiblings (parentGroups threeSiblings)
           (js "B") (js "P")).
  - by vm_compute.
  - intros name _. by vm_compute.
Defined.

(** ** The totals of a node *)









Example loop_totals :
  Balance.nodeBalances loopRows
  = [NodeBalance.mk (js "A") (Num (0 + 2 + 4)) (Num (0 + 10 + 2)) (Num (0 + 1 + 3))
       (Num (0 + 8 + 1)) true true;
     NodeBalance.mk (js "B") (Num (0 + 10)) (Num (0 + 4)) (Num (0 + 8)) (Num (0 + 3))
       true true].
Proof. by vm_compute. Qed.
